(** * AudioEngine: seeded generator, Euclidean rhythms, transport.

    A shallow embedding of [src/audio/AudioEngine.ts], and of the seeded
    traits and the signal gate of the page component that hosts it.

    Conventions of the embedding.
    - A JavaScript number that holds an integer is a [Z] (doubles hold the
      integers below 2^53 exactly, and the engine's are below 4096); the
      32-bit operators ([^], [|], [<<], [>>>], [Math.imul]) are written with
      their conversions [toInt32] / [toUint32] spelled out.
    - A JavaScript number that holds a time, a tempo or a control value is an
      exact rational [Q]: every finite double is a rational, and the
      properties below (ranges, orderings, step counts with margins of
      tenths of a second) do not depend on the rounding of doubles. The
      one exact equation between such numbers, the size of a tempo step
      in [updateControls_tempo], is one of rationals: the doubles of the
      code meet it up to their rounding.
    - A control vector comes from outside the class and may hold any
      number. [AudioControls] is a vector of finite numbers; [JsControls]
      holds [jsnum]s, which add the infinities and NaN, and [modulate] and
      [targets] are [updateControls] on those. On finite numbers the two
      agree ([modulate_refines], [targets_refines]).
    - Inside [euclid] a division by zero is possible, so the values of its
      work arrays are [num]: an integer, an infinity or NaN.
    - Mutable fields of the engine object are fields of the record [Engine],
      threaded explicitly; calls into the Web Audio backend are appended to
      the field [trace].
    - A loop that may not end takes fuel and returns [None] when it runs
      out; "does not return" is [None] for every amount of fuel. *)

From Stdlib Require Import String Ascii ZArith QArith Qround Qabs Qminmax.
From Stdlib Require Import List Lia Lqa Bool Permutation Sorted.
Import ListNotations.
Open Scope Z_scope.

(** ** 32-bit integer operators of JavaScript *)

Module JS.

Definition two32 : Z := 4294967296.

Definition toUint32 (x : Z) : Z := x mod two32.

Definition toInt32 (x : Z) : Z :=
  let u := x mod two32 in if u <? 2147483648 then u else u - two32.

(** [Math.imul(x, y)] *)
Definition imul (x y : Z) : Z := toInt32 (toInt32 x * toInt32 y).

(** [x ^ y] *)
Definition xor (x y : Z) : Z := Z.lxor (toInt32 x) (toInt32 y).

(** [x | y] *)
Definition bor (x y : Z) : Z := Z.lor (toInt32 x) (toInt32 y).

(** [x >>> s] *)
Definition ushr (x s : Z) : Z := Z.shiftr (toUint32 x) (s mod 32).

(** [x << s] *)
Definition shl (x s : Z) : Z := toInt32 (Z.shiftl (toInt32 x) (s mod 32)).

End JS.

(** ** The generator: cyrb128 + sfc32 *)

(** A JavaScript string, as [charCodeAt] reads it: its UTF-16 code units. *)
Definition jsstring := list Z.

Definition codeUnits (s : string) : jsstring :=
  map (fun a => Z.of_N (N_of_ascii a)) (list_ascii_of_string s).

Record Hash4 := mkHash4 { h1 : Z; h2 : Z; h3 : Z; h4 : Z }.

(** One turn of the [for] loop of [cyrb128]; the four assignments run in
    order, so [h4] is mixed with the new [h1]. *)
Definition cyrb_step (h : Hash4) (k : Z) : Hash4 :=
  let h1' := JS.ushr (JS.xor (h2 h) (JS.imul (JS.xor (h1 h) k) 597399067)) 0 in
  let h2' := JS.ushr (JS.xor (h3 h) (JS.imul (JS.xor (h2 h) k) 2869860233)) 0 in
  let h3' := JS.ushr (JS.xor (h4 h) (JS.imul (JS.xor (h3 h) k) 951274213)) 0 in
  let h4' := JS.ushr (JS.xor h1' (JS.imul (JS.xor (h4 h) k) 2716044179)) 0 in
  mkHash4 h1' h2' h3' h4'.

Definition cyrb_init : Hash4 :=
  mkHash4 1779033703 3144134277 1013904242 2773480762.

Definition cyrb128 (str : jsstring) : list Z :=
  let h := fold_left cyrb_step str cyrb_init in
  let h1' := JS.ushr (JS.imul (JS.xor (h3 h) (JS.ushr (h1 h) 18)) 597399067) 0 in
  let h2' := JS.ushr (JS.imul (JS.xor (h4 h) (JS.ushr (h2 h) 22)) 2869860233) 0 in
  let h3' := JS.ushr (JS.imul (JS.xor h1' (JS.ushr (h3 h) 17)) 951274213) 0 in
  let h4' := JS.ushr (JS.imul (JS.xor h2' (JS.ushr (h4 h) 19)) 2716044179) 0 in
  [JS.ushr (JS.xor (JS.xor (JS.xor h1' h2') h3') h4') 0; h1'; h2'; h3'].

(** The variables [a], [b], [c], [d] captured by the closure [sfc32]
    returns. *)
Record Sfc := mkSfc { sa : Z; sb : Z; sc : Z; sd : Z }.

Definition sfc32 (a b c d : Z) : Sfc := mkSfc a b c d.

(** One call of the closure: the value returned and the captured variables
    after the call. *)
Definition sfc_next (g : Sfc) : Q * Sfc :=
  let a := JS.ushr (sa g) 0 in
  let b := JS.ushr (sb g) 0 in
  let c := JS.ushr (sc g) 0 in
  let d := JS.ushr (sd g) 0 in
  let t := JS.bor (a + b) 0 in
  let a := JS.xor b (JS.ushr b 9) in
  let b := JS.bor (c + JS.shl c 3) 0 in
  let c := JS.bor (JS.shl c 21) (JS.ushr c 11) in
  let d := JS.bor (d + 1) 0 in
  let t := JS.bor (t + d) 0 in
  let c := JS.bor (c + t) 0 in
  (Qmake (JS.ushr t 0) 4294967296, mkSfc a b c d).

Definition makeRng (seed : jsstring) : Sfc :=
  let s := cyrb128 seed in
  sfc32 (nth 0 s 0) (nth 1 s 0) (nth 2 s 0) (nth 3 s 0).

(** The state after [n] calls, and the value of call number [n] (from 0). *)
Fixpoint sfc_after (n : nat) (g : Sfc) : Sfc :=
  match n with
  | O => g
  | S m => sfc_after m (snd (sfc_next g))
  end.

Definition sfc_call (g : Sfc) (n : nat) : Q := fst (sfc_next (sfc_after n g)).

(** The first [n] values a generator returns. *)
Fixpoint sfc_stream (n : nat) (g : Sfc) : list Q :=
  match n with
  | O => []
  | S m => fst (sfc_next g) :: sfc_stream m (snd (sfc_next g))
  end.

(** Two closures live side by side and are called in any order: each owns
    its captured variables. [interleave] returns what each one returned. *)
Inductive Which := First | Second.

Fixpoint interleave (sched : list Which) (g1 g2 : Sfc) : list Q * list Q :=
  match sched with
  | [] => ([], [])
  | First :: rest =>
      let '(v, g1') := sfc_next g1 in
      let '(o1, o2) := interleave rest g1' g2 in (v :: o1, o2)
  | Second :: rest =>
      let '(v, g2') := sfc_next g2 in
      let '(o1, o2) := interleave rest g1 g2' in (o1, v :: o2)
  end.

Definition calls_of (w : Which) (sched : list Which) : nat :=
  length (filter (fun x => match x, w with
                           | First, First | Second, Second => true
                           | _, _ => false end) sched).

(** ** Euclidean rhythms *)

(** Values of the work arrays of [euclid]: [n - k] and [k] are integers,
    but [divisor / remainders[level]] and [divisor % remainders[level]]
    leave the integers when the remainder is 0. *)
Inductive num := Int (z : Z) | Inf (negative : bool) | NaN.

(** [Math.floor(a / b)] *)
Definition floor_div (a b : num) : num :=
  match a, b with
  | NaN, _ | _, NaN => NaN
  | Int x, Int y =>
      if y =? 0 then (if x =? 0 then NaN else Inf (x <? 0)) else Int (x / y)
  | Int _, Inf _ => Int 0
  | Inf s, Int y => Inf (xorb s (y <? 0))
  | Inf _, Inf _ => NaN
  end.

(** [a % b] *)
Definition js_rem (a b : num) : num :=
  match a, b with
  | NaN, _ | _, NaN => NaN
  | Inf _, _ => NaN
  | Int x, Inf _ => Int x
  | Int x, Int y => if y =? 0 then NaN else Int (Z.rem x y)
  end.

(** [a <= 1] *)
Definition le_one (a : num) : bool :=
  match a with
  | Int x => x <=? 1
  | Inf negative => negative
  | NaN => false
  end.

(** [a !== 0] *)
Definition nonzero (a : num) : bool :=
  match a with
  | Int x => negb (x =? 0)
  | _ => true
  end.

(** The [while (true)] loop of [euclid]. [None] is "still looping when the
    fuel ran out"; an array read out of range is [undefined], which the
    arithmetic reads as NaN. *)
Fixpoint bj_loop (fuel : nat) (counts remainders : list num) (divisor : num)
  (level : nat) : option (list num * list num * num * nat) :=
  match fuel with
  | O => None
  | S fuel' =>
      let r := nth level remainders NaN in
      let counts := counts ++ [floor_div divisor r] in
      let remainders := remainders ++ [js_rem divisor r] in
      let divisor := r in
      let level := S level in
      if le_one (nth level remainders NaN)
      then Some (counts, remainders, divisor, level)
      else bj_loop fuel' counts remainders divisor level
  end.

(** [for (let i=0; i<c; i++) seq = seq.concat(x)] starting from [seq = []];
    the body is not run when [c] is not positive (or NaN), and the loop
    does not end when [c] is [+Infinity]. *)
Definition concat_times (c : num) (x : option (list Z)) : option (list Z) :=
  match c with
  | Int z => if z <=? 0 then Some []
             else option_map (fun a => concat (repeat a (Z.to_nat z))) x
  | Inf true | NaN => Some []
  | Inf false => None
  end.

(** The inner function [build]; its argument is [level + 2], so that the
    base cases [level === -2] and [level === -1] are [0] and [1]. *)
Fixpoint build (counts remainders : list num) (level2 : nat) : option (list Z) :=
  match level2 with
  | O => Some [1]
  | S level1 =>
      match level1 with
      | O => Some [0]
      | S level =>
          match concat_times (nth level counts NaN) (build counts remainders level1) with
          | None => None
          | Some seq =>
              if nonzero (nth level remainders NaN)
              then option_map (fun b => seq ++ b) (build counts remainders level)
              else Some seq
          end
      end
  end.

(** [Array.prototype.slice(start, end)] *)
Definition rel_index (len i : Z) : Z :=
  if i <? 0 then Z.max (len + i) 0 else Z.min i len.

Definition slice {A} (start end_ : Z) (l : list A) : list A :=
  let len := Z.of_nat (length l) in
  let s := rel_index len start in
  let e := rel_index len end_ in
  firstn (Z.to_nat (e - s)) (skipn (Z.to_nat s) l).

(** [((rot % n) + n) % n]; for [n = 0] it is NaN, which [slice] reads
    as 0. *)
Definition normRot (rot n : Z) : Z :=
  if n =? 0 then 0 else Z.rem (Z.rem rot n + n) n.

Definition euclid_fuel (fuel : nat) (k n rot : Z) : option (list Z) :=
  let k := Z.max 0 (Z.min k n) in
  match bj_loop fuel [] [Int k] (Int (n - k)) 0 with
  | None => None
  | Some (counts, remainders, divisor, level) =>
      let counts := counts ++ [divisor] in
      match build counts remainders (S (S level)) with
      | None => None
      | Some pattern =>
          let rot := normRot rot n in
          let pattern :=
            slice rot (Z.of_nat (length pattern)) pattern ++ slice 0 rot pattern in
          Some (map (fun x => if x =? 0 then 0 else 1) pattern)
      end
  end.

(** [euclid] with as many turns of the loop as the clamped [k] can need:
    more fuel returns the same ([euclid_fuel_enough]), and where this is
    [None] no fuel is enough ([euclid_fuel_no_onsets]). *)
Definition euclid (k n rot : Z) : option (list Z) :=
  euclid_fuel (S (Z.to_nat (Z.min k n))) k n rot.

(** Positions of the onsets of a pattern, and the gaps from each onset to
    the next one around the cycle. *)
Fixpoint onsets_from (i : Z) (p : list Z) : list Z :=
  match p with
  | [] => []
  | x :: q => if x =? 0 then onsets_from (i + 1) q else i :: onsets_from (i + 1) q
  end.

Definition onsets (p : list Z) : list Z := onsets_from 0 p.

Fixpoint diffs (l : list Z) : list Z :=
  match l with
  | a :: (b :: _) as t => (b - a) :: diffs t
  | _ => []
  end.

Definition gaps (p : list Z) : list Z :=
  match onsets p with
  | [] => []
  | o :: rest => diffs (o :: rest) ++ [o + Z.of_nat (length p) - last rest o]
  end.

Definition count_true (p : list Z) : Z :=
  Z.of_nat (length (filter (fun x => negb (x =? 0)) p)).

(** ** The engine object *)

(** [clamp] and [lerp] on finite numbers, in exact arithmetic; [js_clamp]
    and [js_lerp] below are the same on any number (a NaN goes through
    [Math.min] and [Math.max], so the clamp does not bound it). *)
Definition clamp (x a b : Q) : Q := Qmin b (Qmax a x).
Definition lerp (a b t : Q) : Q := a + (b - a) * t.

(** [Math.round]: the nearest integer, halves upwards. *)
Definition round (x : Q) : Z := Qfloor (x + 0.5).

Definition Qltb (a b : Q) : bool := negb (Qle_bool b a).

Definition SCALES : list (list Z) :=
  [ [0;1;3;5;7;8;10]; [0;1;3;5;6;8;10]; [0;2;4;6;8;10]; [0;2;3;5;7;9;10];
    [0;2;3;5;7;8;11]; [0;2;3;5;6;8;9;11] ].

(** A control vector whose five fields are finite numbers; [JsControls]
    below is the vector of any numbers. *)
Record AudioControls := mkControls {
  fx : Q; fy : Q; approach : Q; activity : Q; mode : Q }.

(** The audio parameters [updateControls] steers. *)
Inductive Param := RevGain | DelayGain | PanHats | PanArp.

(** Calls into the Web Audio backend, in the order they are made. A pitched
    voice is recorded with the note number handed to [mtof], not with the
    frequency [mtof] makes of it. *)
Inductive Call :=
| SetTargetAtTime (p : Param) (target startTime timeConstant : Q)
| TrigKick (t amp : Q)
| TrigSnare (t freq : Q)
| TrigHat (t amp : Q)
| TrigClap (t amp : Q)
| TrigFMBass (t : Q) (note : Z) (amp : Q)
| TrigArp (t : Q) (note : Z) (amp : Q)
| TrigPad (t : Q) (note : Z) (amp : Q).

Definition is_trigger (c : Call) : bool :=
  match c with
  | SetTargetAtTime _ _ _ _ => false
  | _ => true
  end.

(** The fields of [AudioEngine]. [steps] records the arguments of every
    [scheduleStep] call and [trace] the backend calls: both are
    observations, the code does not read them. *)
Record Engine := mkEngine {
  rng : Sfc;
  running : bool;
  nextNoteTime : Q;
  beat : Z;
  lookahead : Q;
  scheduleAheadTime : Q;
  bpm : Q;
  swing : Q;
  vol : Q;
  Lk : Z;
  Ls : Z;
  Lh : Z;
  La : Z;
  Lb : Z;
  Lp : Z;
  denKick : Z;
  denSnare : Z;
  denHat : Z;
  denArp : Z;
  denBass : Z;
  denClaps : Z;
  baseNote : Z;
  scale : list Z;
  _int : option nat;
  steps : list (Z * Q);
  trace : list Call }.

Definition set_rng (x : Sfc) (e : Engine) : Engine :=
  mkEngine x (running e) (nextNoteTime e) (beat e) (lookahead e)
    (scheduleAheadTime e) (bpm e) (swing e) (vol e) (Lk e) (Ls e) (Lh e) (La
    e) (Lb e) (Lp e) (denKick e) (denSnare e) (denHat e) (denArp e) (denBass
    e) (denClaps e) (baseNote e) (scale e) (_int e) (steps e) (trace e).
Definition set_running (x : bool) (e : Engine) : Engine :=
  mkEngine (rng e) x (nextNoteTime e) (beat e) (lookahead e)
    (scheduleAheadTime e) (bpm e) (swing e) (vol e) (Lk e) (Ls e) (Lh e) (La
    e) (Lb e) (Lp e) (denKick e) (denSnare e) (denHat e) (denArp e) (denBass
    e) (denClaps e) (baseNote e) (scale e) (_int e) (steps e) (trace e).
Definition set_nextNoteTime (x : Q) (e : Engine) : Engine :=
  mkEngine (rng e) (running e) x (beat e) (lookahead e) (scheduleAheadTime e)
    (bpm e) (swing e) (vol e) (Lk e) (Ls e) (Lh e) (La e) (Lb e) (Lp e)
    (denKick e) (denSnare e) (denHat e) (denArp e) (denBass e) (denClaps e)
    (baseNote e) (scale e) (_int e) (steps e) (trace e).
Definition set_beat (x : Z) (e : Engine) : Engine :=
  mkEngine (rng e) (running e) (nextNoteTime e) x (lookahead e)
    (scheduleAheadTime e) (bpm e) (swing e) (vol e) (Lk e) (Ls e) (Lh e) (La
    e) (Lb e) (Lp e) (denKick e) (denSnare e) (denHat e) (denArp e) (denBass
    e) (denClaps e) (baseNote e) (scale e) (_int e) (steps e) (trace e).
Definition set_bpm (x : Q) (e : Engine) : Engine :=
  mkEngine (rng e) (running e) (nextNoteTime e) (beat e) (lookahead e)
    (scheduleAheadTime e) x (swing e) (vol e) (Lk e) (Ls e) (Lh e) (La e) (Lb
    e) (Lp e) (denKick e) (denSnare e) (denHat e) (denArp e) (denBass e)
    (denClaps e) (baseNote e) (scale e) (_int e) (steps e) (trace e).
Definition set_swing (x : Q) (e : Engine) : Engine :=
  mkEngine (rng e) (running e) (nextNoteTime e) (beat e) (lookahead e)
    (scheduleAheadTime e) (bpm e) x (vol e) (Lk e) (Ls e) (Lh e) (La e) (Lb e)
    (Lp e) (denKick e) (denSnare e) (denHat e) (denArp e) (denBass e)
    (denClaps e) (baseNote e) (scale e) (_int e) (steps e) (trace e).
Definition set_vol (x : Q) (e : Engine) : Engine :=
  mkEngine (rng e) (running e) (nextNoteTime e) (beat e) (lookahead e)
    (scheduleAheadTime e) (bpm e) (swing e) x (Lk e) (Ls e) (Lh e) (La e) (Lb
    e) (Lp e) (denKick e) (denSnare e) (denHat e) (denArp e) (denBass e)
    (denClaps e) (baseNote e) (scale e) (_int e) (steps e) (trace e).
Definition set_Lk (x : Z) (e : Engine) : Engine :=
  mkEngine (rng e) (running e) (nextNoteTime e) (beat e) (lookahead e)
    (scheduleAheadTime e) (bpm e) (swing e) (vol e) x (Ls e) (Lh e) (La e) (Lb
    e) (Lp e) (denKick e) (denSnare e) (denHat e) (denArp e) (denBass e)
    (denClaps e) (baseNote e) (scale e) (_int e) (steps e) (trace e).
Definition set_Ls (x : Z) (e : Engine) : Engine :=
  mkEngine (rng e) (running e) (nextNoteTime e) (beat e) (lookahead e)
    (scheduleAheadTime e) (bpm e) (swing e) (vol e) (Lk e) x (Lh e) (La e) (Lb
    e) (Lp e) (denKick e) (denSnare e) (denHat e) (denArp e) (denBass e)
    (denClaps e) (baseNote e) (scale e) (_int e) (steps e) (trace e).
Definition set_Lh (x : Z) (e : Engine) : Engine :=
  mkEngine (rng e) (running e) (nextNoteTime e) (beat e) (lookahead e)
    (scheduleAheadTime e) (bpm e) (swing e) (vol e) (Lk e) (Ls e) x (La e) (Lb
    e) (Lp e) (denKick e) (denSnare e) (denHat e) (denArp e) (denBass e)
    (denClaps e) (baseNote e) (scale e) (_int e) (steps e) (trace e).
Definition set_La (x : Z) (e : Engine) : Engine :=
  mkEngine (rng e) (running e) (nextNoteTime e) (beat e) (lookahead e)
    (scheduleAheadTime e) (bpm e) (swing e) (vol e) (Lk e) (Ls e) (Lh e) x (Lb
    e) (Lp e) (denKick e) (denSnare e) (denHat e) (denArp e) (denBass e)
    (denClaps e) (baseNote e) (scale e) (_int e) (steps e) (trace e).
Definition set_Lb (x : Z) (e : Engine) : Engine :=
  mkEngine (rng e) (running e) (nextNoteTime e) (beat e) (lookahead e)
    (scheduleAheadTime e) (bpm e) (swing e) (vol e) (Lk e) (Ls e) (Lh e) (La
    e) x (Lp e) (denKick e) (denSnare e) (denHat e) (denArp e) (denBass e)
    (denClaps e) (baseNote e) (scale e) (_int e) (steps e) (trace e).
Definition set_Lp (x : Z) (e : Engine) : Engine :=
  mkEngine (rng e) (running e) (nextNoteTime e) (beat e) (lookahead e)
    (scheduleAheadTime e) (bpm e) (swing e) (vol e) (Lk e) (Ls e) (Lh e) (La
    e) (Lb e) x (denKick e) (denSnare e) (denHat e) (denArp e) (denBass e)
    (denClaps e) (baseNote e) (scale e) (_int e) (steps e) (trace e).
Definition set_denKick (x : Z) (e : Engine) : Engine :=
  mkEngine (rng e) (running e) (nextNoteTime e) (beat e) (lookahead e)
    (scheduleAheadTime e) (bpm e) (swing e) (vol e) (Lk e) (Ls e) (Lh e) (La
    e) (Lb e) (Lp e) x (denSnare e) (denHat e) (denArp e) (denBass e)
    (denClaps e) (baseNote e) (scale e) (_int e) (steps e) (trace e).
Definition set_denSnare (x : Z) (e : Engine) : Engine :=
  mkEngine (rng e) (running e) (nextNoteTime e) (beat e) (lookahead e)
    (scheduleAheadTime e) (bpm e) (swing e) (vol e) (Lk e) (Ls e) (Lh e) (La
    e) (Lb e) (Lp e) (denKick e) x (denHat e) (denArp e) (denBass e) (denClaps
    e) (baseNote e) (scale e) (_int e) (steps e) (trace e).
Definition set_denHat (x : Z) (e : Engine) : Engine :=
  mkEngine (rng e) (running e) (nextNoteTime e) (beat e) (lookahead e)
    (scheduleAheadTime e) (bpm e) (swing e) (vol e) (Lk e) (Ls e) (Lh e) (La
    e) (Lb e) (Lp e) (denKick e) (denSnare e) x (denArp e) (denBass e)
    (denClaps e) (baseNote e) (scale e) (_int e) (steps e) (trace e).
Definition set_denArp (x : Z) (e : Engine) : Engine :=
  mkEngine (rng e) (running e) (nextNoteTime e) (beat e) (lookahead e)
    (scheduleAheadTime e) (bpm e) (swing e) (vol e) (Lk e) (Ls e) (Lh e) (La
    e) (Lb e) (Lp e) (denKick e) (denSnare e) (denHat e) x (denBass e)
    (denClaps e) (baseNote e) (scale e) (_int e) (steps e) (trace e).
Definition set_denBass (x : Z) (e : Engine) : Engine :=
  mkEngine (rng e) (running e) (nextNoteTime e) (beat e) (lookahead e)
    (scheduleAheadTime e) (bpm e) (swing e) (vol e) (Lk e) (Ls e) (Lh e) (La
    e) (Lb e) (Lp e) (denKick e) (denSnare e) (denHat e) (denArp e) x
    (denClaps e) (baseNote e) (scale e) (_int e) (steps e) (trace e).
Definition set_denClaps (x : Z) (e : Engine) : Engine :=
  mkEngine (rng e) (running e) (nextNoteTime e) (beat e) (lookahead e)
    (scheduleAheadTime e) (bpm e) (swing e) (vol e) (Lk e) (Ls e) (Lh e) (La
    e) (Lb e) (Lp e) (denKick e) (denSnare e) (denHat e) (denArp e) (denBass
    e) x (baseNote e) (scale e) (_int e) (steps e) (trace e).
Definition set_baseNote (x : Z) (e : Engine) : Engine :=
  mkEngine (rng e) (running e) (nextNoteTime e) (beat e) (lookahead e)
    (scheduleAheadTime e) (bpm e) (swing e) (vol e) (Lk e) (Ls e) (Lh e) (La
    e) (Lb e) (Lp e) (denKick e) (denSnare e) (denHat e) (denArp e) (denBass
    e) (denClaps e) x (scale e) (_int e) (steps e) (trace e).
Definition set_scale (x : list Z) (e : Engine) : Engine :=
  mkEngine (rng e) (running e) (nextNoteTime e) (beat e) (lookahead e)
    (scheduleAheadTime e) (bpm e) (swing e) (vol e) (Lk e) (Ls e) (Lh e) (La
    e) (Lb e) (Lp e) (denKick e) (denSnare e) (denHat e) (denArp e) (denBass
    e) (denClaps e) (baseNote e) x (_int e) (steps e) (trace e).
Definition set_int (x : option nat) (e : Engine) : Engine :=
  mkEngine (rng e) (running e) (nextNoteTime e) (beat e) (lookahead e)
    (scheduleAheadTime e) (bpm e) (swing e) (vol e) (Lk e) (Ls e) (Lh e) (La
    e) (Lb e) (Lp e) (denKick e) (denSnare e) (denHat e) (denArp e) (denBass
    e) (denClaps e) (baseNote e) (scale e) x (steps e) (trace e).
Definition set_steps (x : list (Z * Q)) (e : Engine) : Engine :=
  mkEngine (rng e) (running e) (nextNoteTime e) (beat e) (lookahead e)
    (scheduleAheadTime e) (bpm e) (swing e) (vol e) (Lk e) (Ls e) (Lh e) (La
    e) (Lb e) (Lp e) (denKick e) (denSnare e) (denHat e) (denArp e) (denBass
    e) (denClaps e) (baseNote e) (scale e) (_int e) x (trace e).
Definition set_trace (x : list Call) (e : Engine) : Engine :=
  mkEngine (rng e) (running e) (nextNoteTime e) (beat e) (lookahead e)
    (scheduleAheadTime e) (bpm e) (swing e) (vol e) (Lk e) (Ls e) (Lh e) (La
    e) (Lb e) (Lp e) (denKick e) (denSnare e) (denHat e) (denArp e) (denBass
    e) (denClaps e) (baseNote e) (scale e) (_int e) (steps e) x.

(** The field initialisers of the class; the constructor replaces [rng]
    (initially [Math.random]) through [setSeed] before anything reads it. *)
Definition fieldDefaults : Engine :=
  {| rng := sfc32 0 0 0 0; running := false; nextNoteTime := 0; beat := 0;
     lookahead := 0.025; scheduleAheadTime := 0.15; bpm := 110; swing := 0;
     vol := 0.8;
     Lk := 15; Ls := 12; Lh := 17; La := 14; Lb := 13; Lp := 16;
     denKick := 5; denSnare := 4; denHat := 9; denArp := 6; denBass := 6;
     denClaps := 3;
     baseNote := 36; scale := nth 0 SCALES [];
     _int := None; steps := []; trace := [] |}.

(** [this.rng()] *)
Definition draw (e : Engine) : Q * Engine :=
  let '(v, g) := sfc_next (rng e) in (v, set_rng g e).

(** [Math.floor(this.rng() * m)] *)
Definition drawInt (m : Z) (e : Engine) : Z * Engine :=
  let '(v, e) := draw e in (Qfloor (v * inject_Z m), e).

(** [arr[i]] for an index in range (every index below is, see
    [drawInt_range]). *)
Definition pick {A} (arr : list A) (i : Z) (d : A) : A := nth (Z.to_nat i) arr d.

Definition setSeed (seed : jsstring) (e : Engine) : Engine :=
  let e := set_rng (makeRng seed) e in
  let primes := [13; 15; 17; 19] in
  let '(i, e) := drawInt 4 e in let e := set_Lk (pick primes i 0) e in
  let '(i, e) := drawInt 3 e in let e := set_Ls (pick [12; 14; 16] i 0) e in
  let '(i, e) := drawInt 4 e in let e := set_Lh (pick primes i 0) e in
  let '(i, e) := drawInt 4 e in let e := set_La (pick [10; 11; 14; 18] i 0) e in
  let '(i, e) := drawInt 4 e in let e := set_Lb (pick primes i 0) e in
  let e := set_Lp 16 e in
  let '(i, e) := drawInt 4 e in let e := set_denKick (4 + i) e in
  let '(i, e) := drawInt 4 e in let e := set_denSnare (3 + i) e in
  let '(i, e) := drawInt 6 e in let e := set_denHat (8 + i) e in
  let '(i, e) := drawInt 6 e in let e := set_denArp (5 + i) e in
  let '(i, e) := drawInt 5 e in let e := set_denBass (4 + i) e in
  let '(i, e) := drawInt 3 e in let e := set_denClaps (2 + i) e in
  let '(i, e) := drawInt 6 e in let e := set_scale (pick SCALES i []) e in
  let '(i, e) := drawInt 8 e in set_baseNote (32 + i) e.

(** [new AudioEngine(seed)], as far as the fields go. *)
Definition newEngine (seed : jsstring) : Engine := setSeed seed fieldDefaults.

Definition setVolume (v : Q) (e : Engine) : Engine := set_vol v e.

Local Open Scope Q_scope.

(** The local [tgtBpm] of [updateControls]. *)
Definition tgtBpm (c : AudioControls) : Q :=
  90 + activity c * 70 + Qabs (fx c) * 10 + Qabs (fy c) * 6.

(** [updateControls(c)]; [now] is [this.ctx.currentTime]. *)
Definition updateControls (c : AudioControls) (now : Q) (e : Engine) : Engine :=
  let e := set_bpm (lerp (bpm e) (clamp (tgtBpm c) 70 180) 0.08) e in
  let e := set_swing (lerp (swing e) (clamp (fy c * 0.12) (-0.15) 0.15) 0.05) e in
  let k := clamp (activity c) 0 1 in
  let e := set_denHat (round (8 + k * 8)) e in
  let e := set_denSnare (round (3 + k * 5)) e in
  set_trace
    (trace e ++
     [ SetTargetAtTime RevGain
         (lerp 0.1 0.3 (clamp (approach c * 0.5 + 0.5) 0 1)) now 0.25;
       SetTargetAtTime DelayGain (lerp 0.08 0.22 (Qabs (fx c))) now 0.25;
       SetTargetAtTime PanHats (clamp (fx c) (-1) 1) now 0.1;
       SetTargetAtTime PanArp (clamp (fy c) (-1) 1) now 0.1 ]) e.

Local Close Scope Q_scope.

(** ** [updateControls] on any numbers

    The type of a control vector admits every number: a field can be NaN
    or an infinity, and nothing in the class looks. The arithmetic of
    [updateControls] is written out here on such numbers. Finite numbers
    are exact rationals as everywhere else; the two zeros are one. *)

Inductive jsnum := Finite (q : Q) | Infinite (negative : bool) | NotANumber.

(** [a + b] *)
Definition js_add (a b : jsnum) : jsnum :=
  match a, b with
  | NotANumber, _ | _, NotANumber => NotANumber
  | Finite x, Finite y => Finite (x + y)
  | Finite _, Infinite s => Infinite s
  | Infinite s, Finite _ => Infinite s
  | Infinite s, Infinite t => if Bool.eqb s t then Infinite s else NotANumber
  end.

(** [a - b] *)
Definition js_sub (a b : jsnum) : jsnum :=
  match a, b with
  | NotANumber, _ | _, NotANumber => NotANumber
  | Finite x, Finite y => Finite (x - y)
  | Finite _, Infinite s => Infinite (negb s)
  | Infinite s, Finite _ => Infinite s
  | Infinite s, Infinite t => if Bool.eqb s t then NotANumber else Infinite s
  end.

(** [a * b] *)
Definition js_mul (a b : jsnum) : jsnum :=
  match a, b with
  | NotANumber, _ | _, NotANumber => NotANumber
  | Finite x, Finite y => Finite (x * y)
  | Finite x, Infinite s =>
      if Qeq_bool x 0 then NotANumber else Infinite (xorb s (Qltb x 0))
  | Infinite s, Finite y =>
      if Qeq_bool y 0 then NotANumber else Infinite (xorb s (Qltb y 0))
  | Infinite s, Infinite t => Infinite (xorb s t)
  end.

(** [Math.abs(a)] *)
Definition js_abs (a : jsnum) : jsnum :=
  match a with
  | Finite x => Finite (Qabs x)
  | Infinite _ => Infinite false
  | NotANumber => NotANumber
  end.

(** [Math.max(a, b)] and [Math.min(a, b)]: NaN if either is. *)
Definition js_max (a b : jsnum) : jsnum :=
  match a, b with
  | NotANumber, _ | _, NotANumber => NotANumber
  | Infinite false, _ | _, Infinite false => Infinite false
  | Infinite true, x => x
  | x, Infinite true => x
  | Finite x, Finite y => Finite (Qmax x y)
  end.

Definition js_min (a b : jsnum) : jsnum :=
  match a, b with
  | NotANumber, _ | _, NotANumber => NotANumber
  | Infinite true, _ | _, Infinite true => Infinite true
  | Infinite false, x => x
  | x, Infinite false => x
  | Finite x, Finite y => Finite (Qmin x y)
  end.

(** [Math.round(a)] *)
Definition js_round (a : jsnum) : num :=
  match a with
  | Finite x => Int (round x)
  | Infinite s => Inf s
  | NotANumber => NaN
  end.

Definition js_clamp (x a b : jsnum) : jsnum := js_min b (js_max a x).
Definition js_lerp (a b t : jsnum) : jsnum := js_add a (js_mul (js_sub b a) t).

Record JsControls := mkJsControls {
  jfx : jsnum; jfy : jsnum; japproach : jsnum; jactivity : jsnum;
  jmode : jsnum }.

(** The four fields [updateControls] writes, as the numbers they hold. *)
Record Modulated := mkModulated {
  m_bpm : jsnum; m_swing : jsnum; m_denHat : num; m_denSnare : num }.

(** The four values [updateControls] hands to [setTargetAtTime] (which
    throws a TypeError when handed one that is not finite). *)
Record Targets := mkTargets {
  t_revGain : jsnum; t_delayGain : jsnum; t_panHats : jsnum; t_panArp : jsnum }.

Local Open Scope Q_scope.

(** The local [tgtBpm] of [updateControls]. *)
Definition js_tgtBpm (c : JsControls) : jsnum :=
  js_add
    (js_add (js_add (Finite 90) (js_mul (jactivity c) (Finite 70)))
            (js_mul (js_abs (jfx c)) (Finite 10)))
    (js_mul (js_abs (jfy c)) (Finite 6)).

(** The assignments of [updateControls(c)]. *)
Definition modulate (c : JsControls) (m : Modulated) : Modulated :=
  let k := js_clamp (jactivity c) (Finite 0) (Finite 1) in
  mkModulated
    (js_lerp (m_bpm m) (js_clamp (js_tgtBpm c) (Finite 70) (Finite 180))
       (Finite 0.08))
    (js_lerp (m_swing m)
       (js_clamp (js_mul (jfy c) (Finite 0.12)) (Finite (-0.15)) (Finite 0.15))
       (Finite 0.05))
    (js_round (js_add (Finite 8) (js_mul k (Finite 8))))
    (js_round (js_add (Finite 3) (js_mul k (Finite 5)))).

(** The targets of [updateControls(c)]. *)
Definition targets (c : JsControls) : Targets :=
  mkTargets
    (js_lerp (Finite 0.1) (Finite 0.3)
       (js_clamp (js_add (js_mul (japproach c) (Finite 0.5)) (Finite 0.5))
          (Finite 0) (Finite 1)))
    (js_lerp (Finite 0.08) (Finite 0.22) (js_abs (jfx c)))
    (js_clamp (jfx c) (Finite (-1)) (Finite 1))
    (js_clamp (jfy c) (Finite (-1)) (Finite 1)).

Local Close Scope Q_scope.

Definition modulateAll (cs : list JsControls) (m : Modulated) : Modulated :=
  fold_left (fun m c => modulate c m) cs m.

(** A vector of finite numbers as a vector of numbers, and back. *)
Definition inject (c : AudioControls) : JsControls :=
  mkJsControls (Finite (fx c)) (Finite (fy c)) (Finite (approach c))
               (Finite (activity c)) (Finite (mode c)).

Definition numeric (c : JsControls) : option AudioControls :=
  match jfx c, jfy c, japproach c, jactivity c, jmode c with
  | Finite x, Finite y, Finite a, Finite v, Finite m =>
      Some (mkControls x y a v m)
  | _, _, _, _, _ => None
  end.

(** The four modulated fields of an engine whose fields are finite. *)
Definition modulated_of (e : Engine) : Modulated :=
  mkModulated (Finite (bpm e)) (Finite (swing e))
              (Int (denHat e)) (Int (denSnare e)).

(** [euclid(k, n, rot)] when [k] is any number that holds an integer, an
    infinity or NaN, as a density field can after [updateControls]:
    [Math.max(0, Math.min(k, n))], then [n - k], then the code of
    [euclid_fuel]. *)
Definition clamp_onsets (k : num) (n : Z) : num :=
  match k with
  | Int z => Int (Z.max 0 (Z.min z n))
  | Inf true => Int 0
  | Inf false => Int (Z.max 0 n)
  | NaN => NaN
  end.

Definition minus_from (n : Z) (k : num) : num :=
  match k with
  | Int z => Int (n - z)
  | Inf s => Inf (negb s)
  | NaN => NaN
  end.

Definition euclid_js (fuel : nat) (k : num) (n rot : Z) : option (list Z) :=
  let k := clamp_onsets k n in
  match bj_loop fuel [] [k] (minus_from n k) 0 with
  | None => None
  | Some (counts, remainders, divisor, level) =>
      let counts := counts ++ [divisor] in
      match build counts remainders (S (S level)) with
      | None => None
      | Some pattern =>
          let rot := normRot rot n in
          let pattern :=
            slice rot (Z.of_nat (length pattern)) pattern ++ slice 0 rot pattern in
          Some (map (fun x => if x =? 0 then 0 else 1) pattern)
      end
  end.

(** ** Scheduling *)

(** Code that reads and writes the engine and may not return: [None] is
    divergence (an [euclid] call that never ends, or a loop out of fuel). *)
Definition M (A : Type) : Type := Engine -> option (A * Engine).

Definition ret {A} (a : A) : M A := fun e => Some (a, e).

Definition bind {A B} (m : M A) (k : A -> M B) : M B :=
  fun e => match m e with
           | None => None
           | Some (a, e') => k a e'
           end.

Notation "x <- m ;; k" := (bind m (fun x => k))
  (at level 61, m at next level, right associativity).
Notation "m ;;; k" := (bind m (fun _ => k))
  (at level 61, right associativity).

Definition rand : M Q := fun e => Some (draw e).

Definition randInt (m : Z) : M Z := fun e => Some (drawInt m e).

Definition emit (c : Call) : M unit :=
  fun e => Some (tt, set_trace (trace e ++ [c]) e).

Definition modify (f : Engine -> Engine) : M unit := fun e => Some (tt, f e).

Definition when (b : bool) (m : M unit) : M unit := if b then m else ret tt.

(** [euclid(k, n, rot)[i]] read as a condition: an entry out of range is
    [undefined], which is false. *)
Definition hit (k n rot i : Z) : M bool :=
  fun e => match euclid k n rot with
           | None => None
           | Some p => Some (negb (nth (Z.to_nat i) p 0 =? 0), e)
           end.

(** [a && this.rng() < q]: the generator is called only when [a] holds. *)
Definition gate (a : bool) (q : Q) : M bool :=
  if a then (v <- rand ;; ret (Qltb v q)) else ret false.

Local Open Scope Q_scope.

(** [trigPad] draws three detune values from the generator, one per voice;
    the other voices do not touch the engine's fields. *)
Definition trigPad (t : Q) (note : Z) (amp : Q) : M unit :=
  emit (TrigPad t note amp) ;;; _ <- rand ;; _ <- rand ;; _ <- rand ;; ret tt.

Definition scheduleStep (beat : Z) (time : Q) : M unit :=
  fun e =>
  let kStep := Z.rem beat (Lk e) in
  let sStep := Z.rem beat (Ls e) in
  let hStep := Z.rem beat (Lh e) in
  let aStep := Z.rem beat (La e) in
  let bStep := Z.rem beat (Lb e) in
  let pStep := Z.rem beat (Lp e) in
  let scaleLen := Z.of_nat (length (scale e)) in
  ( modify (fun e => set_steps (steps e ++ [(beat, time)]) e) ;;;
    k <- hit (denKick e) (Lk e) 0 kStep ;;
    when k (v <- rand ;; emit (TrigKick time (0.9 + 0.2 * v))) ;;;
    s <- hit (denSnare e) (Ls e) 3 sStep ;;
    s <- gate s 0.95 ;;
    when s (v <- rand ;; emit (TrigSnare time (1800 + 800 * v))) ;;;
    h <- hit (denHat e) (Lh e) 2 hStep ;;
    when h (v <- rand ;; emit (TrigHat time (0.25 + 0.1 * v))) ;;;
    c <- hit (denClaps e) (Ls e) 1 sStep ;;
    c <- gate c 0.35 ;;
    when c (emit (TrigClap (time + 0.002) 0.18)) ;;;
    b <- hit (denBass e) (Lb e) 0 bStep ;;
    b <- gate b 0.85 ;;
    when b (i <- randInt 3 ;;
            let deg := pick (scale e) (Z.rem (bStep + i) scaleLen) 0%Z in
            v <- rand ;;
            let note := (baseNote e + deg + (if Qltb v 0.2 then 12 else 0))%Z in
            emit (TrigFMBass time note 0.35)) ;;;
    a <- hit (denArp e) (La e) 0 aStep ;;
    a <- gate a 0.9 ;;
    when a (i <- randInt 2 ;;
            let deg := pick (scale e) (Z.rem (aStep * 2 + i) scaleLen) 0%Z in
            v <- rand ;;
            let note := (baseNote e + 12 + deg + (if Qltb v 0.3 then 12 else 0))%Z in
            emit (TrigArp time note 0.18)) ;;;
    p <- gate (Z.rem pStep 8 =? 0)%Z 0.6 ;;
    when p (let deg := pick (scale e) (Z.rem (pStep / 2 + 1) scaleLen) 0%Z in
            v <- rand ;;
            trigPad time (baseNote e + 24 + deg)%Z (0.5 + 0.2 * v)) ) e.

(** The [while] loop of [scheduler]; [secPerBeat] is computed once, before
    the loop. *)
Fixpoint scheduler_loop (fuel : nat) (cur secPerBeat : Q) : M unit :=
  fun e =>
  if Qltb (nextNoteTime e) (cur + scheduleAheadTime e) then
    match fuel with
    | O => None
    | S fuel' =>
        let t := nextNoteTime e in
        let step16 :=
          if (Z.rem (beat e) 2 =? 1)%Z then swing e * secPerBeat * 0.5 else 0 in
        let t := t + step16 in
        ( scheduleStep (beat e) t ;;;
          modify (fun e => set_nextNoteTime (nextNoteTime e + 0.25 * secPerBeat) e) ;;;
          modify (fun e => set_beat (Z.rem (beat e + 1) 4096) e) ;;;
          scheduler_loop fuel' cur secPerBeat ) e
    end
  else Some (tt, e).

(** [scheduler()]; [cur] is [this.ctx.currentTime]. The tempo is positive
    in every engine the class can reach ([60 / bpm] is a division of
    doubles in the source). *)
Definition scheduler (fuel : nat) (cur : Q) : M unit :=
  fun e => scheduler_loop fuel cur (60 / bpm e) e.

Local Close Scope Q_scope.

(** ** The engine in its event loop

    JavaScript runs each call and each timer callback to completion.
    [start] is an [async] function: a call runs up to [await
    this.ctx.resume()] and the rest runs when the promise is fulfilled; if
    it is rejected, the promise [start] returned is rejected with it. *)

Inductive StartResult :=
| ReturnedEarly   (** [if (this.running) return] *)
| Started         (** ran to the end *)
| Rejected.       (** [ctx.resume()] failed; the caller's promise rejects *)

Record World := mkWorld {
  eng : Engine;
  timers : list nat;     (** timers that [setInterval] installed *)
  nextTimer : nat;       (** the handle [setInterval] returns next; not 0 *)
  awaiting : nat;        (** [start] calls suspended at the [await] *)
  results : list StartResult  (** settled promises of [start] calls *) }.

Inductive Event :=
| CallStart
| ResumeFulfilled (cur : Q)   (** [cur] is [ctx.currentTime] at that moment *)
| ResumeRejected
| CallStop
| TimerFires (id : nat) (cur : Q)
| CallUpdateControls (c : AudioControls) (cur : Q)
| CallSetSeed (seed : jsstring)
| CallSetVolume (v : Q).

Definition on_engine (f : Engine -> Engine) (w : World) : World :=
  mkWorld (f (eng w)) (timers w) (nextTimer w) (awaiting w) (results w).

Definition clearInterval (id : nat) (ts : list nat) : list nat :=
  filter (fun t => negb (Nat.eqb t id)) ts.

(** [start()] up to its [await]. *)
Definition start (w : World) : World :=
  if running (eng w)
  then mkWorld (eng w) (timers w) (nextTimer w) (awaiting w)
         (results w ++ [ReturnedEarly])
  else mkWorld (set_running true (eng w)) (timers w) (nextTimer w)
         (S (awaiting w)) (results w).

(** The rest of [start()], run when the resume is fulfilled. *)
Definition start_resumed (cur : Q) (w : World) : World :=
  match awaiting w with
  | O => w
  | S n =>
      let e := set_nextNoteTime (cur + 0.05)%Q (eng w) in
      let e := set_beat 0 e in
      let id := nextTimer w in
      let e := set_int (Some id) e in
      mkWorld e (timers w ++ [id]) (S id) n (results w ++ [Started])
  end.

(** The resume is rejected: the rest of [start()] is not run. *)
Definition start_failed (w : World) : World :=
  match awaiting w with
  | O => w
  | S n => mkWorld (eng w) (timers w) (nextTimer w) n (results w ++ [Rejected])
  end.

Definition stop (w : World) : World :=
  if running (eng w)
  then
    let e := set_running false (eng w) in
    let ts := match _int e with
              | Some id => clearInterval id (timers w)
              | None => timers w
              end in
    mkWorld e ts (nextTimer w) (awaiting w) (results w)
  else w.

(** The timer callback [tick = () => this.scheduler()] of a timer that is
    installed; a handle that is not installed does not fire. *)
Definition tick (fuel : nat) (id : nat) (cur : Q) (w : World) : option World :=
  if existsb (Nat.eqb id) (timers w)
  then match scheduler fuel cur (eng w) with
       | None => None
       | Some (_, e) =>
           Some (mkWorld e (timers w) (nextTimer w) (awaiting w) (results w))
       end
  else Some w.

Definition step (fuel : nat) (ev : Event) (w : World) : option World :=
  match ev with
  | CallStart => Some (start w)
  | ResumeFulfilled cur => Some (start_resumed cur w)
  | ResumeRejected => Some (start_failed w)
  | CallStop => Some (stop w)
  | TimerFires id cur => tick fuel id cur w
  | CallUpdateControls c cur => Some (on_engine (updateControls c cur) w)
  | CallSetSeed seed => Some (on_engine (setSeed seed) w)
  | CallSetVolume v => Some (on_engine (setVolume v) w)
  end.

Fixpoint run (fuel : nat) (evs : list Event) (w : World) : option World :=
  match evs with
  | [] => Some w
  | ev :: rest =>
      match step fuel ev w with
      | None => None
      | Some w' => run fuel rest w'
      end
  end.

(** A page that has just built its engine. *)
Definition newWorld (seed : jsstring) : World :=
  mkWorld (newEngine seed) [] 1 0 [].

Definition triggers (e : Engine) : list Call := filter is_trigger (trace e).

(** A measure of patterns that adds up over concatenation: the length and
    the number of onsets are the two used below. *)
Definition additive (w : list Z -> Z) : Prop :=
  w [] = 0 /\ forall a b, w (a ++ b) = w a + w b.

Definition len (p : list Z) : Z := Z.of_nat (length p).

(** A pattern turned left by [r] steps. *)
Definition rotl {A} (r : nat) (p : list A) : list A := skipn r p ++ firstn r p.

(** ** The pattern invariant *)

Definition density_ok (density length : Z) : Prop := 0 <= density <= length.

(** Claps are laid over the snare's cycle: [euclid(this.denClaps, this.Ls,
    1)]. *)
Definition pattern_invariant (e : Engine) : Prop :=
  density_ok (denKick e) (Lk e) /\ density_ok (denSnare e) (Ls e)
  /\ density_ok (denHat e) (Lh e) /\ density_ok (denClaps e) (Ls e)
  /\ density_ok (denBass e) (Lb e) /\ density_ok (denArp e) (La e).

(** A run of [updateControls] calls, each with its control vector and the
    clock reading of the moment. *)
Definition updateAll (cs : list (AudioControls * Q)) (e : Engine) : Engine :=
  fold_left (fun e c => updateControls (fst c) (snd c) e) cs e.

(** What [setSeed] establishes and [updateControls] keeps. *)
Definition seeded (e : Engine) : Prop :=
  In (Lk e) [13; 15; 17; 19] /\ In (Ls e) [12; 14; 16]
  /\ In (Lh e) [13; 15; 17; 19] /\ In (La e) [10; 11; 14; 18]
  /\ In (Lb e) [13; 15; 17; 19] /\ Lp e = 16
  /\ 4 <= denKick e <= 7 /\ 3 <= denSnare e <= 8 /\ 8 <= denHat e <= 16
  /\ 5 <= denArp e <= 10 /\ 4 <= denBass e <= 8 /\ 2 <= denClaps e <= 4
  /\ In (scale e) SCALES /\ 32 <= baseNote e <= 39.

(** ** Footprints *)

(** A computation that returns, and writes at most the generator and the
    trace, to which it only appends. *)
Definition voiced {A} (m : M A) : Prop :=
  forall e, exists a g tr,
    m e = Some (a, set_rng g (set_trace (trace e ++ tr) e)).

(** Every pattern [scheduleStep] asks for has an onset: the six [euclid]
    calls return. *)
Definition playable (e : Engine) : Prop :=
  1 <= Z.min (denKick e) (Lk e) /\ 1 <= Z.min (denSnare e) (Ls e)
  /\ 1 <= Z.min (denHat e) (Lh e) /\ 1 <= Z.min (denClaps e) (Ls e)
  /\ 1 <= Z.min (denBass e) (Lb e) /\ 1 <= Z.min (denArp e) (La e).

(** ** The ten-second scenario *)

(** The instant of step [i] when the transport was started at [t0] and the
    tempo is 120: 0.05 s after the start, then an eighth of a second per
    step. *)
Definition grid_time (t0 : Q) (i : nat) : Q :=
  (t0 + 0.05 + inject_Z (Z.of_nat i) * 0.125)%Q.

(** The engine has scheduled the steps [0 .. s-1] of that grid and nothing
    else, at tempo 120 without swing. *)
Definition on_grid (t0 : Q) (e : Engine) (s : nat) : Prop :=
  bpm e = 120%Q /\ swing e = 0%Q /\ scheduleAheadTime e = 0.15%Q
  /\ playable e
  /\ beat e = Z.of_nat s
  /\ (nextNoteTime e == grid_time t0 s)%Q
  /\ Forall2 (fun st i => fst st = Z.of_nat i /\ (snd st == grid_time t0 i)%Q)
       (steps e) (seq 0 s).

(** How many logged steps have a timestamp before [t]. *)
Definition due_before (t : Q) (e : Engine) : nat :=
  length (filter (fun st => Qltb (snd st) t) (steps e)).

(** The page of the scenario: an engine at 120 beats per minute, [start()],
    the resume fulfilled at clock reading [t0], then timer ticks at the
    clock readings [ticks]. *)
Definition at_120 (seed : jsstring) : World :=
  on_engine (set_bpm 120) (newWorld seed).

Definition ten_seconds (t0 : Q) (ticks : list Q) : list Event :=
  [CallStart; ResumeFulfilled t0] ++ map (TimerFires 1) ticks
  ++ [TimerFires 1 (t0 + 10)%Q].

(** Ticks every 25 ms, as [setInterval(tick, this.lookahead*1000)] asks
    for. *)
Definition every_25ms (n : nat) : list Q :=
  map (fun j => (inject_Z (Z.of_nat j) * 0.025)%Q) (seq 1 n).

(** The number of [scheduleStep] calls after a run of events. *)
Definition steps_after (fuel : nat) (evs : list Event) (w : World) : option nat :=
  option_map (fun w' => length (steps (eng w'))) (run fuel evs w).

(** [start()], the resume fulfilled at clock reading 0, and 400 ticks, the
    last at clock reading 10. *)
Definition first_ten_seconds : list Event :=
  [CallStart; ResumeFulfilled 0] ++ map (TimerFires 1) (every_25ms 400).

(** ** Stopping *)

(** No [start] call is suspended at its [await], and every installed timer
    is the one the field [_int] holds, in an engine flagged as running. *)
Definition settled (w : World) : Prop :=
  awaiting w = 0%nat
  /\ forall t, In t (timers w) -> running (eng w) = true /\ _int (eng w) = Some t.

Definition not_start (ev : Event) : Prop :=
  match ev with
  | CallStart => False
  | _ => True
  end.

(** A computation that, when it returns, has written at most the generator
    and the trace, to which it has only appended. *)
Definition framed {A} (m : M A) : Prop :=
  forall e a e', m e = Some (a, e') ->
    exists g tr, e' = set_rng g (set_trace (trace e ++ tr) e).

(** The page awaits nothing between a [start()] and the settling of its
    resume: every [CallStart] is directly followed by the outcome of the
    resume. *)
Fixpoint serial (evs : list Event) : Prop :=
  match evs with
  | [] => True
  | CallStart :: rest =>
      match rest with
      | ResumeFulfilled _ :: rest' => serial rest'
      | ResumeRejected :: rest' => serial rest'
      | _ => False
      end
  | _ :: rest => serial rest
  end.

(** ** Further observations on patterns *)

Definition starts_with (x : Z) (p : list Z) : Prop := exists t, p = x :: t.

(** Every gap of [euclid(k, n, 0)] is [n / k] rounded down or up, and there
    are [k] of them. *)
Definition even_gaps (k n : Z) : bool :=
  match euclid k n 0 with
  | None => false
  | Some p =>
      forallb (fun g => (g =? n / k) || (g =? (n + k - 1) / k)) (gaps p)
      && (len (gaps p) =? k)
  end.

Definition even_gaps_upto (N : nat) : bool :=
  forallb (fun n => forallb (fun k => even_gaps (Z.of_nat k) (Z.of_nat n)) (seq 1 n))
    (seq 1 N).

(** ** Further observations on seeding *)

(** [Math.floor(v * m)] for the value [v] of call number [i] of a generator. *)
Definition call_int (g : Sfc) (i : nat) (m : Z) : Z :=
  Qfloor (sfc_call g i * inject_Z m).

(** ** Further observations on scheduling *)

(** [e'] has the configuration of [e]: everything but the generator, the
    cursor, the step counter and the two logs. *)
Definition same_config (e e' : Engine) : Prop :=
  running e' = running e /\ lookahead e' = lookahead e
  /\ scheduleAheadTime e' = scheduleAheadTime e
  /\ bpm e' = bpm e /\ swing e' = swing e /\ vol e' = vol e
  /\ Lk e' = Lk e /\ Ls e' = Ls e /\ Lh e' = Lh e /\ La e' = La e
  /\ Lb e' = Lb e /\ Lp e' = Lp e
  /\ denKick e' = denKick e /\ denSnare e' = denSnare e
  /\ denHat e' = denHat e /\ denArp e' = denArp e
  /\ denBass e' = denBass e /\ denClaps e' = denClaps e
  /\ baseNote e' = baseNote e /\ scale e' = scale e /\ _int e' = _int e.

(** The instant [scheduler] gives the step with counter [b] when the
    cursor is at [nn]: [t = this.nextNoteTime; t += step16]. *)
Definition stamp (swing secPerBeat nn : Q) (b : Z) : Q :=
  (nn + (if Z.rem b 2 =? 1 then swing * secPerBeat * 0.5 else 0))%Q.

(** The steps a tick adds when it starts with counter [b0] and cursor
    [nn0]: consecutive counters modulo 4096, a sixteenth note apart. *)
Definition tick_steps (swing secPerBeat nn0 : Q) (b0 : Z)
           (new : list (Z * Q)) (m : nat) : Prop :=
  Forall2 (fun st i =>
             fst st = (b0 + Z.of_nat i) mod 4096
             /\ (snd st ==
                 stamp swing secPerBeat
                   (nn0 + inject_Z (Z.of_nat i) * (0.25 * secPerBeat))
                   ((b0 + Z.of_nat i) mod 4096))%Q)
          new (seq 0 m).

(** The tempo and the swing stay where [updateControls] steers them: the
    field initialisers (110 and 0) and both clamps are inside. *)
Definition tempo_ok (e : Engine) : Prop :=
  (70 <= bpm e <= 180)%Q /\ (-0.15 <= swing e <= 0.15)%Q.

(** What every engine the class reaches satisfies. *)
Definition steady (e : Engine) : Prop :=
  seeded e /\ tempo_ok e /\ 0 <= beat e < 4096.

(** The instants of a list of logged steps. *)
Definition instants (l : list (Z * Q)) : list Q := map snd l.



(** ** Further observations on a scheduled step *)

(** The voices in the order [scheduleStep] goes through them. *)
Definition rank (c : Call) : nat :=
  match c with
  | SetTargetAtTime _ _ _ _ => 0
  | TrigKick _ _ => 1
  | TrigSnare _ _ => 2
  | TrigHat _ _ => 3
  | TrigClap _ _ => 4
  | TrigFMBass _ _ _ => 5
  | TrigArp _ _ _ => 6
  | TrigPad _ _ _ => 7
  end.

(** [euclid(k, n, rot)[i]], false when the call does not return. *)
Definition onset (k n rot i : Z) : bool :=
  match euclid k n rot with
  | Some p => negb (nth (Z.to_nat i) p 0 =? 0)
  | None => false
  end.

(** What [scheduleStep(beat, time)] may hand to the backend on engine
    [e]. *)
Definition step_call (e : Engine) (beat : Z) (time : Q) (c : Call) : Prop :=
  match c with
  | SetTargetAtTime _ _ _ _ => False
  | TrigKick t amp =>
      t = time /\ (0.9 <= amp)%Q /\ (amp < 1.1)%Q
      /\ onset (denKick e) (Lk e) 0 (Z.rem beat (Lk e)) = true
  | TrigSnare t freq =>
      t = time /\ (1800 <= freq)%Q /\ (freq < 2600)%Q
      /\ onset (denSnare e) (Ls e) 3 (Z.rem beat (Ls e)) = true
  | TrigHat t amp =>
      t = time /\ (0.25 <= amp)%Q /\ (amp < 0.35)%Q
      /\ onset (denHat e) (Lh e) 2 (Z.rem beat (Lh e)) = true
  | TrigClap t amp =>
      t = (time + 0.002)%Q /\ amp = 0.18%Q
      /\ onset (denClaps e) (Ls e) 1 (Z.rem beat (Ls e)) = true
  | TrigFMBass t note amp =>
      t = time /\ amp = 0.35%Q
      /\ onset (denBass e) (Lb e) 0 (Z.rem beat (Lb e)) = true
      /\ exists deg, In deg (scale e)
           /\ (note = baseNote e + deg \/ note = baseNote e + deg + 12)
  | TrigArp t note amp =>
      t = time /\ amp = 0.18%Q
      /\ onset (denArp e) (La e) 0 (Z.rem beat (La e)) = true
      /\ exists deg, In deg (scale e)
           /\ (note = baseNote e + 12 + deg
               \/ note = baseNote e + 12 + deg + 12)
  | TrigPad t note amp =>
      t = time /\ (0.5 <= amp)%Q /\ (amp < 0.7)%Q
      /\ Z.rem (Z.rem beat (Lp e)) 8 = 0
      /\ exists deg, In deg (scale e) /\ note = baseNote e + 24 + deg
  end.

(** A computation that returns, writes at most the generator and the
    trace, and whose result and appended calls satisfy [P]. *)
Definition emits {A} (P : A -> list Call -> Prop) (m : M A) : Prop :=
  forall e, exists a g tr,
    m e = Some (a, set_rng g (set_trace (trace e ++ tr) e)) /\ P a tr.

(** Calls in the order of the voices, none twice, none before voice
    [lo], each satisfying [ok]. *)
Definition in_order (ok : Call -> Prop) (lo : nat) (tr : list Call) : Prop :=
  StronglySorted lt (map rank tr)
  /\ Forall (fun c => (lo <= rank c)%nat /\ ok c) tr.

Definition one_call (ok : Call -> Prop) (r : nat) (tr : list Call) : Prop :=
  exists c, tr = [c] /\ rank c = r /\ ok c.

Definition at_most_one (ok : Call -> Prop) (r : nat) (tr : list Call) : Prop :=
  tr = [] \/ one_call ok r tr.

(** The note numbers handed to [mtof] stay between 32 and 74. *)
Definition note_range (c : Call) : Prop :=
  match c with
  | TrigFMBass _ note _ => 32 <= note <= 62
  | TrigArp _ note _ => 44 <= note <= 74
  | TrigPad _ note _ => 56 <= note <= 74
  | _ => True
  end.

(** ** The hue bias of [setTraits] *)

Local Open Scope Q_scope.

(** [x % y] on numbers: the remainder of the division truncated toward
    zero. *)
Definition fmod (x y : Q) : Q :=
  x - y * inject_Z (Z.quot (Qnum (x / y)) (Zpos (Qden (x / y)))).

(** The arithmetic of [hexToHue], from the three channels on: [r], [g],
    [b] are [parseInt(.., 16) / 255] of the three digit pairs of the
    colour. *)
Definition hueOf (r g b : Q) : Q :=
  let maxv := Qmax (Qmax r g) b in
  let minv := Qmin (Qmin r g) b in
  let d := maxv - minv in
  let H :=
    if Qeq_bool d 0 then 0
    else if Qeq_bool maxv r then fmod ((g - b) / d) 6
    else if Qeq_bool maxv g then (b - r) / d + 2
    else (r - g) / d + 4 in
  let H := H / 6 in
  if Qltb H 0 then H + 1 else H.

(** What [setTraits] writes: the reverb send's gain and the delay time.
    [first] is the first colour of the palette, as channels, if there is
    one. *)
Definition setTraits (first : option (Q * Q * Q)) : Q * Q :=
  let hueBias :=
    match first with
    | Some (r, g, b) => hueOf r g b
    | None => 0.5
    end in
  (lerp 0.12 0.28 hueBias, lerp 0.18 0.38 (1.0 - hueBias)).

Local Close Scope Q_scope.

(** * The page component

    The second source file, the React component that hosts the artwork:
    its seeded traits, the temporal gate of its render loop and the camera
    signals that feed it. The generator is the one modelled above (the
    file carries its own, identical, copy of [cyrb128], [sfc32] and
    [makeRng]). Names are byte strings, as the file stores them. *)

Definition PALETTES : list (list string) :=
  [ ["#0f0c29"; "#302b63"; "#24243e"; "#b5ffd9"; "#ffcc70"];
    ["#0b132b"; "#1c2541"; "#3a506b"; "#5bc0be"; "#c6f1e7"];
    ["#1b1b1b"; "#2d3436"; "#636e72"; "#ffeaa7"; "#ff7675"];
    ["#0b0f1a"; "#132a13"; "#3e6259"; "#a1cca5"; "#e9ff70"];
    ["#14080e"; "#494850"; "#799496"; "#acc196"; "#e9eb9e"];
    ["#0a0a0a"; "#1f1f1f"; "#3c3c3c"; "#d90429"; "#ffba08"] ]%string.

(** [{ key, name }] entries, in the order of the source. *)
Definition ALGORITHMS : list (Z * string) :=
  [ (0, "Nebula Flow"); (1, "Crystal Lattice"); (2, "Ink Blot");
    (3, "Marble Rings"); (4, "Moire Waves"); (5, "Checker Warp");
    (6, "Truchet Tiles"); (7, "Tri Grid"); (8, "Galaxy Swirl");
    (9, "Curl Fog"); (10, "Lava Flow"); (11, "Glacier"); (12, "Plasma");
    (13, "Sunburst"); (14, "City Circuit"); (15, "Weave"); (16, "Bloom Orbs");
    (17, "Ripples"); (18, "Zebra Flow"); (19, "Smoke"); (20, "Crystal Shards");
    (21, "Cell Outlines"); (22, "Kaleidoscope"); (23, "Tiled Perlin");
    (24, "Ridged Noise"); (25, "Wood Grain"); (26, "Aurora");
    (27, "Digital Rain"); (28, "Cross Waves"); (29, "Organic Net");
    (30, "Contours"); (31, "Embers"); (32, "Vortex Grid"); (33, "Hex Flux");
    (34, "Amber Hive"); (35, "Crystal Honey"); (36, "Hex Drift");
    (37, "Pulse Hive"); (38, "Polar Bloom"); (39, "Solar Petals");
    (40, "Radial Lace"); (41, "Petal Mirage"); (42, "Iris Spinner");
    (43, "Warped Stripes"); (44, "Slalom"); (45, "Banded Silk");
    (46, "Ribbon Field"); (47, "Taffy Lines"); (48, "Voronoi Sparks");
    (49, "Crackle Edge"); (50, "Broken Glass"); (51, "Lightning Cells");
    (52, "Pulse Cracks"); (53, "Orb Rings"); (54, "Harmonic Halo");
    (55, "Echo Circles"); (56, "Pulse Rings"); (57, "Chorus Halo");
    (58, "Rotogrid"); (59, "Offset Weave"); (60, "Tilted Lattice");
    (61, "Orbital Grid"); (62, "Cranked Weave"); (63, "Flow Field");
    (64, "Advection Mist"); (65, "Vector Drift"); (66, "Stream Lines");
    (67, "Whorl Fog"); (68, "Checker Melt"); (69, "Drip Board");
    (70, "Melted Tiles"); (71, "Smear Grid"); (72, "Soft Check");
    (73, "Ridge Mountain"); (74, "Blade Ridges"); (75, "Quartz Ridge");
    (76, "Sawback"); (77, "Opal Rims"); (78, "Turbulence"); (79, "Haze Storm");
    (80, "Boil Field"); (81, "Vapor Flux"); (82, "Dust Surge");
    (83, "Curl Stream"); (84, "Kármán Trails"); (85, "Vortex Sheets");
    (86, "Wake Curl"); (87, "Spiral Drift"); (88, "Lissajous Net");
    (89, "Phase Weave"); (90, "Chirp Cross"); (91, "Beat Grid");
    (92, "Interfere"); (93, "Spiral Garden"); (94, "Golden Coil");
    (95, "Log Spiral"); (96, "Fountain Arms"); (97, "Whirlpool Arch");
    (98, "Tri Bands"); (99, "Prism Tile"); (100, "Facet Mesh");
    (101, "Delta Quilt"); (102, "Trident Weave"); (103, "Dot Matrix");
    (104, "Bokeh Field"); (105, "Halftone"); (106, "Spray Dots");
    (107, "Pearl Scatter"); (108, "Scanlines"); (109, "CRT Warp");
    (110, "Interlace"); (111, "Sync Sweep"); (112, "Raster Flow");
    (113, "Metaballs"); (114, "Liquid Nodes"); (115, "Gel Blobs");
    (116, "Droplet Web"); (117, "Plasma Beads"); (118, "Cross Weave");
    (119, "Basket Warp"); (120, "Loom Drift"); (121, "Wicker Flux");
    (122, "Twill Waves"); (123, "Supershape Ring"); (124, "Star Bloom");
    (125, "Petal Super"); (126, "Orb Super"); (127, "Blade Super");
    (128, "Hex Mosaic"); (129, "Honey Tiles"); (130, "Bee Net");
    (131, "Cell Carpet"); (132, "Wax Weave") ]%string.

(** The fields of [Traits] that are drawn ([edition] and [seed] are copied
    from the state); [tscale] is the field [scale]. *)
Record Traits := mkTraits {
  algorithm : string; palette : list string;
  warp : Q; grain : Q; tscale : Q; speed : Q }.

(** [ALGORITHMS[i].name] *)
Definition algo_name (i : Z) : string :=
  snd (nth (Z.to_nat i) ALGORITHMS (0, EmptyString)).

(** The body of the [traits] memo. [g] is the state of the generator
    [rng], which is memoised on the seed alone: a recomputation for a new
    edition goes on with the same generator. *)
Definition traits (g : Sfc) : Traits * Sfc :=
  let '(v, g) := sfc_next g in
  let algoIdx := Qfloor (v * inject_Z (Z.of_nat (length ALGORITHMS))) in
  let '(v, g) := sfc_next g in
  let palIdx := Qfloor (v * inject_Z (Z.of_nat (length PALETTES))) in
  let palHex := nth (Z.to_nat palIdx) PALETTES [] in
  let '(w, g) := sfc_next g in
  let '(gr, g) := sfc_next g in
  let '(sc, g) := sfc_next g in
  let '(sp, g) := sfc_next g in
  (mkTraits (algo_name algoIdx) palHex
     (0.25 + w * 0.85)%Q (0.02 + gr * 0.08)%Q (1.0 + sc * 3.5)%Q
     (0.3 + sp * 1.2)%Q, g).

(** The traits after [j] recomputations of the memo since the seed was
    set (every mint raises the edition, which recomputes it). *)
Fixpoint traits_after (j : nat) (g : Sfc) : Traits * Sfc :=
  match j with
  | O => traits g
  | S j' => traits (snd (traits_after j' g))
  end.

(** [Array.prototype.findIndex] *)
Fixpoint findIndex_from {A} (p : A -> bool) (i : Z) (l : list A) : Z :=
  match l with
  | [] => -1
  | x :: r => if p x then i else findIndex_from p (i + 1) r
  end.

Definition findIndex {A} (p : A -> bool) (l : list A) : Z := findIndex_from p 0 l.

(** The shader's mode: [ALGORITHMS.findIndex(a => a.name === traits.algorithm)]. *)
Definition uMode (t : Traits) : Z :=
  findIndex (fun a => String.eqb (snd a) (algorithm t)) ALGORITHMS.

Definition mode_round_trip (i : nat) : bool :=
  (findIndex (fun a => String.eqb (snd a) (algo_name (Z.of_nat i))) ALGORITHMS
   =? Z.of_nat i)
  && (fst (nth i ALGORITHMS (0, EmptyString)) =? Z.of_nat i).

(** ** The temporal gate of the render loop *)

Inductive GateMode := ModeNone | ModeFx | ModeFy | ModeApproach | ModeActivity.

(** [camSig.current] *)
Record CamSig := mkCamSig {
  camFx : Q; camFy : Q; camApproach : Q; camActivity : Q }.

(** [gate.current] *)
Record Gate := mkGate {
  accX : Q; accY : Q; accAppr : Q; accAct : Q; gmode : GateMode; hold : Q }.

(** [effSig.current] *)
Record Vec4 := mkVec4 { vx : Q; vy : Q; vz : Q; vw : Q }.

Local Open Scope Q_scope.

Definition commitSec : Q := 3.
Definition releaseHold : Q := 1.2.
Definition th_fx : Q := 0.25.
Definition th_fy : Q := 0.25.
Definition th_appr : Q := 0.2.
Definition th_act : Q := 0.35.

(** One accumulator: up by [dt] while its signal is above the threshold,
    capped at [commitSec + 1]; down by [dt] otherwise, floored at 0. *)
Definition accumulate (above : bool) (acc dt : Q) : Q :=
  if above then Qmin (acc + dt) (commitSec + 1) else Qmax (acc - dt) 0.

(** [vals.sort((a,b) => b.v - a.v)]: descending, and stable as the
    language requires. *)
Fixpoint insert_desc (x : GateMode * Q) (l : list (GateMode * Q))
  : list (GateMode * Q) :=
  match l with
  | [] => [x]
  | y :: r => if Qltb (snd y) (snd x) then x :: l else y :: insert_desc x r
  end.

Definition sort_desc (l : list (GateMode * Q)) : list (GateMode * Q) :=
  fold_left (fun acc x => insert_desc x acc) l [].

Definition is_none (m : GateMode) : bool :=
  match m with ModeNone => true | _ => false end.

(** The gate part of the render loop's [tick]; [dt] is the time since the
    last frame, in seconds. *)
Definition gate_tick (dt : Q) (s : CamSig) (g : Gate) : Gate :=
  let aX := accumulate (Qltb th_fx (Qabs (camFx s))) (accX g) dt in
  let aY := accumulate (Qltb th_fy (Qabs (camFy s))) (accY g) dt in
  let aAppr := accumulate (Qltb th_appr (Qabs (camApproach s))) (accAppr g) dt in
  let aAct := accumulate (Qltb th_act (Qabs (camActivity s))) (accAct g) dt in
  if is_none (gmode g) then
    let vals := sort_desc [ (ModeFx, aX); (ModeFy, aY); (ModeApproach, aAppr);
                            (ModeActivity, aAct) ] in
    match vals with
    | (k, v) :: _ =>
        if Qle_bool commitSec v
        then mkGate aX aY aAppr aAct k releaseHold
        else mkGate aX aY aAppr aAct (gmode g) (hold g)
    | [] => mkGate aX aY aAppr aAct (gmode g) (hold g)
    end
  else
    let h := Qmax 0 (hold g - dt) in
    let under := Qltb aX th_fx && Qltb aY th_fy && Qltb aAppr th_appr
                 && Qltb aAct th_act in
    if under && Qeq_bool h 0
    then mkGate aX aY aAppr aAct ModeNone h
    else mkGate aX aY aAppr aAct (gmode g) h.

(** The local [lerp] of the render loop, which clamps its weight. *)
Definition lerp_k (a b k : Q) : Q := a + (b - a) * Qmin (Qmax k 0) 1.

Definition weight (m on : GateMode) : Q :=
  match m, on with
  | ModeFx, ModeFx | ModeFy, ModeFy | ModeApproach, ModeApproach
  | ModeActivity, ModeActivity => 1.0
  | _, _ => 0.2
  end.

(** The base signal mixed with the gated emphasis, smoothed into
    [effSig]. *)
Definition mix (s : CamSig) (m : GateMode) (eff : Vec4) : Vec4 :=
  let gx := weight m ModeFx * camFx s in
  let gy := weight m ModeFy * camFy s in
  let ga := weight m ModeApproach * camApproach s in
  let gact := weight m ModeActivity * camActivity s in
  mkVec4 (lerp_k (vx eff) gx 0.15) (lerp_k (vy eff) gy 0.15)
         (lerp_k (vz eff) ga 0.12) (lerp_k (vw eff) gact 0.12).

(** ** The camera signals *)

(** The sums the motion estimator takes over one frame difference; [mSum]
    is the local [sum]. *)
Record Motion := mkMotion {
  mSum : Q; sumX : Q; sumY : Q; cSum : Q; eSum : Q }.

Definition smooth (a b k : Q) : Q := a * (1 - k) + b * k.

Definition FLOW_GAIN : Q := 2.5.
Definition APPROACH_GAIN : Q := 1.6.

(** The update of [camSig] and of the previous centroid at the end of
    the estimator's [tick]; nothing changes when there was no motion. *)
Definition cam_update (m : Motion) (st : CamSig * (Q * Q)) : CamSig * (Q * Q) :=
  let '(s, (prevCx, prevCy)) := st in
  if Qltb (1 # 1000000) (mSum m) then
    let cx := sumX m / mSum m in
    let cy := sumY m / mSum m in
    let fx := Qmax (-1) (Qmin 1 ((cx - prevCx) * 6.0 * FLOW_GAIN)) in
    let fy := Qmax (-1) (Qmin 1 ((cy - prevCy) * 6.0 * FLOW_GAIN)) in
    let activity := Qmax 0 (Qmin 1 (mSum m / (96 * 72 * 0.06))) in
    let approach :=
      ((cSum m - eSum m) / (cSum m + eSum m + (1 # 100000))) * APPROACH_GAIN in
    (mkCamSig (smooth (camFx s) fx 0.25) (smooth (camFy s) fy 0.25)
              (smooth (camApproach s) approach 0.15)
              (smooth (camActivity s) activity 0.2),
     (cx, cy))
  else st.

(** ** The page's two loops together *)

Inductive PageEvent :=
| Frame (dt : Q)
| CameraFrame (m : Motion).

Record Page := mkPage {
  camSig : CamSig; centroid : Q * Q; gateState : Gate; effSig : Vec4 }.

Definition page0 : Page :=
  mkPage (mkCamSig 0 0 0 0) (0.5, 0.5) (mkGate 0 0 0 0 ModeNone 0)
         (mkVec4 0 0 0 0).

Definition page_step (ev : PageEvent) (p : Page) : Page :=
  match ev with
  | Frame dt =>
      let g := gate_tick dt (camSig p) (gateState p) in
      mkPage (camSig p) (centroid p) g (mix (camSig p) (gmode g) (effSig p))
  | CameraFrame m =>
      let '(s, c) := cam_update m (camSig p, centroid p) in
      mkPage s c (gateState p) (effSig p)
  end.

Definition page_run (evs : list PageEvent) (p : Page) : Page :=
  fold_left (fun p ev => page_step ev p) evs p.

(** The time the render loop has seen. *)
Definition elapsed (evs : list PageEvent) : Q :=
  fold_right (fun ev t => match ev with Frame dt => dt + t | _ => t end) 0 evs.

(** Frames do not go back in time, and the estimator's sums are sums of
    non-negative differences. *)
Definition well_timed (ev : PageEvent) : Prop :=
  match ev with
  | Frame dt => 0 <= dt
  | CameraFrame m => 0 <= cSum m /\ 0 <= eSum m
  end.

Definition acc_of (m : GateMode) (g : Gate) : Q :=
  match m with
  | ModeNone => 0
  | ModeFx => accX g
  | ModeFy => accY g
  | ModeApproach => accAppr g
  | ModeActivity => accAct g
  end.

Definition under (g : Gate) : Prop :=
  accX g < th_fx /\ accY g < th_fy /\ accAppr g < th_appr /\ accAct g < th_act.

Local Close Scope Q_scope.

(** What the page keeps true of its signals and of its gate, [T] being
    the time the render loop has seen. *)
Definition sig_ok (s : CamSig) : Prop :=
  (-1 <= camFx s <= 1 /\ -1 <= camFy s <= 1
   /\ -1.6 <= camApproach s <= 1.6 /\ 0 <= camActivity s <= 1)%Q.

Definition eff_ok (v : Vec4) : Prop :=
  (-1 <= vx v <= 1 /\ -1 <= vy v <= 1 /\ -1.6 <= vz v <= 1.6
   /\ 0 <= vw v <= 1)%Q.

Definition acc_ok (T a : Q) : Prop := (0 <= a <= 4 /\ a <= T)%Q.

Definition gate_ok (T : Q) (g : Gate) : Prop :=
  acc_ok T (accX g) /\ acc_ok T (accY g) /\ acc_ok T (accAppr g)
  /\ acc_ok T (accAct g)
  /\ (0 <= hold g <= 1.2)%Q
  /\ (gmode g <> ModeNone ->
      (3 <= T)%Q
      /\ ((hold g == 0)%Q \/ (1.8 <= acc_of (gmode g) g - hold g)%Q)).

Definition page_ok (T : Q) (p : Page) : Prop :=
  sig_ok (camSig p) /\ eff_ok (effSig p) /\ gate_ok T (gateState p).

(** ** The engine's use with control vectors of any numbers *)




(** * Properties *)

(** ** 32-bit operators *)

Lemma toUint32_range x : 0 <= JS.toUint32 x < JS.two32.
Proof. unfold JS.toUint32, JS.two32. apply Z.mod_pos_bound. lia. Qed.

Lemma ushr0_range x : 0 <= JS.ushr x 0 < JS.two32.
Proof.
  unfold JS.ushr. change (0 mod 32) with 0. rewrite Z.shiftr_0_r.
  apply toUint32_range.
Qed.

(** ** The generator *)

Lemma sfc_next_range (g : Sfc) : (0 <= fst (sfc_next g) < 1)%Q.
Proof.
  unfold sfc_next; cbn [fst].
  match goal with
  | |- (0 <= JS.ushr ?t 0 # _ < 1)%Q => pose proof (ushr0_range t) as Ht
  end.
  unfold JS.two32 in Ht. unfold Qle, Qlt; cbn [Qnum Qden]. lia.
Qed.

Lemma sfc_call_range (g : Sfc) (n : nat) : (0 <= sfc_call g n < 1)%Q.
Proof. unfold sfc_call. apply sfc_next_range. Qed.

Lemma sfc_call_S (g : Sfc) (n : nat) :
  sfc_call g (S n) = sfc_call (snd (sfc_next g)) n.
Proof. reflexivity. Qed.

Lemma sfc_stream_calls (n : nat) : forall g,
  sfc_stream n g = map (sfc_call g) (seq 0 n).
Proof.
  induction n as [|n IH]; intro g; [reflexivity|].
  cbn [sfc_stream seq map]. f_equal.
  rewrite IH, <- seq_shift, map_map. apply map_ext.
  intro i. symmetry. apply sfc_call_S.
Qed.

Lemma interleave_streams (sched : list Which) : forall g1 g2,
  interleave sched g1 g2 =
  (sfc_stream (calls_of First sched) g1, sfc_stream (calls_of Second sched) g2).
Proof.
  induction sched as [|w rest IH]; intros g1 g2; [reflexivity|].
  destruct w; cbn [interleave].
  - destruct (sfc_next g1) as [v g1'] eqn:E. rewrite IH.
    unfold calls_of; cbn [filter length sfc_stream]. rewrite E. reflexivity.
  - destruct (sfc_next g2) as [v g2'] eqn:E. rewrite IH.
    unfold calls_of; cbn [filter length sfc_stream]. rewrite E. reflexivity.
Qed.

(** C1. For every seed string, the empty one included, the generator is a
    function of the seed and the call index: two generators made from the
    same seed, called in any interleaving, each return at their call number
    [i] the value [sfc_call (makeRng seed) i]; and every value returned lies
    in [0, 1). *)
Theorem makeRng_deterministic_in_range :
  forall (seed : jsstring) (sched : list Which) (N : nat),
    fst (interleave sched (makeRng seed) (makeRng seed))
      = map (sfc_call (makeRng seed)) (seq 0 (calls_of First sched))
    /\ snd (interleave sched (makeRng seed) (makeRng seed))
      = map (sfc_call (makeRng seed)) (seq 0 (calls_of Second sched))
    /\ (0 <= sfc_call (makeRng seed) N < 1)%Q.
Proof.
  intros seed sched N. rewrite interleave_streams. cbn [fst snd].
  rewrite !sfc_stream_calls. repeat split; apply sfc_call_range.
Qed.

(** ** Euclidean rhythms: the loop does not end when no onset is asked for *)

Lemma js_rem_NaN (a : num) : js_rem a NaN = NaN.
Proof. destruct a; reflexivity. Qed.

Lemma nth_last_pushed {A} (l : list A) (x d : A) (i : nat) :
  length l = i -> nth i (l ++ [x]) d = x.
Proof. intros <-. rewrite nth_middle. reflexivity. Qed.

Lemma nth_before_pushed {A} (l t : list A) (d : A) (i : nat) :
  (i < length l)%nat -> nth i (l ++ t) d = nth i l d.
Proof. intro H. apply app_nth1. exact H. Qed.

(** Once the remainder in hand is NaN, every later one is, and [NaN <= 1]
    is false: the loop cannot leave. *)
Lemma bj_loop_NaN (fuel : nat) : forall counts remainders divisor level,
  length remainders = S level ->
  nth level remainders NaN = NaN ->
  bj_loop fuel counts remainders divisor level = None.
Proof.
  induction fuel as [|fuel IH]; intros counts remainders divisor level Hlen Hr;
    [reflexivity|].
  cbn [bj_loop]. rewrite Hr, js_rem_NaN.
  rewrite (nth_last_pushed remainders NaN NaN (S level) Hlen). cbn [le_one].
  apply IH.
  - rewrite length_app, Hlen. cbn. lia.
  - apply nth_last_pushed. exact Hlen.
Qed.

Lemma bj_loop_zero (fuel : nat) (d : Z) :
  bj_loop fuel [] [Int 0] (Int d) 0 = None.
Proof.
  destruct fuel as [|fuel]; [reflexivity|].
  cbn [bj_loop nth app]. cbn [js_rem Z.eqb le_one].
  apply bj_loop_NaN; reflexivity.
Qed.

Lemma euclid_fuel_no_onsets (fuel : nat) (k n rot : Z) :
  Z.min k n <= 0 -> euclid_fuel fuel k n rot = None.
Proof.
  intro H. unfold euclid_fuel.
  replace (Z.max 0 (Z.min k n)) with 0 by lia.
  rewrite bj_loop_zero. reflexivity.
Qed.

(** ** Euclidean rhythms: with at least one onset the loop ends *)

Lemma bj_loop_more (fuel : nat) : forall counts remainders divisor level out,
  bj_loop fuel counts remainders divisor level = Some out ->
  forall extra,
    bj_loop (fuel + extra) counts remainders divisor level = Some out.
Proof.
  induction fuel as [|fuel IH]; intros counts remainders divisor level out H extra;
    [discriminate|].
  cbn [bj_loop Nat.add] in *.
  destruct (le_one _); [exact H|]. apply IH. exact H.
Qed.

Lemma build_level (cs rs : list num) (l : nat) :
  build cs rs (S (S l)) =
  match concat_times (nth l cs NaN) (build cs rs (S l)) with
  | None => None
  | Some seq =>
      if nonzero (nth l rs NaN)
      then option_map (fun b => seq ++ b) (build cs rs l)
      else Some seq
  end.
Proof. reflexivity. Qed.

(** [build] reads the arrays only below its level: later pushes do not
    change what it returns. *)
Lemma build_pushed (cs rs cs' rs' : list num) (m : nat) :
  (m <= S (length cs))%nat -> (m <= S (length rs))%nat ->
  build (cs ++ cs') (rs ++ rs') m = build cs rs m.
Proof.
  induction m as [m IH] using lt_wf_ind. intros Hc Hr.
  destruct m as [|[|l]]; [reflexivity|reflexivity|].
  rewrite !build_level. cbn [length] in *.
  rewrite (IH (S l)) by lia. rewrite (IH l) by lia.
  rewrite !nth_before_pushed by lia. reflexivity.
Qed.

Lemma build_pushed_counts (cs rs cs' : list num) (m : nat) :
  (m <= S (length cs))%nat -> (m <= S (length rs))%nat ->
  build (cs ++ cs') rs m = build cs rs m.
Proof.
  intros Hc Hr. rewrite <- (app_nil_r rs) at 1. apply build_pushed; assumption.
Qed.

Lemma additive_len : additive len.
Proof.
  split; [reflexivity|]. intros a b. unfold len. rewrite length_app. lia.
Qed.

Lemma additive_count_true : additive count_true.
Proof.
  split; [reflexivity|]. intros a b. unfold count_true.
  rewrite filter_app, length_app. lia.
Qed.

Section Measure.

Variable w : list Z -> Z.
Hypothesis w_additive : additive w.

Lemma measure_concat_repeat (a : list Z) (n : nat) :
  w (concat (repeat a n)) = Z.of_nat n * w a.
Proof.
  destruct w_additive as [Hnil Happ].
  induction n as [|n IH]; cbn [repeat concat].
  - rewrite Hnil. lia.
  - rewrite Happ, IH. lia.
Qed.

Lemma concat_times_measure (q : Z) (a : list Z) :
  0 <= q ->
  exists x, concat_times (Int q) (Some a) = Some x /\ w x = q * w a.
Proof.
  intro Hq. cbn [concat_times]. destruct (q <=? 0) eqn:E.
  - exists []. split; [reflexivity|].
    apply Z.leb_le in E. destruct w_additive as [Hnil _]. rewrite Hnil.
    replace q with 0 by lia. reflexivity.
  - eexists. split; [reflexivity|].
    rewrite measure_concat_repeat. rewrite Z2Nat.id by lia. reflexivity.
Qed.

(** One reduction step: the block of the new level is [q] copies of the
    last block followed by the block before it. *)
Lemma build_next (cs rs : list num) (lvl : nat) (q rz : Z) (x : num)
      (a b : list Z) :
  length cs = lvl -> length rs = S lvl ->
  nth lvl rs NaN = Int rz -> 1 <= rz -> 0 <= q ->
  build cs rs (S lvl) = Some a -> build cs rs lvl = Some b ->
  exists a1,
    build (cs ++ [Int q]) (rs ++ [x]) (S (S lvl)) = Some a1
    /\ w a1 = q * w a + w b.
Proof.
  intros Hc Hr Hrz Hpos Hq Ha Hb.
  rewrite build_level.
  rewrite (nth_last_pushed cs (Int q) NaN lvl Hc).
  rewrite !build_pushed by lia. rewrite Ha, Hb.
  rewrite nth_before_pushed by lia. rewrite Hrz.
  destruct (concat_times_measure q a Hq) as [x0 [Hx Hwx]]. rewrite Hx.
  cbn [nonzero]. replace (rz =? 0) with false by (symmetry; apply Z.eqb_neq; lia).
  cbn [negb option_map]. eexists. split; [reflexivity|].
  destruct w_additive as [_ Happ]. rewrite Happ, Hwx. reflexivity.
Qed.

(** The invariant of the loop: with [a] the block of the last level and
    [b] the one before, [divisor] copies of [a] and [remainder] copies of
    [b] weigh as much as the whole pattern. At the exit the pattern
    built has exactly that weight. *)
Lemma bj_loop_measure (target : Z) (fuel : nat) :
  forall (cs rs : list num) (dz rz : Z) (lvl : nat) (a b : list Z),
    length cs = lvl -> length rs = S lvl ->
    nth lvl rs NaN = Int rz -> 0 <= dz -> 1 <= rz ->
    (Z.to_nat rz <= fuel)%nat ->
    build cs rs (S lvl) = Some a -> build cs rs lvl = Some b ->
    dz * w a + rz * w b = target ->
    exists cs' rs' d' lvl' p,
      bj_loop fuel cs rs (Int dz) lvl = Some (cs', rs', d', lvl')
      /\ build (cs' ++ [d']) rs' (S (S lvl')) = Some p
      /\ w p = target.
Proof.
  induction fuel as [|fuel IH];
    intros cs rs dz rz lvl a b Hc Hr Hrz Hd Hpos Hfuel Ha Hb Hinv; [lia|].
  cbn [bj_loop]. rewrite Hrz. cbn [floor_div js_rem].
  replace (rz =? 0) with false by (symmetry; apply Z.eqb_neq; lia).
  rewrite (nth_last_pushed rs _ NaN (S lvl) Hr).
  rewrite Z.rem_mod_nonneg by lia.
  pose proof (Z.mod_pos_bound dz rz ltac:(lia)) as Hmod.
  pose proof (Z.div_mod dz rz ltac:(lia)) as Hdiv.
  assert (Hq : 0 <= dz / rz) by (apply Z.div_pos; lia).
  destruct (build_next cs rs lvl (dz / rz) rz (Int (dz mod rz)) a b
              Hc Hr Hrz Hpos Hq Ha Hb) as [a1 [Ha1 Hwa1]].
  assert (Ha' : build (cs ++ [Int (dz / rz)]) (rs ++ [Int (dz mod rz)]) (S lvl)
                = Some a) by (rewrite build_pushed by lia; exact Ha).
  assert (Hc1 : length (cs ++ [Int (dz / rz)]) = S lvl)
    by (rewrite length_app; cbn; lia).
  assert (Hr1 : length (rs ++ [Int (dz mod rz)]) = S (S lvl))
    by (rewrite length_app; cbn; lia).
  assert (Hrz1 : nth (S lvl) (rs ++ [Int (dz mod rz)]) NaN = Int (dz mod rz))
    by (apply nth_last_pushed; exact Hr).
  cbn [le_one]. destruct (dz mod rz <=? 1) eqn:E.
  - apply Z.leb_le in E.
    exists (cs ++ [Int (dz / rz)]), (rs ++ [Int (dz mod rz)]), (Int rz), (S lvl).
    rewrite build_level.
    rewrite (nth_last_pushed _ (Int rz) NaN (S lvl) Hc1).
    rewrite (build_pushed_counts (cs ++ [Int (dz / rz)]) _ [Int rz] (S (S lvl)))
      by lia.
    rewrite (build_pushed_counts (cs ++ [Int (dz / rz)]) _ [Int rz] (S lvl))
      by lia.
    rewrite Ha1, Ha', Hrz1.
    destruct (concat_times_measure rz a1 ltac:(lia)) as [x0 [Hx Hwx]].
    rewrite Hx. cbn [nonzero].
    destruct w_additive as [Hnil Happ].
    destruct (dz mod rz =? 0) eqn:E0; cbn [negb option_map].
    + apply Z.eqb_eq in E0. eexists. split; [reflexivity|]. split; [reflexivity|].
      rewrite Hwx, Hwa1. nia.
    + apply Z.eqb_neq in E0. eexists. split; [reflexivity|]. split; [reflexivity|].
      rewrite Happ, Hwx, Hwa1. assert (dz mod rz = 1) by lia. nia.
  - apply Z.leb_gt in E.
    apply (IH _ _ rz (dz mod rz) (S lvl) a1 a); try assumption; try lia.
Qed.

End Measure.

(** ** Rotation *)

Lemma normRot_mod (rot n : Z) : 0 < n -> normRot rot n = rot mod n.
Proof.
  intro Hn. unfold normRot.
  replace (n =? 0) with false by (symmetry; apply Z.eqb_neq; lia).
  pose proof (Z.rem_bound_abs rot n ltac:(lia)) as Hb.
  pose proof (Z.quot_rem' rot n) as Hq.
  rewrite Z.rem_mod_nonneg by lia.
  rewrite <- (Z.mod_add rot (1 - Z.quot rot n) n) by lia.
  f_equal. lia.
Qed.

Lemma slice_from (A : Type) (l : list A) (s : Z) :
  0 <= s <= Z.of_nat (length l) ->
  slice s (Z.of_nat (length l)) l = skipn (Z.to_nat s) l.
Proof.
  intro H. unfold slice, rel_index.
  replace (s <? 0) with false by (symmetry; apply Z.ltb_ge; lia).
  replace (Z.of_nat (length l) <? 0) with false by (symmetry; apply Z.ltb_ge; lia).
  rewrite !Z.min_l by lia. apply firstn_all2.
  rewrite length_skipn. lia.
Qed.

Lemma slice_upto (A : Type) (l : list A) (s : Z) :
  0 <= s <= Z.of_nat (length l) ->
  slice 0 s l = firstn (Z.to_nat s) l.
Proof.
  intro H. unfold slice, rel_index.
  replace (s <? 0) with false by (symmetry; apply Z.ltb_ge; lia).
  change (0 <? 0) with false. cbv iota.
  rewrite Z.min_l by lia. rewrite Z.min_l by lia.
  rewrite Z.sub_0_r. reflexivity.
Qed.

Lemma rotl_length (A : Type) (r : nat) (p : list A) :
  length (rotl r p) = length p.
Proof.
  unfold rotl. rewrite length_app, length_skipn, length_firstn. lia.
Qed.

Lemma rotl_perm (A : Type) (r : nat) (p : list A) : Permutation (rotl r p) p.
Proof.
  unfold rotl. rewrite Permutation_app_comm, firstn_skipn. reflexivity.
Qed.

Lemma rotl_map (A B : Type) (f : A -> B) (r : nat) (p : list A) :
  map f (rotl r p) = rotl r (map f p).
Proof. unfold rotl. rewrite map_app, skipn_map, firstn_map. reflexivity. Qed.

Lemma count_true_perm (p q : list Z) :
  Permutation p q -> count_true p = count_true q.
Proof.
  intro H. unfold count_true. f_equal. apply Permutation_length.
  induction H; cbn [filter].
  - constructor.
  - destruct (negb (x =? 0)); [constructor|]; assumption.
  - destruct (negb (x =? 0)), (negb (y =? 0)); try constructor;
      try reflexivity.
  - etransitivity; eassumption.
Qed.

Lemma count_true_map_bit (p : list Z) :
  count_true (map (fun x => if x =? 0 then 0 else 1) p) = count_true p.
Proof.
  unfold count_true. f_equal. induction p as [|x p IH]; [reflexivity|].
  cbn [map filter]. destruct (x =? 0) eqn:E; cbn [Z.eqb negb length];
    rewrite IH; reflexivity.
Qed.

Lemma map_bit_bits (p : list Z) :
  Forall (fun x => x = 0 \/ x = 1) (map (fun x => if x =? 0 then 0 else 1) p).
Proof.
  apply Forall_forall. intros y Hy. apply in_map_iff in Hy.
  destruct Hy as [x [<- _]]. destruct (x =? 0); auto.
Qed.

(** ** Euclidean rhythms: what is returned when an onset is asked for *)

(** With [k] clamped to at least 1 the loop ends within [k] turns, and
    every rotation is the same pattern of [n] steps and [k] onsets turned
    left by [rot mod n]. *)
Lemma euclid_fuel_pattern (k n : Z) :
  1 <= Z.min k n ->
  exists p0,
    len p0 = n /\ count_true p0 = Z.min k n
    /\ Forall (fun x => x = 0 \/ x = 1) p0
    /\ forall fuel rot,
        (Z.to_nat (Z.min k n) <= fuel)%nat ->
        euclid_fuel fuel k n rot = Some (rotl (Z.to_nat (rot mod n)) p0).
Proof.
  intro Hk. set (k' := Z.min k n) in *.
  assert (Hn : k' <= n) by (subst k'; lia).
  destruct (bj_loop_measure len additive_len n (Z.to_nat k')
              [] [Int k'] (n - k') k' 0%nat [0] [1])
    as (cs1 & rs1 & d1 & lvl1 & p & Hloop & Hbuild & Hlen);
    try reflexivity; try lia.
  { unfold len. cbn [length]. lia. }
  destruct (bj_loop_measure count_true additive_count_true k' (Z.to_nat k')
              [] [Int k'] (n - k') k' 0%nat [0] [1])
    as (cs2 & rs2 & d2 & lvl2 & p2 & Hloop2 & Hbuild2 & Hcount);
    try reflexivity; try lia.
  { unfold count_true. cbn. lia. }
  rewrite Hloop in Hloop2. injection Hloop2 as <- <- <- <-.
  rewrite Hbuild in Hbuild2. injection Hbuild2 as <-.
  exists (map (fun x => if x =? 0 then 0 else 1) p).
  split; [unfold len in *; rewrite length_map; exact Hlen|].
  split; [rewrite count_true_map_bit; exact Hcount|].
  split; [apply map_bit_bits|].
  intros fuel rot Hfuel. unfold euclid_fuel.
  replace (Z.max 0 (Z.min k n)) with k' by (subst k'; lia).
  replace fuel with (Z.to_nat k' + (fuel - Z.to_nat k'))%nat by lia.
  rewrite (bj_loop_more _ _ _ _ _ _ Hloop). rewrite Hbuild.
  rewrite normRot_mod by lia.
  pose proof (Z.mod_pos_bound rot n ltac:(lia)) as Hrot.
  unfold len in Hlen.
  rewrite slice_from, slice_upto by lia.
  rewrite <- rotl_map. reflexivity.
Qed.

Lemma euclid_pattern (k n : Z) :
  1 <= Z.min k n ->
  exists p0,
    len p0 = n /\ count_true p0 = Z.min k n
    /\ Forall (fun x => x = 0 \/ x = 1) p0
    /\ forall rot, euclid k n rot = Some (rotl (Z.to_nat (rot mod n)) p0).
Proof.
  intro Hk. destruct (euclid_fuel_pattern k n Hk) as (p0 & H1 & H2 & H3 & H4).
  exists p0. repeat split; try assumption.
  intro rot. unfold euclid. apply H4. lia.
Qed.

(** More fuel than that changes nothing. *)
Lemma euclid_fuel_enough (fuel : nat) (k n rot : Z) :
  1 <= Z.min k n -> (Z.to_nat (Z.min k n) <= fuel)%nat ->
  euclid_fuel fuel k n rot = euclid k n rot.
Proof.
  intros Hk Hfuel. destruct (euclid_fuel_pattern k n Hk) as (p0 & _ & _ & _ & H).
  unfold euclid. rewrite !H by lia. reflexivity.
Qed.

Lemma all_true_pattern (p : list Z) :
  Forall (fun x => x = 0 \/ x = 1) p -> count_true p = len p ->
  p = repeat 1 (length p).
Proof.
  unfold count_true, len. induction p as [|x p IH]; intros Hbits Hc;
    [reflexivity|].
  inversion Hbits as [|? ? Hx Hp]; subst. cbn [filter length repeat] in *.
  pose proof (filter_length_le (fun x => negb (x =? 0)) p) as Hle.
  destruct Hx as [-> | ->]; cbn [Z.eqb negb length] in Hc.
  - lia.
  - f_equal. apply IH; [assumption|]. lia.
Qed.

(** Supporting C2 and C8: for [1 <= k <= n], [euclid(k, n, rot)] returns,
    and returns [n] steps of which exactly [k] are onsets; [k = n] gives
    the all-true pattern. *)
Lemma euclid_returns_k_of_n (k n rot : Z) :
  1 <= k <= n ->
  exists p, euclid k n rot = Some p
            /\ len p = n /\ count_true p = k
            /\ Forall (fun x => x = 0 \/ x = 1) p
            /\ (k = n -> p = repeat 1 (Z.to_nat n)).
Proof.
  intro Hk. destruct (euclid_pattern k n ltac:(lia)) as (p0 & Hl & Hc & Hb & He).
  exists (rotl (Z.to_nat (rot mod n)) p0).
  assert (Hlen : len (rotl (Z.to_nat (rot mod n)) p0) = n)
    by (unfold len in *; rewrite rotl_length; exact Hl).
  assert (Hcnt : count_true (rotl (Z.to_nat (rot mod n)) p0) = k)
    by (rewrite (count_true_perm _ _ (rotl_perm _ _ p0)); lia).
  assert (Hbits : Forall (fun x => x = 0 \/ x = 1) (rotl (Z.to_nat (rot mod n)) p0)).
  { apply Forall_forall. intros x Hx.
    apply (Permutation_in _ (rotl_perm _ _ p0)) in Hx.
    revert x Hx. apply Forall_forall. exact Hb. }
  repeat split; try assumption; [apply He|].
  intro Hkn. rewrite (all_true_pattern _ Hbits) by lia.
  f_equal. unfold len in Hlen. lia.
Qed.

(** [euclid] returns exactly when the clamped [k] is at least 1. *)
Lemma euclid_returns_iff (k n rot : Z) :
  (exists fuel p, euclid_fuel fuel k n rot = Some p) <-> 1 <= Z.min k n.
Proof.
  split.
  - intros (fuel & p & H). destruct (Z_lt_le_dec (Z.min k n) 1) as [Hlt|Hle];
      [|exact Hle].
    rewrite euclid_fuel_no_onsets in H by lia. discriminate.
  - intro H. destruct (euclid_pattern k n H) as (p0 & _ & _ & _ & He).
    eexists; eexists. apply He.
Qed.

(** C2. The code does not do what the claim says at [k = 0]: the first
    remainder is 0, [n % 0] is NaN, no later remainder is [<= 1], and the
    loop of [euclid(0, n, 0)] never ends, whatever [n] is. (For
    [1 <= k <= n] the claim holds: [euclid_returns_k_of_n].) *)
Theorem euclid_no_onsets_never_returns :
  forall (n : Z) (fuel : nat), euclid_fuel fuel 0 n 0 = None.
Proof. intros n fuel. apply euclid_fuel_no_onsets. lia. Qed.

(** C3, as the code has it: [euclid(3, 8, 0)] is the 8-step pattern with
    exactly 3 onsets at the positions 1, 4 and 7 (gaps 3, 3, 2). *)
Theorem euclid_3_8_0 :
  euclid 3 8 0 = Some [0; 1; 0; 0; 1; 0; 0; 1]
  /\ option_map len (euclid 3 8 0) = Some 8
  /\ option_map count_true (euclid 3 8 0) = Some 3
  /\ option_map onsets (euclid 3 8 0) = Some [1; 4; 7]
  /\ option_map gaps (euclid 3 8 0) = Some [3; 3; 2].
Proof. repeat split; reflexivity. Qed.

(** C3 as stated fails: the onsets of [euclid(3, 8, 0)] are not at the
    positions 0, 3 and 6. *)
Lemma euclid_3_8_0_onsets_not_0_3_6 :
  option_map onsets (euclid 3 8 0) <> Some [0; 3; 6].
Proof. vm_compute. discriminate. Qed.

(** ** Gaps between onsets under rotation *)

Lemma onsets_from_shift (d : Z) (p : list Z) : forall i,
  onsets_from (i + d) p = map (Z.add d) (onsets_from i p).
Proof.
  induction p as [|x p IH]; intro i; [reflexivity|].
  cbn [onsets_from]. replace (i + d + 1) with (i + 1 + d) by lia.
  rewrite IH. destruct (x =? 0); cbn [map]; [reflexivity|].
  f_equal. lia.
Qed.

Lemma onsets_from_app (a b : list Z) : forall i,
  onsets_from i (a ++ b) = onsets_from i a ++ onsets_from (i + len a) b.
Proof.
  unfold len. induction a as [|x a IH]; intro i; cbn [app onsets_from length].
  - rewrite Z.add_0_r. reflexivity.
  - rewrite IH. replace (i + 1 + Z.of_nat (length a))
      with (i + Z.of_nat (S (length a))) by lia.
    destruct (x =? 0); reflexivity.
Qed.

Lemma diffs_shift (d : Z) (l : list Z) : diffs (map (Z.add d) l) = diffs l.
Proof.
  induction l as [|a [|b t] IH]; try reflexivity.
  cbn [map diffs] in *. rewrite IH. f_equal. lia.
Qed.

Lemma last_cons (t : list Z) : forall a b, last (b :: t) a = last t b.
Proof.
  induction t as [|c t IH]; intros a b; [reflexivity|].
  change (last (b :: c :: t) a) with (last (c :: t) a).
  rewrite (IH a c), (IH b c). reflexivity.
Qed.

Lemma diffs_snoc (t : list Z) : forall a z,
  diffs ((a :: t) ++ [z]) = diffs (a :: t) ++ [z - last t a].
Proof.
  induction t as [|b t IH]; intros a z; [reflexivity|].
  change (diffs ((a :: b :: t) ++ [z])) with ((b - a) :: diffs ((b :: t) ++ [z])).
  rewrite IH, <- (last_cons t a b). reflexivity.
Qed.

Lemma last_shift (d : Z) (t : list Z) : forall a,
  last (map (Z.add d) t) (d + a) = d + last t a.
Proof.
  induction t as [|b t IH]; intro a; [reflexivity|].
  cbn [map]. rewrite !last_cons. apply IH.
Qed.

Lemma last_snoc (t : list Z) (z a : Z) : last (t ++ [z]) a = z.
Proof. apply last_last. Qed.

(** Moving the first step of a pattern to its end permutes the gaps. *)
Lemma gaps_turn (x : Z) (q : list Z) :
  Permutation (gaps (q ++ [x])) (gaps (x :: q)).
Proof.
  unfold gaps, onsets.
  rewrite onsets_from_app. cbn [onsets_from].
  rewrite (onsets_from_shift 1 q 0).
  rewrite length_app. cbn [length Z.add].
  unfold len. destruct (x =? 0).
  - rewrite app_nil_r. destruct (onsets_from 0 q) as [|o rest]; [reflexivity|].
    cbn [map]. change (1 + o :: map (Z.add 1) rest) with (map (Z.add 1) (o :: rest)).
    rewrite diffs_shift, last_shift.
    replace (1 + o + Z.of_nat (S (length q)) - (1 + last rest o))
      with (o + Z.of_nat (length q + 1) - last rest o) by lia.
    reflexivity.
  - destruct (onsets_from 0 q) as [|o rest].
    + cbn [app map diffs last].
      replace (Z.of_nat (length q) + Z.of_nat (length q + 1) - Z.of_nat (length q))
        with (0 + Z.of_nat (S (length q)) - 0) by lia.
      reflexivity.
    + cbn [map].
      change (diffs (0 :: 1 + o :: map (Z.add 1) rest))
        with ((1 + o - 0) :: diffs (map (Z.add 1) (o :: rest))).
      rewrite diffs_shift.
      change (last (1 + o :: map (Z.add 1) rest) 0)
        with (last (map (Z.add 1) (o :: rest)) 0).
      replace (last (map (Z.add 1) (o :: rest)) 0) with (1 + last rest o).
      2:{ cbn [map]. rewrite last_cons. symmetry. apply last_shift. }
      change ((o :: rest) ++ [Z.of_nat (length q)])
        with (o :: (rest ++ [Z.of_nat (length q)])).
      cbv iota. rewrite last_snoc.
      change (o :: (rest ++ [Z.of_nat (length q)]))
        with ((o :: rest) ++ [Z.of_nat (length q)]).
      rewrite diffs_snoc.
      replace (o + Z.of_nat (length q + 1) - Z.of_nat (length q)) with (1 + o - 0)
        by lia.
      replace (0 + Z.of_nat (S (length q)) - (1 + last rest o))
        with (Z.of_nat (length q) - last rest o) by lia.
      cbn [app]. symmetry. apply Permutation_cons_append.
Qed.

Lemma skipn_firstn_next (A : Type) (r : nat) : forall (p t : list A) (y : A),
  skipn r p = y :: t ->
  skipn (S r) p = t /\ firstn (S r) p = firstn r p ++ [y].
Proof.
  induction r as [|r IH]; intros p t y H.
  - cbn [skipn] in H. subst p. split; reflexivity.
  - destruct p as [|x p]; [discriminate|].
    cbn [skipn] in H. destruct (IH p t y H) as [Hs Hf].
    split; [exact Hs|].
    change (firstn (S (S r)) (x :: p)) with (x :: firstn (S r) p).
    rewrite Hf. reflexivity.
Qed.

Lemma rotl_next (A : Type) (r : nat) (p : list A) :
  (r < length p)%nat ->
  exists y q, rotl r p = y :: q /\ rotl (S r) p = q ++ [y].
Proof.
  intro Hr. unfold rotl. destruct (skipn r p) as [|y t] eqn:E.
  - apply (f_equal (@length A)) in E. rewrite length_skipn in E. cbn in E. lia.
  - destruct (skipn_firstn_next A r p t y E) as [Hs Hf].
    exists y, (t ++ firstn r p). split; [reflexivity|].
    rewrite Hs, Hf, app_assoc. reflexivity.
Qed.

Lemma rotl_0 (A : Type) (p : list A) : rotl 0 p = p.
Proof. unfold rotl. cbn [skipn firstn]. apply app_nil_r. Qed.

(** The multiset of onset-to-onset gaps is the same for every rotation. *)
Lemma gaps_rotl (r : nat) (p : list Z) :
  (r <= length p)%nat -> Permutation (gaps (rotl r p)) (gaps p).
Proof.
  induction r as [|r IH]; intro Hr.
  - rewrite rotl_0. reflexivity.
  - destruct (rotl_next Z r p ltac:(lia)) as (y & q & H0 & H1).
    rewrite H1. etransitivity; [apply gaps_turn|].
    rewrite <- H0. apply IH. lia.
Qed.

(** Supporting C8: for [1 <= k <= n] and every integer [r], [euclid(k, n,
    r)] returns the pattern of [euclid(k, n, 0)] turned left by [r mod n];
    adding [n] to [r], or normalising [r] first, returns the same pattern;
    and the gaps between onsets are those of [euclid(k, n, 0)], up to
    order. *)
Lemma euclid_rotation (k n r : Z) :
  1 <= k <= n ->
  exists p0 p,
    euclid k n 0 = Some p0
    /\ euclid k n r = Some p
    /\ p = rotl (Z.to_nat (r mod n)) p0
    /\ euclid k n (r + n) = Some p
    /\ euclid k n (((r mod n) + n) mod n) = Some p
    /\ euclid k n (normRot r n) = Some p
    /\ Permutation (gaps p) (gaps p0).
Proof.
  intro Hk. destruct (euclid_pattern k n ltac:(lia)) as (p0 & Hl & _ & _ & He).
  exists p0, (rotl (Z.to_nat (r mod n)) p0).
  pose proof (Z.mod_pos_bound r n ltac:(lia)) as Hr.
  assert (H1 : (r + n) mod n = r mod n).
  { replace (r + n) with (r + 1 * n) by lia. apply Z.mod_add. lia. }
  assert (H2 : ((r mod n) + n) mod n = r mod n).
  { replace (r mod n + n) with (r mod n + 1 * n) by lia.
    rewrite Z.mod_add by lia. apply Z.mod_mod. lia. }
  rewrite !He. rewrite normRot_mod by lia.
  rewrite H1, !Z.mod_mod by lia. rewrite H2.
  change (0 mod n) with 0. change (Z.to_nat 0) with 0%nat. rewrite rotl_0.
  repeat split; try reflexivity.
  apply gaps_rotl. unfold len in Hl. lia.
Qed.

(** C8. The code does not do what the claim says at [k = 0]: no call
    [euclid(0, n, r)] returns, so there is no pattern to turn and no gap to
    compare; this is the defect of C2. (For [1 <= k <= n] the claim
    holds: [euclid_rotation].) *)
Theorem euclid_no_onsets_no_rotation :
  forall (n r : Z) (fuel : nat),
    euclid_fuel fuel 0 n r = None
    /\ euclid_fuel fuel 0 n (r + n) = None
    /\ euclid_fuel fuel 0 n (((r mod n) + n) mod n) = None.
Proof.
  intros n r fuel. repeat split; apply euclid_fuel_no_onsets; lia.
Qed.

(** ** Control modulation *)

Lemma clamp_range (x a b : Q) : (a <= b -> a <= clamp x a b <= b)%Q.
Proof.
  intro H. unfold clamp. split.
  - apply Q.min_glb; [exact H|apply Q.le_max_l].
  - apply Q.le_min_l.
Qed.

Lemma bpm_updateControls (c : AudioControls) (now : Q) (e : Engine) :
  bpm (updateControls c now e) = lerp (bpm e) (clamp (tgtBpm c) 70 180) 0.08.
Proof. reflexivity. Qed.

(** On finite numbers [modulate] and [targets] are [updateControls]. *)
Lemma modulate_refines (c : AudioControls) (now : Q) (e : Engine) :
  modulate (inject c) (modulated_of e) = modulated_of (updateControls c now e).
Proof. reflexivity. Qed.

Lemma targets_refines (c : AudioControls) (now : Q) (e : Engine) :
  targets (inject c)
  = mkTargets (Finite (lerp 0.1 0.3 (clamp (approach c * 0.5 + 0.5) 0 1)))
              (Finite (lerp 0.08 0.22 (Qabs (fx c))))
              (Finite (clamp (fx c) (-1) 1)) (Finite (clamp (fy c) (-1) 1))
  /\ trace (updateControls c now e)
     = trace e ++
       [ SetTargetAtTime RevGain
           (lerp 0.1 0.3 (clamp (approach c * 0.5 + 0.5) 0 1)) now 0.25;
         SetTargetAtTime DelayGain (lerp 0.08 0.22 (Qabs (fx c))) now 0.25;
         SetTargetAtTime PanHats (clamp (fx c) (-1) 1) now 0.1;
         SetTargetAtTime PanArp (clamp (fy c) (-1) 1) now 0.1 ].
Proof. split; reflexivity. Qed.

Lemma Finite_inj (a b : Q) : Finite a = Finite b -> a = b.
Proof. intro H. injection H. auto. Qed.

Lemma numeric_inject (c : JsControls) (c' : AudioControls) :
  numeric c = Some c' -> c = inject c'.
Proof.
  destruct c as [x y a v m]. unfold numeric. cbn [jfx jfy japproach jactivity jmode].
  destruct x, y, a, v, m; try discriminate. intro H. injection H as <-.
  reflexivity.
Qed.

Lemma modulateAll_refines (cs : list (AudioControls * Q)) : forall e,
  modulateAll (map (fun c => inject (fst c)) cs) (modulated_of e)
  = modulated_of (updateAll cs e).
Proof.
  induction cs as [|[c now] cs IH]; intro e; [reflexivity|].
  cbn [map fst]. unfold modulateAll, updateAll in *. cbn [fold_left fst snd].
  rewrite (modulate_refines c now e). apply IH.
Qed.

(** A target that is a number is clamped into [70, 180], an infinite one
    too. *)
Lemma js_clamp_range (x : jsnum) (a b : Q) :
  (a <= b)%Q -> x <> NotANumber ->
  exists t, js_clamp x (Finite a) (Finite b) = Finite t /\ (a <= t <= b)%Q.
Proof.
  intros Hab Hx. destruct x as [q|[|]|]; [| | |contradiction].
  - exists (clamp q a b). split; [reflexivity|apply clamp_range; exact Hab].
  - exists (Qmin b a). split; [reflexivity|].
    split; [apply Q.min_glb; [exact Hab|apply Qle_refl]|apply Q.le_min_l].
  - exists b. split; [reflexivity|]. split; [exact Hab|apply Qle_refl].
Qed.




(** A NaN in [activity] (or in [fx], [fy]) goes through the sum and
    through [Math.max] and [Math.min]: target and tempo are NaN, and a
    tempo that is NaN stays so. *)
Lemma modulate_NaN_activity (c : JsControls) (m : Modulated) :
  jactivity c = NotANumber ->
  js_clamp (js_tgtBpm c) (Finite 70) (Finite 180) = NotANumber
  /\ m_bpm (modulate c m) = NotANumber
  /\ m_denHat (modulate c m) = NaN /\ m_denSnare (modulate c m) = NaN.
Proof.
  intro H. unfold modulate, js_tgtBpm. cbn [m_bpm m_denHat m_denSnare].
  rewrite H. cbn [js_mul js_add js_clamp js_max js_min js_lerp js_sub js_round].
  split; [reflexivity|].
  split; [destruct (m_bpm m) as [q|s|]; reflexivity|split; reflexivity].
Qed.


(** ** Seeding *)

Lemma draw_range (e : Engine) : (0 <= fst (draw e) < 1)%Q.
Proof.
  unfold draw. pose proof (sfc_next_range (rng e)) as H.
  destruct (sfc_next (rng e)) as [v g]. exact H.
Qed.

(** [Math.floor(this.rng() * m)] is one of [0 .. m-1]. *)
Lemma drawInt_range (m : Z) (e : Engine) :
  0 < m -> 0 <= fst (drawInt m e) < m.
Proof.
  intro Hm. unfold drawInt. pose proof (draw_range e) as [H0 H1].
  destruct (draw e) as [v e']. cbn [fst] in *.
  assert (Hm' : (0 < inject_Z m)%Q) by (unfold Qlt; cbn; lia).
  split.
  - change 0 with (Qfloor 0). apply Qfloor_resp_le. nra.
  - rewrite Zlt_Qlt. apply Qle_lt_trans with (v * inject_Z m)%Q;
      [apply Qfloor_le | nra].
Qed.

(** A draw changes the generator and nothing else. *)
Lemma drawInt_frame (m : Z) (e : Engine) :
  0 < m -> exists i g, drawInt m e = (i, set_rng g e) /\ 0 <= i < m.
Proof.
  intro Hm. pose proof (drawInt_range m e Hm) as H.
  unfold drawInt, draw in *. destruct (sfc_next (rng e)) as [v g].
  eexists; eexists; split; [reflexivity|exact H].
Qed.

Ltac draw_all :=
  repeat match goal with
  | |- context [drawInt ?m ?e] =>
      let i := fresh "i" in let g := fresh "g" in
      let E := fresh "E" in let H := fresh "Hi" in
      destruct (drawInt_frame m e ltac:(lia)) as (i & g & E & H);
      rewrite E; clear E
  end.

Lemma pick_in (A : Type) (arr : list A) (i : Z) (d : A) :
  0 <= i < Z.of_nat (length arr) -> In (pick arr i d) arr.
Proof. intro H. unfold pick. apply nth_In. lia. Qed.

(** [setSeed] draws every length from its table and every density from its
    range, whatever the seed and the engine it is applied to. *)
Lemma setSeed_seeded (seed : jsstring) (e : Engine) :
  seeded (setSeed seed e)
  /\ 3 <= denSnare (setSeed seed e) <= 6
  /\ 8 <= denHat (setSeed seed e) <= 13.
Proof.
  unfold setSeed. draw_all. unfold seeded.
  cbn -[pick SCALES In Z.add].
  repeat split; try lia; apply pick_in; unfold SCALES; cbn [length]; lia.
Qed.

Lemma round_range (a b : Z) (x : Q) :
  (inject_Z a <= x <= inject_Z b)%Q -> a <= round x <= b.
Proof.
  intros [Ha Hb]. unfold round. split.
  - rewrite <- (Qfloor_Z a). apply Qfloor_resp_le. lra.
  - apply Z.lt_succ_r. rewrite Zlt_Qlt.
    apply Qle_lt_trans with (x + 0.5)%Q; [apply Qfloor_le|].
    unfold Z.succ. rewrite inject_Z_plus. change (inject_Z 1) with 1%Q. lra.
Qed.

Lemma updateControls_seeded (c : AudioControls) (now : Q) (e : Engine) :
  seeded e -> seeded (updateControls c now e).
Proof.
  unfold seeded. intro H. cbn -[In SCALES round].
  pose proof (clamp_range (activity c) 0 1 ltac:(lra)) as Hk.
  assert (Hs : 3 <= round (3 + clamp (activity c) 0 1 * 5) <= 8)
    by (apply round_range; change (inject_Z 3) with 3%Q;
        change (inject_Z 8) with 8%Q; lra).
  assert (Hh : 8 <= round (8 + clamp (activity c) 0 1 * 8) <= 16)
    by (apply round_range; change (inject_Z 8) with 8%Q;
        change (inject_Z 16) with 16%Q; lra).
  intuition.
Qed.

Lemma updateAll_seeded (cs : list (AudioControls * Q)) : forall e,
  seeded e -> seeded (updateAll cs e).
Proof.
  induction cs as [|c cs IH]; intros e H; [exact H|].
  apply IH. apply updateControls_seeded. exact H.
Qed.

Lemma In_between (lo hi x : Z) (l : list Z) :
  Forall (fun y => lo <= y <= hi) l -> In x l -> lo <= x <= hi.
Proof. intros H Hin. revert x Hin. apply Forall_forall. exact H. Qed.

Lemma In_at_least (lo x : Z) (l : list Z) :
  Forall (fun y => lo <= y) l -> In x l -> lo <= x.
Proof. intros H Hin. revert x Hin. apply Forall_forall. exact H. Qed.

(** [updateControls] writes the snare's density but not a length: the
    bound by the shortest snare cycle survives. *)
Lemma seeded_roles (e : Engine) :
  seeded e ->
  density_ok (denKick e) (Lk e) /\ density_ok (denSnare e) (Ls e)
  /\ density_ok (denClaps e) (Ls e) /\ density_ok (denBass e) (Lb e)
  /\ density_ok (denArp e) (La e)
  /\ 8 <= denHat e <= 16 /\ 13 <= Lh e <= 19.
Proof.
  unfold seeded, density_ok.
  intros (Hk & Hs & Hh & Ha & Hb & _ & ? & ? & ? & ? & ? & ? & _ & _).
  apply In_at_least with (lo := 13) in Hk; [|repeat constructor; lia].
  apply In_at_least with (lo := 12) in Hs; [|repeat constructor; lia].
  apply In_between with (lo := 13) (hi := 19) in Hh; [|repeat constructor; lia].
  apply In_at_least with (lo := 10) in Ha; [|repeat constructor; lia].
  apply In_at_least with (lo := 13) in Hb; [|repeat constructor; lia].
  repeat split; lia.
Qed.

Lemma round_at (z : Z) (x : Q) : (x == inject_Z z)%Q -> round x = z.
Proof.
  intro H. assert (Hr : z <= round x <= z) by (apply round_range; lra). lia.
Qed.

(** With an activity that is a number the two densities written are
    integers in their ranges; an infinite activity is clamped like any
    other. *)
Lemma modulate_densities (c : JsControls) (m : Modulated) :
  jactivity c <> NotANumber ->
  exists hat snare,
    m_denHat (modulate c m) = Int hat /\ m_denSnare (modulate c m) = Int snare
    /\ 8 <= hat <= 16 /\ 3 <= snare <= 8.
Proof.
  intro Ha.
  destruct (js_clamp_range (jactivity c) 0 1 ltac:(lra) Ha) as (k & Ek & Hk).
  unfold modulate. cbn [m_denHat m_denSnare]. rewrite Ek.
  cbn [js_mul js_add js_round].
  exists (round (8 + k * 8)), (round (3 + k * 5)).
  split; [reflexivity|]. split; [reflexivity|].
  split; apply round_range;
    [change (inject_Z 8) with 8%Q; change (inject_Z 16) with 16%Q
    |change (inject_Z 3) with 3%Q; change (inject_Z 8) with 8%Q]; lra.
Qed.

Lemma modulateAll_densities (cs : list JsControls) : forall m,
  Forall (fun c => jactivity c <> NotANumber) cs ->
  (exists hat snare,
      m_denHat m = Int hat /\ m_denSnare m = Int snare
      /\ 8 <= hat <= 16 /\ 3 <= snare <= 8) ->
  exists hat snare,
    m_denHat (modulateAll cs m) = Int hat
    /\ m_denSnare (modulateAll cs m) = Int snare
    /\ 8 <= hat <= 16 /\ 3 <= snare <= 8.
Proof.
  induction cs as [|c cs IH]; intros m Hall Hm; [exact Hm|].
  inversion Hall as [|? ? Hc Hrest]; subst.
  unfold modulateAll. cbn [fold_left]. apply IH; [exact Hrest|].
  apply modulate_densities. exact Hc.
Qed.

(** C7, as the code has it: for every seed the six invariants hold after
    [setSeed]; after any run of [updateControls] calls whose activity is a
    number (not NaN) the two densities written are integers, and the
    invariants still hold for kick, snare, clap, bass and arp, while the
    hat's density is kept in [8, 16] and its length in [13, 19], so the
    density can pass the length; the clamp at the head of [euclid] then
    brings it back under the length. ([updateControls] writes no other
    density and no length: [updateControls_frame].) *)
Theorem pattern_invariant_after_seed_and_controls :
  forall (seed : jsstring) (e0 : Engine) (cs : list JsControls),
    Forall (fun c => jactivity c <> NotANumber) cs ->
    let e := setSeed seed e0 in
    let m := modulateAll cs (modulated_of e) in
    pattern_invariant e
    /\ exists hat snare,
         m_denHat m = Int hat /\ m_denSnare m = Int snare
         /\ density_ok (denKick e) (Lk e) /\ density_ok snare (Ls e)
         /\ density_ok (denClaps e) (Ls e) /\ density_ok (denBass e) (Lb e)
         /\ density_ok (denArp e) (La e)
         /\ 8 <= hat <= 16 /\ 13 <= Lh e <= 19
         /\ density_ok (Z.max 0 (Z.min hat (Lh e))) (Lh e).
Proof.
  intros seed e0 cs Hall e m.
  destruct (setSeed_seeded seed e0) as (Hseed & Hsn & Hh). fold e in Hseed, Hsn, Hh.
  pose proof (seeded_roles e Hseed) as (H1 & H2 & H3 & H4 & H5 & H6 & HL).
  assert (HLs : 12 <= Ls e).
  { destruct Hseed as (_ & Hs & _).
    apply In_at_least with (lo := 12) in Hs; [exact Hs|repeat constructor; lia]. }
  destruct (modulateAll_densities cs (modulated_of e) Hall) as (hat & snare & E1 & E2 & R1 & R2).
  { exists (denHat e), (denSnare e).
    split; [reflexivity|]. split; [reflexivity|]. split; lia. }
  split.
  - unfold pattern_invariant, density_ok in *. repeat split; lia.
  - exists hat, snare. fold m in E1, E2.
    split; [exact E1|]. split; [exact E2|].
    unfold density_ok in *. repeat split; lia.
Qed.

(** Seed "abc", then full activity and an infinite one. *)
Lemma pattern_invariant_after_seed_and_controls_witness :
  Forall (fun c => jactivity c <> NotANumber)
    [inject (mkControls 0 0 0 1 0);
     mkJsControls (Finite 0) (Finite 0) (Finite 0) (Infinite false) (Finite 0)]
  /\ exists hat snare,
       m_denHat
         (modulateAll
            [inject (mkControls 0 0 0 1 0);
             mkJsControls (Finite 0) (Finite 0) (Finite 0) (Infinite false)
                          (Finite 0)]
            (modulated_of (setSeed (codeUnits "abc") fieldDefaults))) = Int hat
       /\ m_denSnare
            (modulateAll
               [inject (mkControls 0 0 0 1 0);
                mkJsControls (Finite 0) (Finite 0) (Finite 0) (Infinite false)
                             (Finite 0)]
               (modulated_of (setSeed (codeUnits "abc") fieldDefaults)))
          = Int snare
       /\ 8 <= hat <= 16.
Proof.
  assert (H : Forall (fun c => jactivity c <> NotANumber)
                [inject (mkControls 0 0 0 1 0);
                 mkJsControls (Finite 0) (Finite 0) (Finite 0) (Infinite false)
                              (Finite 0)])
    by (repeat constructor; discriminate).
  split; [exact H|].
  destruct (pattern_invariant_after_seed_and_controls
              (codeUnits "abc") fieldDefaults _ H)
    as (_ & hat & snare & E1 & E2 & _ & _ & _ & _ & _ & R & _).
  exists hat, snare. split; [exact E1|]. split; [exact E2|exact R].
Defined.

(** C7 as stated fails: seeded with "abc" the hat cycle has 15 steps, and
    one [updateControls] call at full activity sets the hat density to
    16. *)
Lemma pattern_invariant_broken_by_updateControls :
  let e := newEngine (codeUnits "abc") in
  let e' := updateControls (mkControls 0 0 0 1 0) 0 e in
  pattern_invariant e /\ Lh e' = 15 /\ denHat e' = 16 /\ ~ pattern_invariant e'.
Proof.
  cbv zeta.
  assert (H15 : Lh (updateControls (mkControls 0 0 0 1 0) 0
                      (newEngine (codeUnits "abc"))) = 15) by (vm_compute; reflexivity).
  assert (H16 : denHat (updateControls (mkControls 0 0 0 1 0) 0
                          (newEngine (codeUnits "abc"))) = 16) by (vm_compute; reflexivity).
  split; [|split; [exact H15|split; [exact H16|]]].
  - destruct (setSeed_seeded (codeUnits "abc") fieldDefaults) as (Hs & ? & ?).
    pose proof (seeded_roles _ Hs). unfold newEngine, pattern_invariant, density_ok in *.
    repeat split; lia.
  - unfold pattern_invariant, density_ok. rewrite H15, H16. lia.
Qed.

Lemma updateControls_triggers (c : AudioControls) (now : Q) (e : Engine) :
  triggers (updateControls c now e) = triggers e.
Proof.
  unfold triggers, updateControls. cbn [trace set_trace].
  rewrite filter_app. cbn [filter is_trigger]. apply app_nil_r.
Qed.

(** C10. [updateControls] writes the tempo, the swing, the hat density and
    the snare density, and sends four [setTargetAtTime] calls (reverb send,
    delay send, two pans); every other field is as it was, and no voice is
    triggered. *)
Theorem updateControls_frame :
  forall (c : AudioControls) (now : Q) (e : Engine),
    let e' := updateControls c now e in
    Lk e' = Lk e /\ Ls e' = Ls e /\ Lh e' = Lh e /\ La e' = La e
    /\ Lb e' = Lb e /\ Lp e' = Lp e
    /\ denKick e' = denKick e /\ denClaps e' = denClaps e
    /\ denBass e' = denBass e /\ denArp e' = denArp e
    /\ scale e' = scale e /\ baseNote e' = baseNote e
    /\ beat e' = beat e /\ nextNoteTime e' = nextNoteTime e
    /\ vol e' = vol e /\ running e' = running e
    /\ rng e' = rng e /\ _int e' = _int e /\ steps e' = steps e
    /\ lookahead e' = lookahead e /\ scheduleAheadTime e' = scheduleAheadTime e
    /\ triggers e' = triggers e
    /\ exists rev del panH panA,
         trace e' = trace e ++
           [ SetTargetAtTime RevGain rev now 0.25;
             SetTargetAtTime DelayGain del now 0.25;
             SetTargetAtTime PanHats panH now 0.1;
             SetTargetAtTime PanArp panA now 0.1 ].
Proof.
  intros c now e e'. subst e'. repeat (split; [reflexivity|]).
  split; [apply updateControls_triggers|]. do 4 eexists. reflexivity.
Qed.

(** ** What a scheduled step touches *)

Lemma voiced_ret (A : Type) (a : A) : voiced (ret a).
Proof.
  intro e. exists a, (rng e), []. unfold ret. rewrite app_nil_r.
  destruct e; reflexivity.
Qed.

Lemma voiced_bind (A B : Type) (m : M A) (k : A -> M B) :
  voiced m -> (forall a, voiced (k a)) -> voiced (bind m k).
Proof.
  intros Hm Hk e. destruct (Hm e) as (a & g & tr & E).
  destruct (Hk a (set_rng g (set_trace (trace e ++ tr) e))) as (b & g' & tr' & E').
  exists b, g', (tr ++ tr'). unfold bind. rewrite E, E'.
  cbn [trace set_rng set_trace]. rewrite app_assoc. reflexivity.
Qed.

Lemma voiced_rand : voiced rand.
Proof.
  intro e. unfold rand, draw. destruct (sfc_next (rng e)) as [v g].
  exists v, g, []. rewrite app_nil_r. reflexivity.
Qed.

Lemma voiced_randInt (m : Z) : voiced (randInt m).
Proof.
  intro e. unfold randInt, drawInt, draw. destruct (sfc_next (rng e)) as [v g].
  eexists; exists g, []. rewrite app_nil_r. reflexivity.
Qed.

Lemma voiced_emit (c : Call) : voiced (emit c).
Proof. intro e. exists tt, (rng e), [c]. reflexivity. Qed.

Lemma voiced_when (b : bool) (m : M unit) : voiced m -> voiced (when b m).
Proof. intro H. destruct b; [exact H|apply voiced_ret]. Qed.

Lemma voiced_gate (a : bool) (q : Q) : voiced (gate a q).
Proof.
  destruct a; cbn [gate]; [|apply voiced_ret].
  apply voiced_bind; [apply voiced_rand|]. intro v. apply voiced_ret.
Qed.

Lemma voiced_hit (k n rot i : Z) : 1 <= Z.min k n -> voiced (hit k n rot i).
Proof.
  intros H e. destruct (euclid_pattern k n H) as (p0 & _ & _ & _ & He).
  unfold hit. rewrite He. eexists; exists (rng e), [].
  rewrite app_nil_r. destruct e; reflexivity.
Qed.

Lemma voiced_trigPad (t : Q) (note : Z) (amp : Q) : voiced (trigPad t note amp).
Proof.
  unfold trigPad.
  repeat (apply voiced_bind; [first [apply voiced_emit | apply voiced_rand]|intro]).
  apply voiced_ret.
Qed.

Create HintDb voiced.

#[local] Hint Resolve voiced_ret voiced_rand voiced_randInt voiced_emit
  voiced_when voiced_gate voiced_hit voiced_trigPad : voiced.

(** In a playable engine [scheduleStep] returns; it logs the step, may
    advance the generator and append to the trace, and leaves every other
    field alone. *)
Lemma scheduleStep_returns (b : Z) (t : Q) (e : Engine) :
  playable e ->
  exists g tr,
    scheduleStep b t e =
    Some (tt, set_rng g (set_steps (steps e ++ [(b, t)])
                           (set_trace (trace e ++ tr) e))).
Proof.
  intros (Hk & Hs & Hh & Hc & Hb & Ha).
  unfold scheduleStep.
  match goal with
  | |- exists g tr, bind ?m ?k e = _ =>
      assert (Hv : voiced (k tt))
  end.
  { repeat (apply voiced_bind; [auto with voiced|intro]);
      try (apply voiced_when);
      repeat (apply voiced_bind; [auto with voiced|intro]);
      auto with voiced. }
  unfold bind at 1. unfold modify at 1.
  destruct (Hv (set_steps (steps e ++ [(b, t)]) e)) as ([] & g & tr & E).
  rewrite E. exists g, tr. reflexivity.
Qed.

(** ** The scheduler loop *)

Lemma Qltb_lt (a b : Q) : Qltb a b = true <-> (a < b)%Q.
Proof.
  unfold Qltb. rewrite negb_true_iff. split; intro H.
  - apply Qnot_le_lt. intro Hle. apply Qle_bool_iff in Hle. congruence.
  - destruct (Qle_bool b a) eqn:E; [|reflexivity].
    apply Qle_bool_iff in E. apply Qle_not_lt in E. contradiction.
Qed.

Lemma Qltb_ge (a b : Q) : Qltb a b = false <-> (b <= a)%Q.
Proof.
  unfold Qltb. rewrite negb_false_iff. apply Qle_bool_iff.
Qed.

Lemma scheduler_loop_0 (cur secPerBeat : Q) (e : Engine) :
  scheduler_loop 0 cur secPerBeat e =
  if Qltb (nextNoteTime e) (cur + scheduleAheadTime e) then None else Some (tt, e).
Proof. reflexivity. Qed.

Lemma scheduler_loop_S (fuel : nat) (cur secPerBeat : Q) (e : Engine) :
  scheduler_loop (S fuel) cur secPerBeat e =
  if Qltb (nextNoteTime e) (cur + scheduleAheadTime e) then
    match scheduleStep (beat e)
            (nextNoteTime e +
             (if Z.rem (beat e) 2 =? 1 then swing e * secPerBeat * 0.5 else 0))%Q e
    with
    | None => None
    | Some (_, e1) =>
        let e2 := set_nextNoteTime (nextNoteTime e1 + 0.25 * secPerBeat)%Q e1 in
        scheduler_loop fuel cur secPerBeat (set_beat (Z.rem (beat e2 + 1) 4096) e2)
    end
  else Some (tt, e).
Proof.
  cbn [scheduler_loop]. destruct (Qltb _ _); [|reflexivity].
  unfold bind at 1. destruct (scheduleStep _ _ e) as [[[] e1]|]; reflexivity.
Qed.

(** How far the grid reaches: step [s] lies before the look-ahead horizon
    of a clock reading up to [t0 + 10] only if [s <= 80]. *)
Lemma grid_reach (t0 cur : Q) (s : nat) :
  (cur <= t0 + 10)%Q -> (grid_time t0 s < cur + 0.15)%Q -> (s <= 80)%nat.
Proof.
  unfold grid_time. intros Hcur Hlt.
  assert (H : (inject_Z (Z.of_nat s) < inject_Z 81)%Q)
    by (change (inject_Z 81) with 81%Q; lra).
  rewrite <- Zlt_Qlt in H. lia.
Qed.

Lemma grid_horizon (t0 : Q) (s : nat) :
  (t0 + 10 + 0.15 <= grid_time t0 s)%Q -> (81 <= s)%nat.
Proof.
  unfold grid_time. intro Hle.
  assert (H : (inject_Z 80 < inject_Z (Z.of_nat s))%Q)
    by (change (inject_Z 80) with 80%Q; lra).
  rewrite <- Zlt_Qlt in H. lia.
Qed.

Lemma grid_time_S (t0 : Q) (s : nat) :
  (grid_time t0 s + 0.25 * (60 / 120) == grid_time t0 (S s))%Q.
Proof.
  unfold grid_time. rewrite Nat2Z.inj_succ. unfold Z.succ.
  rewrite inject_Z_plus. change (inject_Z 1) with 1%Q. field.
Qed.

Lemma on_grid_next (t0 : Q) (e : Engine) (s : nat) (g : Sfc) (tr : list Call) :
  on_grid t0 e s -> (s <= 80)%nat ->
  let t := (nextNoteTime e +
            (if Z.rem (beat e) 2 =? 1 then swing e * (60 / 120) * 0.5 else 0))%Q in
  let e1 := set_rng g (set_steps (steps e ++ [(beat e, t)])
                         (set_trace (trace e ++ tr) e)) in
  let e2 := set_nextNoteTime (nextNoteTime e1 + 0.25 * (60 / 120))%Q e1 in
  on_grid t0 (set_beat (Z.rem (beat e2 + 1) 4096) e2) (S s).
Proof.
  intros (Hbpm & Hsw & Hah & Hplay & Hbeat & Hnn & Hsteps) Hs.
  cbv zeta. unfold on_grid.
  cbn [bpm swing scheduleAheadTime beat nextNoteTime steps
       set_rng set_steps set_trace set_nextNoteTime set_beat].
  split; [exact Hbpm|]. split; [exact Hsw|]. split; [exact Hah|].
  split; [exact Hplay|].
  split; [rewrite Hbeat, Z.rem_small by lia; lia|].
  split; [rewrite Hnn; apply grid_time_S|].
  rewrite seq_S. apply Forall2_app; [exact Hsteps|].
  constructor; [|constructor]. cbn [fst snd Nat.add]. split; [exact Hbeat|].
  rewrite Hsw, Hnn. destruct (Z.rem (beat e) 2 =? 1); ring.
Qed.

(** One tick on the grid: the loop returns, having scheduled the steps up
    to the horizon [cur + 0.15] and none beyond step 80. *)
Lemma scheduler_loop_on_grid (t0 cur : Q) (fuel : nat) : forall e s,
  on_grid t0 e s -> (cur <= t0 + 10)%Q -> (s <= 81)%nat -> (81 - s <= fuel)%nat ->
  exists e' s',
    scheduler_loop fuel cur (60 / 120) e = Some (tt, e')
    /\ on_grid t0 e' s' /\ (s <= s' <= 81)%nat
    /\ (cur + 0.15 <= nextNoteTime e')%Q
    /\ running e' = running e /\ _int e' = _int e.
Proof.
  induction fuel as [|fuel IH]; intros e s Hg Hcur Hs Hf.
  - rewrite scheduler_loop_0.
    pose proof Hg as (_ & _ & Hah & _ & _ & Hnn & _). rewrite Hah.
    destruct (Qltb (nextNoteTime e) (cur + 0.15)) eqn:E.
    + apply Qltb_lt in E. rewrite Hnn in E.
      pose proof (grid_reach t0 cur s Hcur E). lia.
    + apply Qltb_ge in E. exists e, s. split; [reflexivity|].
      split; [exact Hg|]. split; [lia|]. split; [exact E|]. split; reflexivity.
  - rewrite scheduler_loop_S.
    pose proof Hg as (_ & _ & Hah & Hplay & _ & Hnn & _). rewrite Hah.
    destruct (Qltb (nextNoteTime e) (cur + 0.15)) eqn:E.
    + apply Qltb_lt in E. rewrite Hnn in E.
      pose proof (grid_reach t0 cur s Hcur E) as Hs80.
      destruct (scheduleStep_returns (beat e)
                  (nextNoteTime e +
                   (if Z.rem (beat e) 2 =? 1 then swing e * (60 / 120) * 0.5 else 0))%Q
                  e Hplay) as (g & tr & E1).
      rewrite E1.
      pose proof (on_grid_next t0 e s g tr Hg Hs80) as Hg2. cbv zeta in Hg2 |- *.
      destruct (IH _ (S s) Hg2 Hcur ltac:(lia) ltac:(lia))
        as (e' & s' & Hrun & Hg' & Hss & Hnn' & Hr & Hi).
      exists e', s'. split; [exact Hrun|]. split; [exact Hg'|].
      split; [lia|]. split; [exact Hnn'|]. split; [exact Hr|exact Hi].
    + apply Qltb_ge in E. exists e, s. split; [reflexivity|].
      split; [exact Hg|]. split; [lia|]. split; [exact E|]. split; reflexivity.
Qed.

(** ** The transport under its timer *)

Lemma run_app (fuel : nat) (a b : list Event) : forall w,
  run fuel (a ++ b) w =
  match run fuel a w with
  | None => None
  | Some w' => run fuel b w'
  end.
Proof.
  induction a as [|ev a IH]; intro w; [reflexivity|].
  cbn [app run]. destruct (step fuel ev w); [apply IH|reflexivity].
Qed.

(** [setSeed] writes the generator, the lengths, the densities, the scale
    and the base note; the transport and the logs are not touched. *)
Lemma setSeed_transport (seed : jsstring) (e : Engine) :
  let e' := setSeed seed e in
  running e' = running e /\ nextNoteTime e' = nextNoteTime e
  /\ beat e' = beat e /\ bpm e' = bpm e /\ swing e' = swing e
  /\ vol e' = vol e /\ lookahead e' = lookahead e
  /\ scheduleAheadTime e' = scheduleAheadTime e
  /\ _int e' = _int e /\ steps e' = steps e /\ trace e' = trace e.
Proof.
  cbv zeta. unfold setSeed. draw_all. repeat split; reflexivity.
Qed.

Lemma seeded_playable (e : Engine) : seeded e -> playable e.
Proof.
  unfold seeded, playable.
  intros (Hk & Hs & Hh & Ha & Hb & _ & ? & ? & ? & ? & ? & ? & _ & _).
  apply In_at_least with (lo := 13) in Hk; [|repeat constructor; lia].
  apply In_at_least with (lo := 12) in Hs; [|repeat constructor; lia].
  apply In_at_least with (lo := 13) in Hh; [|repeat constructor; lia].
  apply In_at_least with (lo := 10) in Ha; [|repeat constructor; lia].
  apply In_at_least with (lo := 13) in Hb; [|repeat constructor; lia].
  repeat split; lia.
Qed.

(** [start()] on a stopped page, the resume fulfilled at [t0]. *)
Lemma started_on_grid (e0 : Engine) (t0 : Q) (fuel : nat) :
  running e0 = false -> swing e0 = 0%Q -> scheduleAheadTime e0 = 0.15%Q ->
  steps e0 = [] -> playable e0 ->
  exists w,
    run fuel [CallStart; ResumeFulfilled t0]
      (on_engine (set_bpm 120) (mkWorld e0 [] 1 0 [])) = Some w
    /\ on_grid t0 (eng w) 0 /\ timers w = [1%nat] /\ results w = [Started]
    /\ running (eng w) = true.
Proof.
  intros Hr Hsw Hah Hst Hplay.
  unfold on_engine. cbn [run step]. unfold start, start_resumed.
  cbn [eng running set_bpm]. rewrite Hr.
  cbn [eng timers nextTimer awaiting results app].
  eexists. split; [reflexivity|]. cbn [eng timers results].
  split; [|repeat split; reflexivity].
  unfold on_grid.
  cbn [bpm swing scheduleAheadTime beat nextNoteTime steps
       set_int set_beat set_nextNoteTime set_running set_bpm].
  rewrite Hsw, Hah, Hst.
  do 3 (split; [reflexivity|]).
  split; [exact Hplay|].
  split; [reflexivity|]. split; [|constructor].
  unfold grid_time. cbn [Z.of_nat]. change (inject_Z 0) with 0%Q. ring.
Qed.

(** The scenario up to the first tick. *)
Lemma started_at_120 (seed : jsstring) (t0 : Q) (fuel : nat) :
  exists w,
    run fuel [CallStart; ResumeFulfilled t0] (at_120 seed) = Some w
    /\ on_grid t0 (eng w) 0 /\ timers w = [1%nat] /\ results w = [Started]
    /\ running (eng w) = true.
Proof.
  destruct (setSeed_transport seed fieldDefaults)
    as (Hr & _ & _ & _ & Hsw & _ & _ & Hah & _ & Hst & _).
  destruct (setSeed_seeded seed fieldDefaults) as (Hs & _).
  apply seeded_playable in Hs.
  cbv zeta in *. unfold at_120, newWorld.
  apply (started_on_grid (newEngine seed) t0 fuel Hr Hsw Hah Hst Hs).
Qed.

Lemma tick_on_grid (t0 cur : Q) (fuel : nat) (w : World) (s : nat) :
  on_grid t0 (eng w) s -> timers w = [1%nat] ->
  (cur <= t0 + 10)%Q -> (s <= 81)%nat -> (81 <= fuel)%nat ->
  exists w' s',
    step fuel (TimerFires 1 cur) w = Some w'
    /\ on_grid t0 (eng w') s' /\ timers w' = [1%nat]
    /\ (s <= s' <= 81)%nat
    /\ (cur + 0.15 <= nextNoteTime (eng w'))%Q.
Proof.
  intros Hg Ht Hcur Hs Hf. cbn [step]. unfold tick. rewrite Ht.
  cbn [existsb Nat.eqb orb].
  unfold scheduler. pose proof Hg as (Hbpm & _). rewrite Hbpm.
  destruct (scheduler_loop_on_grid t0 cur fuel (eng w) s Hg Hcur Hs ltac:(lia))
    as (e' & s' & Hrun & Hg' & Hss & Hnn & _ & _).
  rewrite Hrun. eexists; exists s'. split; [reflexivity|].
  cbn [eng timers]. split; [exact Hg'|]. split; [reflexivity|].
  split; [lia|exact Hnn].
Qed.

Lemma ticks_on_grid (t0 : Q) (fuel : nat) (ticks : list Q) : forall w s,
  on_grid t0 (eng w) s -> timers w = [1%nat] ->
  Forall (fun c => c <= t0 + 10)%Q ticks -> (s <= 81)%nat -> (81 <= fuel)%nat ->
  exists w' s',
    run fuel (map (TimerFires 1) ticks) w = Some w'
    /\ on_grid t0 (eng w') s' /\ timers w' = [1%nat] /\ (s <= s' <= 81)%nat.
Proof.
  induction ticks as [|c ticks IH]; intros w s Hg Ht Hall Hs Hf.
  - exists w, s. split; [reflexivity|]. split; [exact Hg|].
    split; [exact Ht|lia].
  - inversion Hall as [|? ? Hc Hrest]; subst.
    destruct (tick_on_grid t0 c fuel w s Hg Ht Hc Hs Hf)
      as (w1 & s1 & E1 & Hg1 & Ht1 & Hs1 & _).
    destruct (IH w1 s1 Hg1 Ht1 Hrest ltac:(lia) Hf)
      as (w' & s' & E' & Hg' & Ht' & Hs').
    exists w', s'. cbn [map run]. rewrite E1.
    split; [exact E'|]. split; [exact Hg'|]. split; [exact Ht'|]. lia.
Qed.

Lemma Qltb_comp (a b t : Q) : (a == b)%Q -> Qltb a t = Qltb b t.
Proof.
  intro H. destruct (Qltb b t) eqn:E.
  - apply Qltb_lt. apply Qltb_lt in E. rewrite H. exact E.
  - apply Qltb_ge. apply Qltb_ge in E. rewrite H. exact E.
Qed.

Lemma grid_before (t0 : Q) (i : nat) :
  Qltb (grid_time t0 i) (t0 + 10) = (i <? 80)%nat.
Proof.
  unfold grid_time. destruct (i <? 80)%nat eqn:E.
  - apply Nat.ltb_lt in E. apply Qltb_lt.
    assert (H : (inject_Z (Z.of_nat i) <= inject_Z 79)%Q)
      by (rewrite <- Zle_Qle; lia).
    change (inject_Z 79) with 79%Q in H. lra.
  - apply Nat.ltb_ge in E. apply Qltb_ge.
    assert (H : (inject_Z 80 <= inject_Z (Z.of_nat i))%Q)
      by (rewrite <- Zle_Qle; lia).
    change (inject_Z 80) with 80%Q in H. lra.
Qed.

Lemma due_before_on_grid (t0 : Q) (e : Engine) (s : nat) :
  on_grid t0 e s ->
  length (steps e) = s
  /\ due_before (t0 + 10) e = length (filter (fun i => i <? 80)%nat (seq 0 s)).
Proof.
  intros (_ & _ & _ & _ & _ & _ & H). unfold due_before.
  split; [rewrite (Forall2_length H); apply length_seq|].
  induction H as [|st i sts ks [_ Ht] _ IH]; [reflexivity|].
  cbn [filter]. rewrite (Qltb_comp _ _ _ Ht), grid_before.
  destruct (i <? 80)%nat; cbn [length]; rewrite IH; reflexivity.
Qed.

(** C9, as the code has it. At 120 beats per minute, [start()], the resume
    fulfilled at clock reading [t0], then any ticks with clock readings up
    to [t0 + 10], the last of them at [t0 + 10]: exactly 81 steps are
    scheduled, because the scheduler works 0.15 s ahead of the clock and
    the first step lies 0.05 s after the start; exactly 80 of them have
    their instant before [t0 + 10]. *)
Theorem ten_seconds_at_120 :
  forall (seed : jsstring) (t0 : Q) (ticks : list Q) (fuel : nat),
    Forall (fun c => c <= t0 + 10)%Q ticks -> (81 <= fuel)%nat ->
    exists w,
      run fuel (ten_seconds t0 ticks) (at_120 seed) = Some w
      /\ length (steps (eng w)) = 81%nat
      /\ beat (eng w) = 81
      /\ due_before (t0 + 10) (eng w) = 80%nat.
Proof.
  intros seed t0 ticks fuel Hall Hf. unfold ten_seconds.
  destruct (started_at_120 seed t0 fuel) as (w0 & E0 & Hg0 & Ht0 & _ & _).
  destruct (ticks_on_grid t0 fuel ticks w0 0 Hg0 Ht0 Hall ltac:(lia) Hf)
    as (w1 & s1 & E1 & Hg1 & Ht1 & Hs1).
  destruct (tick_on_grid t0 (t0 + 10) fuel w1 s1 Hg1 Ht1 ltac:(lra) ltac:(lia) Hf)
    as (w2 & s2 & E2 & Hg2 & _ & Hs2 & Hnn).
  exists w2. rewrite run_app, E0, run_app, E1. cbn [run]. rewrite E2.
  split; [reflexivity|].
  pose proof Hg2 as (_ & _ & _ & _ & Hbeat & Hnn2 & _).
  rewrite Hnn2 in Hnn. apply grid_horizon in Hnn.
  assert (s2 = 81%nat) by lia. subst s2.
  destruct (due_before_on_grid t0 (eng w2) 81 Hg2) as [Hlen Hdue].
  split; [exact Hlen|]. split; [exact Hbeat|]. rewrite Hdue. reflexivity.
Qed.

(** Ticks at 1 s, 2.5 s, 5 s and 9.975 s, then the one at 10 s. *)
Lemma ten_seconds_at_120_witness :
  exists w,
    run 100 (ten_seconds 0 [1; 2.5; 5; 9.975]%Q) (at_120 []) = Some w
    /\ length (steps (eng w)) = 81%nat
    /\ beat (eng w) = 81
    /\ due_before (0 + 10) (eng w) = 80%nat.
Proof.
  apply (ten_seconds_at_120 [] 0 [1; 2.5; 5; 9.975]%Q 100).
  - repeat constructor; unfold Qle; cbn; lia.
  - lia.
Defined.

(** C9 as stated fails: with ticks every 25 ms for ten seconds the
    scheduler has scheduled 81 steps, not 80. *)
Lemma ten_seconds_at_120_not_80 :
  steps_after 100 first_ten_seconds (at_120 []) = Some 81%nat
  /\ steps_after 100 first_ten_seconds (at_120 []) <> Some 80%nat.
Proof.
  assert (H : steps_after 100 first_ten_seconds (at_120 []) = Some 81%nat)
    by (vm_compute; reflexivity).
  split; [exact H|]. rewrite H. discriminate.
Qed.

(** ** Stop *)

Lemma clearInterval_only (id : nat) (ts : list nat) :
  (forall t, In t ts -> t = id) -> clearInterval id ts = [].
Proof.
  unfold clearInterval. induction ts as [|t ts IH]; intro H; [reflexivity|].
  cbn [filter]. rewrite (H t (or_introl eq_refl)), Nat.eqb_refl. cbn [negb].
  apply IH. intros t' Ht'. apply H. right. exact Ht'.
Qed.

(** With no timer installed and no [start] suspended, whatever happens
    short of a new [start()] schedules no step and triggers no voice. *)
Lemma idle_run (fuel : nat) (evs : list Event) : forall w,
  timers w = [] -> awaiting w = 0%nat -> running (eng w) = false ->
  Forall not_start evs ->
  exists w',
    run fuel evs w = Some w'
    /\ timers w' = [] /\ awaiting w' = 0%nat /\ running (eng w') = false
    /\ triggers (eng w') = triggers (eng w) /\ steps (eng w') = steps (eng w).
Proof.
  induction evs as [|ev evs IH]; intros w Ht Ha Hr Hall.
  - exists w. repeat split; assumption.
  - inversion Hall as [|? ? Hev Hrest]; subst.
    assert (Hstep : exists w1, step fuel ev w = Some w1
              /\ timers w1 = [] /\ awaiting w1 = 0%nat /\ running (eng w1) = false
              /\ triggers (eng w1) = triggers (eng w)
              /\ steps (eng w1) = steps (eng w)).
    { destruct ev; cbn [step not_start] in *; try contradiction.
      - unfold start_resumed. rewrite Ha. exists w. repeat split; assumption.
      - unfold start_failed. rewrite Ha. exists w. repeat split; assumption.
      - unfold stop. rewrite Hr. exists w. repeat split; assumption.
      - unfold tick. rewrite Ht. cbn [existsb]. exists w. repeat split; assumption.
      - eexists. split; [reflexivity|]. unfold on_engine. cbn [eng timers awaiting].
        rewrite updateControls_triggers. repeat split; assumption.
      - eexists. split; [reflexivity|]. unfold on_engine. cbn [eng timers awaiting].
        destruct (setSeed_transport seed (eng w))
          as (Hr' & _ & _ & _ & _ & _ & _ & _ & _ & Hst & Htr).
        cbv zeta in *. unfold triggers. rewrite Hr', Hst, Htr.
        repeat split; assumption.
      - eexists. split; [reflexivity|]. unfold on_engine. cbn [eng timers awaiting].
        repeat split; assumption. }
    destruct Hstep as (w1 & E1 & Ht1 & Ha1 & Hr1 & Htr1 & Hst1).
    destruct (IH w1 Ht1 Ha1 Hr1 Hrest) as (w' & E' & ? & ? & ? & Htr' & Hst').
    exists w'. cbn [run]. rewrite E1. repeat split; try assumption; congruence.
Qed.

Lemma stop_settled (fuel : nat) (w : World) :
  settled w ->
  exists w',
    step fuel CallStop w = Some w'
    /\ timers w' = [] /\ awaiting w' = 0%nat /\ running (eng w') = false
    /\ triggers (eng w') = triggers (eng w) /\ steps (eng w') = steps (eng w).
Proof.
  intros [Ha Ht]. cbn [step]. unfold stop. destruct (running (eng w)) eqn:Hr.
  - eexists. split; [reflexivity|]. cbn [eng timers awaiting _int set_running].
    split; [|repeat split; assumption].
    destruct (_int (eng w)) as [id|] eqn:Hi.
    + apply clearInterval_only. intros t Hin.
      destruct (Ht t Hin) as [_ H]. congruence.
    + destruct (timers w) as [|t ts]; [reflexivity|].
      destruct (Ht t (or_introl eq_refl)) as [_ H]. discriminate.
  - exists w. split; [reflexivity|]. split; [|repeat split; assumption].
    destruct (timers w) as [|t ts]; [reflexivity|].
    destruct (Ht t (or_introl eq_refl)) as [H _]. congruence.
Qed.

(** C4, as the code has it. When no [start()] is suspended at its [await],
    [stop()] clears the timer, and whatever follows short of a new
    [start()] (timer handles firing, resumes settling, controls, reseeding,
    further stops) schedules no step and triggers no voice. The gate is
    the cleared timer: [scheduler] and [scheduleStep] do not read the
    running flag. *)
Theorem no_dispatch_after_stop :
  forall (fuel : nat) (w : World) (evs : list Event),
    settled w -> Forall not_start evs ->
    exists w',
      run fuel (CallStop :: evs) w = Some w'
      /\ triggers (eng w') = triggers (eng w)
      /\ steps (eng w') = steps (eng w)
      /\ timers w' = [] /\ running (eng w') = false.
Proof.
  intros fuel w evs Hs Hall.
  destruct (stop_settled fuel w Hs) as (w1 & E1 & Ht1 & Ha1 & Hr1 & Htr1 & Hst1).
  destruct (idle_run fuel evs w1 Ht1 Ha1 Hr1 Hall)
    as (w' & E' & Ht' & _ & Hr' & Htr' & Hst').
  exists w'. cbn [run]. rewrite E1.
  repeat split; try assumption; congruence.
Qed.

(** A page whose [start()] ran to its end is settled. *)
Lemma no_dispatch_after_stop_witness :
  exists w w',
    run 10 [CallStart; ResumeFulfilled 0] (newWorld []) = Some w
    /\ run 10 (CallStop :: [TimerFires 1 0; ResumeFulfilled 0; CallStop]) w = Some w'
    /\ triggers (eng w') = triggers (eng w)
    /\ steps (eng w') = steps (eng w)
    /\ timers w' = [] /\ running (eng w') = false.
Proof.
  eexists. 
  assert (E : run 10 [CallStart; ResumeFulfilled 0] (newWorld [])
              = Some (mkWorld
                        (set_int (Some 1%nat)
                           (set_beat 0
                              (set_nextNoteTime (0 + 0.05)%Q
                                 (set_running true (newEngine [])))))
                        [1%nat] 2 0 [Started])) by (vm_compute; reflexivity).
  match type of E with _ = Some ?w0 =>
    assert (Hs : settled w0)
      by (split; [reflexivity|];
          intros t [<- | []]; split; vm_compute; reflexivity);
    assert (Hn : Forall not_start [TimerFires 1 0; ResumeFulfilled 0; CallStop])
      by (repeat constructor);
    destruct (no_dispatch_after_stop 10 w0
                [TimerFires 1 0; ResumeFulfilled 0; CallStop] Hs Hn)
      as (w' & E' & H1 & H2 & H3 & H4)
  end.
  exists w'. split; [exact E|]. repeat split; assumption.
Defined.

(** C4 as stated fails. [stop()] called while [start()] is suspended at
    its [await] has no timer to clear; when the resume is fulfilled the
    timer is installed all the same, and its first tick triggers the snare,
    the hat and the arp of step 0, after [stop()] returned and with the
    running flag false. *)
Lemma dispatch_after_stop :
  exists w1 w2 freq amp,
    run 10 [CallStart; CallStop] (newWorld []) = Some w1
    /\ running (eng w1) = false /\ triggers (eng w1) = []
    /\ run 10 [ResumeFulfilled 0; TimerFires 1 0] w1 = Some w2
    /\ running (eng w2) = false
    /\ triggers (eng w2)
       = [TrigSnare 0.05 freq; TrigHat 0.05 amp; TrigArp 0.05 47 0.18].
Proof.
  eexists; eexists; eexists; eexists.
  split; [vm_compute; reflexivity|].
  split; [vm_compute; reflexivity|].
  split; [vm_compute; reflexivity|].
  split; [vm_compute; reflexivity|].
  split; vm_compute; reflexivity.
Qed.

(** C5, as the code has it. [start()] on a stopped page whose resume is
    rejected: the promise of [start()] is rejected, so the caller is told;
    no timer is installed; but the running flag, set before the [await],
    stays true, and a further [start()] returns at once without starting
    anything. *)
Theorem start_rejected :
  forall (fuel : nat) (w : World),
    running (eng w) = false -> awaiting w = 0%nat ->
    exists w' w'',
      run fuel [CallStart; ResumeRejected] w = Some w'
      /\ results w' = results w ++ [Rejected]
      /\ timers w' = timers w
      /\ _int (eng w') = _int (eng w)
      /\ running (eng w') = true
      /\ awaiting w' = 0%nat
      /\ step fuel CallStart w' = Some w''
      /\ results w'' = results w' ++ [ReturnedEarly]
      /\ timers w'' = timers w' /\ awaiting w'' = 0%nat.
Proof.
  intros fuel w Hr Ha. cbn [run step]. unfold start at 1. rewrite Hr.
  unfold start_failed. cbn [awaiting eng timers nextTimer results].
  eexists; eexists. split; [reflexivity|].
  unfold start. cbn [eng timers results awaiting running set_running _int].
  repeat split; try reflexivity; exact Ha.
Qed.

Lemma start_rejected_witness :
  exists w' w'',
    run 0 [CallStart; ResumeRejected] (newWorld []) = Some w'
    /\ results w' = results (newWorld []) ++ [Rejected]
    /\ timers w' = timers (newWorld [])
    /\ _int (eng w') = _int (eng (newWorld []))
    /\ running (eng w') = true
    /\ awaiting w' = 0%nat
    /\ step 0 CallStart w' = Some w''
    /\ results w'' = results w' ++ [ReturnedEarly]
    /\ timers w'' = timers w' /\ awaiting w'' = 0%nat.
Proof.
  apply (start_rejected 0 (newWorld [])); vm_compute; reflexivity.
Defined.

(** C5 as stated fails: after the rejected resume the engine is flagged
    running, not stopped. *)
Lemma start_rejected_not_stopped :
  exists w,
    run 0 [CallStart; ResumeRejected] (newWorld []) = Some w
    /\ results w = [Rejected] /\ timers w = []
    /\ running (eng w) = true /\ running (eng w) <> false.
Proof.
  eexists. split; [vm_compute; reflexivity|].
  split; [reflexivity|]. split; [reflexivity|].
  split; [vm_compute; reflexivity|]. vm_compute. discriminate.
Qed.

(** ** Stop, whenever no start is left suspended *)

Lemma framed_ret (A : Type) (a : A) : framed (ret a).
Proof.
  intros e a' e' H. injection H as <- <-. exists (rng e), [].
  rewrite app_nil_r. destruct e; reflexivity.
Qed.

Lemma framed_bind (A B : Type) (m : M A) (k : A -> M B) :
  framed m -> (forall a, framed (k a)) -> framed (bind m k).
Proof.
  intros Hm Hk e b e' H. unfold bind in H.
  destruct (m e) as [[a e1]|] eqn:E; [|discriminate].
  destruct (Hm e a e1 E) as (g & tr & ->).
  destruct (Hk a _ b e' H) as (g' & tr' & ->).
  exists g', (tr ++ tr'). cbn [trace set_rng set_trace].
  rewrite app_assoc. reflexivity.
Qed.

Lemma voiced_framed (A : Type) (m : M A) : voiced m -> framed m.
Proof.
  intros Hv e a e' H. destruct (Hv e) as (a0 & g & tr & E).
  rewrite E in H. injection H as <- <-. exists g, tr. reflexivity.
Qed.

Lemma framed_hit (k n rot i : Z) : framed (hit k n rot i).
Proof.
  intros e a e' H. unfold hit in H. destruct (euclid k n rot); [|discriminate].
  injection H as <- <-. exists (rng e), []. rewrite app_nil_r.
  destruct e; reflexivity.
Qed.

Lemma framed_when (b : bool) (m : M unit) : framed m -> framed (when b m).
Proof. intro H. destruct b; [exact H|apply framed_ret]. Qed.

Create HintDb framed.

#[local] Hint Resolve framed_ret framed_hit framed_when : framed.
#[local] Hint Extern 1 (framed rand) => apply voiced_framed, voiced_rand : framed.
#[local] Hint Extern 1 (framed (randInt _)) =>
  apply voiced_framed, voiced_randInt : framed.
#[local] Hint Extern 1 (framed (emit _)) => apply voiced_framed, voiced_emit : framed.
#[local] Hint Extern 1 (framed (gate _ _)) => apply voiced_framed, voiced_gate : framed.
#[local] Hint Extern 1 (framed (trigPad _ _ _)) =>
  apply voiced_framed, voiced_trigPad : framed.

(** Whenever [scheduleStep] returns, it has logged the step and written at
    most the generator and the trace. *)
Lemma scheduleStep_frame (b : Z) (t : Q) (e e' : Engine) (u : unit) :
  scheduleStep b t e = Some (u, e') ->
  exists g tr,
    e' = set_rng g (set_steps (steps e ++ [(b, t)]) (set_trace (trace e ++ tr) e)).
Proof.
  unfold scheduleStep.
  match goal with
  | |- bind ?m ?k e = _ -> _ => assert (Hf : framed (k tt))
  end.
  { repeat (apply framed_bind; [auto with framed|intro]);
      try (apply framed_when);
      repeat (apply framed_bind; [auto with framed|intro]);
      auto with framed. }
  unfold bind at 1. unfold modify at 1. intro H.
  destruct (Hf _ _ _ H) as (g & tr & ->). exists g, tr. reflexivity.
Qed.

(** The scheduler reads neither the running flag nor the timer handle, and
    writes neither. *)
Lemma scheduler_loop_frame (cur secPerBeat : Q) (fuel : nat) : forall e e' u,
  scheduler_loop fuel cur secPerBeat e = Some (u, e') ->
  running e' = running e /\ _int e' = _int e.
Proof.
  induction fuel as [|fuel IH]; intros e e' u H.
  - rewrite scheduler_loop_0 in H. destruct (Qltb _ _); [discriminate|].
    injection H as _ <-. split; reflexivity.
  - rewrite scheduler_loop_S in H. destruct (Qltb _ _).
    + destruct (scheduleStep _ _ e) as [[u1 e1]|] eqn:E; [|discriminate].
      destruct (scheduleStep_frame _ _ _ _ _ E) as (g & tr & ->).
      cbv zeta in H. apply IH in H. exact H.
    + injection H as _ <-. split; reflexivity.
Qed.

Lemma step_settled (fuel : nat) (ev : Event) (w w' : World) :
  not_start ev -> settled w -> step fuel ev w = Some w' -> settled w'.
Proof.
  intros Hev [Ha Ht] H. destruct ev; cbn [not_start step] in *; try contradiction.
  - unfold start_resumed in H. rewrite Ha in H. injection H as <-.
    split; assumption.
  - unfold start_failed in H. rewrite Ha in H. injection H as <-.
    split; assumption.
  - destruct (stop_settled fuel w (conj Ha Ht)) as (w1 & E1 & Ht1 & Ha1 & _).
    cbn [step] in E1. rewrite E1 in H. injection H as <-.
    split; [exact Ha1|]. rewrite Ht1. intros t [].
  - unfold tick in H.
    destruct (existsb _ _); [|injection H as <-; split; assumption].
    destruct (scheduler fuel cur (eng w)) as [[u e']|] eqn:E; [|discriminate].
    injection H as <-. apply scheduler_loop_frame in E. destruct E as [Er Ei].
    split; [exact Ha|]. cbn [timers eng]. rewrite Er, Ei. exact Ht.
  - injection H as <-. split; [exact Ha|exact Ht].
  - injection H as <-. split; [exact Ha|]. unfold on_engine. cbn [timers eng].
    destruct (setSeed_transport seed (eng w))
      as (Hr & _ & _ & _ & _ & _ & _ & _ & Hi & _).
    cbv zeta in *. rewrite Hr, Hi. exact Ht.
  - injection H as <-. split; [exact Ha|exact Ht].
Qed.

Lemma start_settled (fuel : nat) (ev : Event) (w w' : World) :
  match ev with ResumeFulfilled _ | ResumeRejected => True | _ => False end ->
  settled w -> run fuel [CallStart; ev] w = Some w' -> settled w'.
Proof.
  intros Hev [Ha Ht] H.
  assert (Hrun : running (eng w) = true \/ timers w = []).
  { destruct (timers w) as [|t ts] eqn:E; [right; reflexivity|left].
    apply (Ht t). left. reflexivity. }
  cbn [run step] in H. unfold start in H. destruct (running (eng w)) eqn:Hr.
  - destruct ev; try contradiction;
      cbn [step] in H; unfold start_resumed, start_failed in H;
      cbn [awaiting eng timers nextTimer results] in H;
      rewrite Ha in H; injection H as <-;
      (split; [reflexivity|]; cbn [timers eng]; intros t Hin; split;
       [exact Hr|apply (Ht t Hin)]).
  - destruct Hrun as [Hrun|Hno]; [discriminate|].
    destruct ev; try contradiction;
      cbn [step] in H; unfold start_resumed, start_failed in H;
      cbn [awaiting eng timers nextTimer results] in H;
      rewrite Hno in H; injection H as <-.
    + split; [exact Ha|]. cbn [timers eng app]. intros t [<- | []].
      split; reflexivity.
    + split; [exact Ha|]. cbn [timers]. intros t [].
Qed.

(** From a settled page, any serial use of the engine leaves it settled. *)
Lemma run_settled (fuel : nat) (n : nat) : forall evs w w',
  (length evs <= n)%nat -> serial evs -> settled w ->
  run fuel evs w = Some w' -> settled w'.
Proof.
  induction n as [|n IH]; intros evs w w' Hn Hser Hs H.
  - destruct evs; [|cbn in Hn; lia]. injection H as <-. exact Hs.
  - destruct evs as [|ev rest]; [injection H as <-; exact Hs|].
    cbn [length] in Hn.
    destruct ev.
    1:{ cbn [serial] in Hser.
        destruct rest as [|ev2 rest']; [contradiction|].
        change (CallStart :: ev2 :: rest') with ([CallStart; ev2] ++ rest') in H.
        rewrite run_app in H.
        destruct (run fuel [CallStart; ev2] w) as [w1|] eqn:E; [|discriminate].
        cbn [length] in Hn.
        destruct ev2; try contradiction;
          (apply (IH rest' w1 w'); [lia|exact Hser| |exact H];
           eapply start_settled; [|exact Hs|exact E]; exact I). }
    all: cbn [run] in H;
      match type of H with
      | match step ?f ?ev ?w0 with _ => _ end = _ =>
          destruct (step f ev w0) as [w1|] eqn:E; [|discriminate];
          apply (IH rest w1 w'); [lia|exact Hser| |exact H];
          apply (step_settled f ev w0 w1); [exact I|exact Hs|exact E]
      end.
Qed.

Lemma newWorld_settled (seed : jsstring) : settled (newWorld seed).
Proof. split; [reflexivity|]. intros t []. Qed.

(** Supporting C4: on a page used serially from its construction, whatever
    its history, [stop()] ends all dispatch until the next [start()]. *)
Lemma no_dispatch_after_stop_serial (fuel : nat) (seed : jsstring)
      (history later : list Event) (w : World) :
  serial history -> run fuel history (newWorld seed) = Some w ->
  Forall not_start later ->
  exists w',
    run fuel (CallStop :: later) w = Some w'
    /\ triggers (eng w') = triggers (eng w)
    /\ steps (eng w') = steps (eng w)
    /\ timers w' = [] /\ running (eng w') = false.
Proof.
  intros Hser Hrun Hlater.
  assert (Hs : settled w)
    by (apply (run_settled fuel (length history) history (newWorld seed) w);
        [lia|exact Hser|apply newWorld_settled|exact Hrun]).
  destruct (stop_settled fuel w Hs) as (w1 & E1 & Ht1 & Ha1 & Hr1 & Htr1 & Hst1).
  destruct (idle_run fuel later w1 Ht1 Ha1 Hr1 Hlater)
    as (w' & E' & Ht' & _ & Hr' & Htr' & Hst').
  exists w'. cbn [run]. rewrite E1.
  repeat split; try assumption; congruence.
Qed.

(** * Further properties of the code *)

(** ** Euclidean rhythms *)

Lemma euclid_returns_k_of_n_witness :
  1 <= 5 <= 13
  /\ exists p, euclid 5 13 2 = Some p
              /\ len p = 13 /\ count_true p = 5
              /\ Forall (fun x => x = 0 \/ x = 1) p
              /\ (5 = 13 -> p = repeat 1 (Z.to_nat 13)).
Proof. split; [lia|]. apply (euclid_returns_k_of_n 5 13 2). lia. Defined.

Lemma euclid_rotation_witness :
  1 <= 3 <= 8
  /\ exists p0 p,
      euclid 3 8 0 = Some p0
      /\ euclid 3 8 (-3) = Some p
      /\ p = rotl (Z.to_nat ((-3) mod 8)) p0
      /\ euclid 3 8 (-3 + 8) = Some p
      /\ euclid 3 8 ((((-3) mod 8) + 8) mod 8) = Some p
      /\ euclid 3 8 (normRot (-3) 8) = Some p
      /\ Permutation (gaps p) (gaps p0).
Proof. split; [lia|]. apply (euclid_rotation 3 8 (-3)). lia. Defined.

Lemma rotl_all_true (r : nat) (m : nat) : rotl r (repeat 1 m) = repeat 1 m.
Proof.
  assert (Hb : Forall (fun x => x = 0 \/ x = 1) (rotl r (repeat 1 m))).
  { apply Forall_forall. intros x Hx.
    apply (Permutation_in _ (rotl_perm _ r (repeat 1 m))) in Hx.
    apply repeat_spec in Hx. right. exact Hx. }
  rewrite (all_true_pattern _ Hb).
  - rewrite rotl_length, repeat_length. reflexivity.
  - rewrite (count_true_perm _ _ (rotl_perm _ r (repeat 1 m))).
    unfold len. rewrite rotl_length. unfold count_true. f_equal. clear Hb.
    induction m as [|m IH]; [reflexivity|]. cbn [repeat filter Z.eqb negb length].
    rewrite IH. reflexivity.
Qed.

(** X4. A density at or above the length is clamped to the length: the
    pattern is all onsets, whatever the rotation. *)
Theorem euclid_full (k n rot : Z) :
  1 <= n <= k -> euclid k n rot = Some (repeat 1 (Z.to_nat n)).
Proof.
  intro H. destruct (euclid_pattern k n ltac:(lia)) as (p0 & Hl & Hc & Hb & He).
  rewrite He. f_equal.
  assert (Hp0 : p0 = repeat 1 (Z.to_nat n)).
  { rewrite (all_true_pattern p0 Hb) by lia. f_equal. unfold len in Hl. lia. }
  rewrite Hp0. apply rotl_all_true.
Qed.

Lemma euclid_full_witness :
  1 <= 13 <= 16 /\ euclid 16 13 2 = Some (repeat 1 (Z.to_nat 13)).
Proof. split; [lia|]. apply (euclid_full 16 13 2). lia. Defined.

(** X5. For every length up to 64 (the engine's lengths are at most 19) the
    pattern is maximally even: under every rotation there are [k] gaps, each
    of them [n / k] rounded down or up. *)
Theorem euclid_even_upto_64 (k n r : Z) :
  1 <= k <= n -> n <= 64 ->
  exists p, euclid k n r = Some p
            /\ len (gaps p) = k
            /\ Forall (fun g => g = n / k \/ g = (n + k - 1) / k) (gaps p).
Proof.
  intros Hk Hn.
  assert (Hall : even_gaps_upto 64 = true) by (vm_compute; reflexivity).
  unfold even_gaps_upto in Hall. rewrite forallb_forall in Hall.
  specialize (Hall (Z.to_nat n)). rewrite in_seq in Hall.
  specialize (Hall ltac:(lia)). rewrite forallb_forall in Hall.
  specialize (Hall (Z.to_nat k)). rewrite in_seq in Hall.
  specialize (Hall ltac:(lia)). rewrite !Z2Nat.id in Hall by lia.
  unfold even_gaps in Hall.
  destruct (euclid_pattern k n ltac:(lia)) as (p0 & Hl & _ & _ & He).
  rewrite He in Hall. rewrite He.
  change (0 mod n) with 0 in Hall. change (Z.to_nat 0) with 0%nat in Hall.
  rewrite rotl_0 in Hall. apply andb_true_iff in Hall. destruct Hall as [Hg Hc].
  pose proof (Z.mod_pos_bound r n ltac:(lia)) as Hr.
  assert (Hperm : Permutation (gaps (rotl (Z.to_nat (r mod n)) p0)) (gaps p0))
    by (apply gaps_rotl; unfold len in Hl; lia).
  eexists. split; [reflexivity|]. split.
  - apply Z.eqb_eq in Hc. unfold len in *.
    rewrite (Permutation_length Hperm). exact Hc.
  - apply (Permutation_Forall (Permutation_sym Hperm)).
    apply Forall_forall. intros g Hin.
    rewrite forallb_forall in Hg. specialize (Hg g Hin).
    apply orb_true_iff in Hg. destruct Hg as [Hg|Hg]; apply Z.eqb_eq in Hg; auto.
Qed.

Lemma euclid_even_upto_64_witness :
  1 <= 9 <= 17 /\ 17 <= 64
  /\ exists p, euclid 9 17 2 = Some p
               /\ len (gaps p) = 9
               /\ Forall (fun g => g = 17 / 9 \/ g = (17 + 9 - 1) / 9) (gaps p).
Proof.
  split; [lia|]. split; [lia|]. apply (euclid_even_upto_64 9 17 2); lia.
Defined.

(** *** Where the pattern starts *)

Lemma concat_times_head (q x : Z) (t : list Z) :
  1 <= q ->
  exists s, concat_times (Int q) (Some (x :: t)) = Some (x :: s).
Proof.
  intro Hq. cbn [concat_times].
  replace (q <=? 0) with false by (symmetry; apply Z.leb_gt; lia).
  destruct (Z.to_nat q) as [|m] eqn:E; [lia|].
  cbn [option_map repeat concat app]. eexists. reflexivity.
Qed.

(** A level whose count is at least 1 starts as the level below it. *)
Lemma build_next_head (cs rs : list num) (lvl : nat) (q rz : Z) (y : num)
      (x : Z) (a b : list Z) :
  length cs = lvl -> length rs = S lvl ->
  nth lvl rs NaN = Int rz -> 1 <= rz -> 1 <= q ->
  build cs rs (S lvl) = Some a -> build cs rs lvl = Some b ->
  starts_with x a ->
  exists a1,
    build (cs ++ [Int q]) (rs ++ [y]) (S (S lvl)) = Some a1 /\ starts_with x a1.
Proof.
  intros Hc Hr Hrz Hpos Hq Ha Hb [t ->].
  rewrite build_level.
  rewrite (nth_last_pushed cs (Int q) NaN lvl Hc).
  rewrite !build_pushed by lia. rewrite Ha, Hb.
  rewrite nth_before_pushed by lia. rewrite Hrz.
  destruct (concat_times_head q x t Hq) as [s Hs]. rewrite Hs.
  cbn [nonzero]. replace (rz =? 0) with false by (symmetry; apply Z.eqb_neq; lia).
  cbn [negb option_map app]. eexists. split; [reflexivity|]. eexists. reflexivity.
Qed.

(** Past the first turn of the loop the divisor is the larger of the two,
    so every count is at least 1 and the head of the block is passed up to
    the pattern. *)
Lemma bj_loop_head (x : Z) (fuel : nat) :
  forall (cs rs : list num) (dz rz : Z) (lvl : nat) (a b : list Z) out,
    length cs = lvl -> length rs = S lvl ->
    nth lvl rs NaN = Int rz -> 1 <= rz <= dz ->
    build cs rs (S lvl) = Some a -> build cs rs lvl = Some b ->
    starts_with x a ->
    bj_loop fuel cs rs (Int dz) lvl = Some out ->
    let '(cs', rs', d', lvl') := out in
    exists p, build (cs' ++ [d']) rs' (S (S lvl')) = Some p /\ starts_with x p.
Proof.
  induction fuel as [|fuel IH];
    intros cs rs dz rz lvl a b out Hc Hr Hrz Hd Ha Hb Hx Hloop; [discriminate|].
  cbn [bj_loop] in Hloop. rewrite Hrz in Hloop. cbn [floor_div js_rem] in Hloop.
  replace (rz =? 0) with false in Hloop by (symmetry; apply Z.eqb_neq; lia).
  rewrite (nth_last_pushed rs _ NaN (S lvl) Hr) in Hloop.
  rewrite Z.rem_mod_nonneg in Hloop by lia.
  pose proof (Z.mod_pos_bound dz rz ltac:(lia)) as Hmod.
  assert (Hq : 1 <= dz / rz)
    by (apply Z.div_le_lower_bound; lia).
  destruct (build_next_head cs rs lvl (dz / rz) rz (Int (dz mod rz)) x a b
              Hc Hr Hrz ltac:(lia) Hq Ha Hb Hx) as [a1 [Ha1 Hx1]].
  assert (Ha' : build (cs ++ [Int (dz / rz)]) (rs ++ [Int (dz mod rz)]) (S lvl)
                = Some a) by (rewrite build_pushed by lia; exact Ha).
  assert (Hc1 : length (cs ++ [Int (dz / rz)]) = S lvl)
    by (rewrite length_app; cbn; lia).
  assert (Hr1 : length (rs ++ [Int (dz mod rz)]) = S (S lvl))
    by (rewrite length_app; cbn; lia).
  assert (Hrz1 : nth (S lvl) (rs ++ [Int (dz mod rz)]) NaN = Int (dz mod rz))
    by (apply nth_last_pushed; exact Hr).
  cbn [le_one] in Hloop. destruct (dz mod rz <=? 1) eqn:E.
  - injection Hloop as <-.
    rewrite build_level.
    rewrite (nth_last_pushed _ (Int rz) NaN (S lvl) Hc1).
    rewrite (build_pushed_counts (cs ++ [Int (dz / rz)]) _ [Int rz] (S (S lvl)))
      by lia.
    rewrite (build_pushed_counts (cs ++ [Int (dz / rz)]) _ [Int rz] (S lvl))
      by lia.
    rewrite Ha1, Ha', Hrz1. destruct Hx1 as [t1 ->].
    destruct (concat_times_head rz x t1 ltac:(lia)) as [s Hs]. rewrite Hs.
    destruct (nonzero (Int (dz mod rz))); cbn [option_map app];
      eexists; (split; [reflexivity|]); eexists; reflexivity.
  - apply Z.leb_gt in E.
    apply (IH (cs ++ [Int (dz / rz)]) (rs ++ [Int (dz mod rz)])
              rz (dz mod rz) (S lvl) a1 a out); try assumption; lia.
Qed.

(** X6. The unrotated pattern starts on an onset exactly when more than half
    of its steps are onsets; a sparser pattern starts on a rest (the single
    onset of [euclid(1, n, 0)] is the last step, not the first). *)
Theorem euclid_first_step (k n : Z) :
  1 <= k <= n ->
  exists p, euclid k n 0 = Some p
            /\ starts_with (if n <? 2 * k then 1 else 0) p.
Proof.
  intro Hk. unfold euclid, euclid_fuel.
  replace (Z.min k n) with k by lia. replace (Z.max 0 k) with k by lia.
  set (x := if n <? 2 * k then 1 else 0).
  assert (Hx : x = 0 \/ x = 1) by (subst x; destruct (n <? 2 * k); auto).
  (* the first turn of the loop *)
  cbn [bj_loop nth app floor_div js_rem].
  replace (k =? 0) with false by (symmetry; apply Z.eqb_neq; lia).
  rewrite Z.rem_mod_nonneg by lia.
  pose proof (Z.mod_pos_bound (n - k) k ltac:(lia)) as Hmod.
  set (q0 := (n - k) / k). set (r1 := (n - k) mod k) in *.
  assert (Hq0 : 0 <= q0) by (apply Z.div_pos; lia).
  assert (Hq0x : (1 <= q0 /\ x = 0) \/ (q0 = 0 /\ x = 1)).
  { subst x q0. destruct (n <? 2 * k) eqn:E.
    - apply Z.ltb_lt in E. right. split; [|reflexivity].
      apply Z.div_small. lia.
    - apply Z.ltb_ge in E. left. split; [|reflexivity].
      apply Z.div_le_lower_bound; lia. }
  assert (Ha1 : exists t, build [Int q0] [Int k; Int r1] 2 = Some (x :: t)).
  { rewrite build_level. cbn [nth build nonzero].
    replace (k =? 0) with false by (symmetry; apply Z.eqb_neq; lia).
    cbn [negb]. destruct Hq0x as [[Hq ->] | [-> ->]].
    - destruct (concat_times_head q0 0 [] Hq) as [s Hs]. rewrite Hs.
      eexists. reflexivity.
    - eexists. reflexivity. }
  destruct Ha1 as [t1 Ha1].
  assert (Hfinish : forall cs rs d lvl p,
             build (cs ++ [d]) rs (S (S lvl)) = Some p -> starts_with x p ->
             exists p',
               match build (cs ++ [d]) rs (S (S lvl)) with
               | Some pattern =>
                   Some (map (fun y => if y =? 0 then 0 else 1)
                           (slice (normRot 0 n) (Z.of_nat (length pattern)) pattern
                            ++ slice 0 (normRot 0 n) pattern))
               | None => None
               end = Some p' /\ starts_with x p').
  { intros cs rs d lvl p Hp [t ->]. rewrite Hp.
    rewrite normRot_mod by lia. change (0 mod n) with 0.
    rewrite slice_from, slice_upto by lia.
    eexists. split; [reflexivity|]. cbn [Z.to_nat skipn firstn map app].
    destruct Hx as [-> | ->]; eexists; reflexivity. }
  cbn [le_one]. destruct (r1 <=? 1) eqn:E.
  - (* the loop ends after its first turn *)
    assert (Hp : exists t,
               build ([Int q0] ++ [Int k]) [Int k; Int r1] 3 = Some (x :: t)).
    { rewrite build_level.
      change (nth 1 ([Int q0] ++ [Int k]) NaN) with (Int k).
      rewrite (build_pushed_counts [Int q0] _ [Int k] 2) by (cbn; lia).
      rewrite (build_pushed_counts [Int q0] _ [Int k] 1) by (cbn; lia).
      rewrite Ha1.
      destruct (concat_times_head k x t1 ltac:(lia)) as [s Hs]. rewrite Hs.
      cbn [nth build]. destruct (nonzero (Int r1)); cbn [option_map app];
        eexists; reflexivity. }
    destruct Hp as [t Hp].
    apply (Hfinish [Int q0] [Int k; Int r1] (Int k) 1%nat (x :: t) Hp).
    exists t. reflexivity.
  - (* further turns: the divisor [k] is above the remainder *)
    apply Z.leb_gt in E.
    destruct (bj_loop_measure len additive_len
                (k * len (x :: t1) + r1 * len [0]) (Z.to_nat k)
                [Int q0] [Int k; Int r1] k r1 1%nat (x :: t1) [0])
      as (cs' & rs' & d' & lvl' & p & Hloop & Hbuild & _);
      try reflexivity; try lia; try assumption.
    rewrite Hloop.
    pose proof (bj_loop_head x (Z.to_nat k) [Int q0] [Int k; Int r1] k r1 1%nat
                  (x :: t1) [0] _ eq_refl eq_refl eq_refl ltac:(lia) Ha1 eq_refl
                  (ex_intro _ t1 eq_refl) Hloop) as Hhead.
    cbv beta iota in Hhead. destruct Hhead as (p2 & Hp2 & Hs2).
    apply (Hfinish cs' rs' d' lvl' p2 Hp2 Hs2).
Qed.

Lemma euclid_first_step_witness :
  1 <= 1 <= 4
  /\ exists p, euclid 1 4 0 = Some p
               /\ starts_with (if 4 <? 2 * 1 then 1 else 0) p.
Proof. split; [lia|]. apply (euclid_first_step 1 4). lia. Defined.

(** ** The generator's counter *)

Lemma toUint32_toInt32 (x : Z) : JS.toUint32 (JS.toInt32 x) = JS.toUint32 x.
Proof.
  unfold JS.toInt32, JS.toUint32, JS.two32.
  destruct (x mod 4294967296 <? 2147483648).
  - apply Z.mod_mod. lia.
  - replace (x mod 4294967296 - 4294967296)
      with (x mod 4294967296 + (-1) * 4294967296) by lia.
    rewrite Z.mod_add by lia. apply Z.mod_mod. lia.
Qed.

Lemma bor_0 (x : Z) : JS.bor x 0 = JS.toInt32 x.
Proof. unfold JS.bor. change (JS.toInt32 0) with 0. apply Z.lor_0_r. Qed.

Lemma sfc_next_counter (g : Sfc) :
  JS.toUint32 (sd (snd (sfc_next g))) = (sd g + 1) mod JS.two32.
Proof.
  unfold sfc_next. cbn [snd sd]. rewrite bor_0, toUint32_toInt32.
  unfold JS.ushr. change (0 mod 32) with 0. rewrite Z.shiftr_0_r.
  unfold JS.toUint32. rewrite Zplus_mod_idemp_l. reflexivity.
Qed.

Lemma sfc_after_counter (n : nat) : forall g,
  JS.toUint32 (sd (sfc_after n g)) = (sd g + Z.of_nat n) mod JS.two32.
Proof.
  induction n as [|n IH]; intro g.
  - cbn [sfc_after Z.of_nat]. rewrite Z.add_0_r. reflexivity.
  - cbn [sfc_after]. rewrite IH.
    pose proof (sfc_next_counter g) as H. unfold JS.toUint32 in H.
    rewrite <- Zplus_mod_idemp_l, H, Zplus_mod_idemp_l.
    f_equal. lia.
Qed.

(** X7. The fourth word of sfc32 is a counter: it goes up by one, modulo
    2^32, at every call. So the captured state after [i] calls differs from the
    state after [j] calls whenever [i] and [j] are less than 2^32 apart:
    the generator does not run into a cycle shorter than 2^32 calls. *)
Theorem sfc32_no_short_cycle (g : Sfc) (i j : nat) :
  (i < j)%nat -> Z.of_nat j - Z.of_nat i < JS.two32 ->
  JS.toUint32 (sd (sfc_after j g)) =
    (JS.toUint32 (sd (sfc_after i g)) + (Z.of_nat j - Z.of_nat i)) mod JS.two32
  /\ sfc_after i g <> sfc_after j g.
Proof.
  intros Hij Hlt. split.
  - rewrite !sfc_after_counter. rewrite Zplus_mod_idemp_l. f_equal. lia.
  - intro Heq.
    assert (H : JS.toUint32 (sd (sfc_after i g)) = JS.toUint32 (sd (sfc_after j g)))
      by (rewrite Heq; reflexivity).
    rewrite !sfc_after_counter in H.
    assert (Hd : (Z.of_nat j - Z.of_nat i) mod JS.two32 = 0).
    { replace (Z.of_nat j - Z.of_nat i)
        with ((sd g + Z.of_nat j) - (sd g + Z.of_nat i)) by lia.
      rewrite Zminus_mod, H, Z.sub_diag. reflexivity. }
    rewrite Z.mod_small in Hd by lia. lia.
Qed.

Lemma sfc32_no_short_cycle_witness :
  (0 < 5)%nat /\ Z.of_nat 5 - Z.of_nat 0 < JS.two32
  /\ JS.toUint32 (sd (sfc_after 5 (makeRng []))) =
       (JS.toUint32 (sd (sfc_after 0 (makeRng []))) + (Z.of_nat 5 - Z.of_nat 0))
         mod JS.two32
  /\ sfc_after 0 (makeRng []) <> sfc_after 5 (makeRng []).
Proof.
  split; [lia|]. split; [reflexivity|].
  apply (sfc32_no_short_cycle (makeRng []) 0 5); [lia|reflexivity].
Defined.

(** ** What seeding reads and writes *)

Lemma drawInt_call (m : Z) (e : Engine) :
  drawInt m e = (call_int (rng e) 0 m, set_rng (sfc_after 1 (rng e)) e).
Proof.
  unfold drawInt, draw, call_int, sfc_call. cbn [sfc_after].
  destruct (sfc_next (rng e)) as [v g]. reflexivity.
Qed.

Lemma call_int_after (g : Sfc) (n i : nat) (m : Z) :
  call_int (sfc_after n g) i m = call_int g (i + n) m.
Proof.
  unfold call_int, sfc_call. do 3 f_equal. revert g.
  induction n as [|n IH]; intro g.
  - rewrite Nat.add_0_r. reflexivity.
  - rewrite Nat.add_succ_r. cbn [sfc_after]. apply IH.
Qed.

Lemma sfc_after_after (g : Sfc) (n k : nat) :
  sfc_after k (sfc_after n g) = sfc_after (n + k) g.
Proof.
  revert g. induction n as [|n IH]; intro g; [reflexivity|].
  cbn [sfc_after Nat.add]. apply IH.
Qed.

Ltac seed_fields :=
  cbn [rng running nextNoteTime beat lookahead scheduleAheadTime bpm swing vol
       Lk Ls Lh La Lb Lp denKick denSnare denHat denArp denBass denClaps
       baseNote scale _int steps trace
       set_rng set_Lk set_Ls set_Lh set_La set_Lb set_Lp set_denKick
       set_denSnare set_denHat set_denArp set_denBass set_denClaps
       set_scale set_baseNote].

(** X8. [setSeed] reads the calls 0 to 12 of the fresh generator, one per
    field in the order of the source, and nothing of the engine it is applied
    to: the lengths, densities, scale and base note are functions of the
    seed alone, and the generator is left at its call 13. *)
Theorem setSeed_reads_13_calls (seed : jsstring) (e : Engine) :
  let g := makeRng seed in
  let e' := setSeed seed e in
  rng e' = sfc_after 13 g
  /\ Lk e' = pick [13; 15; 17; 19] (call_int g 0 4) 0
  /\ Ls e' = pick [12; 14; 16] (call_int g 1 3) 0
  /\ Lh e' = pick [13; 15; 17; 19] (call_int g 2 4) 0
  /\ La e' = pick [10; 11; 14; 18] (call_int g 3 4) 0
  /\ Lb e' = pick [13; 15; 17; 19] (call_int g 4 4) 0
  /\ Lp e' = 16
  /\ denKick e' = 4 + call_int g 5 4
  /\ denSnare e' = 3 + call_int g 6 4
  /\ denHat e' = 8 + call_int g 7 6
  /\ denArp e' = 5 + call_int g 8 6
  /\ denBass e' = 4 + call_int g 9 5
  /\ denClaps e' = 2 + call_int g 10 3
  /\ scale e' = pick SCALES (call_int g 11 6) []
  /\ baseNote e' = 32 + call_int g 12 8.
Proof.
  cbv zeta. unfold setSeed.
  repeat (rewrite drawInt_call; cbv beta iota zeta; seed_fields).
  rewrite ?sfc_after_after, ?call_int_after. cbn [Nat.add].
  repeat split; reflexivity.
Qed.

(** X9. Whatever the seed, [setSeed] leaves every length in its table,
    every density in its range (below the shortest length of its role), one of
    the six scales, and a base note from 32 to 39. *)
Theorem setSeed_ranges (seed : jsstring) (e : Engine) :
  let e' := setSeed seed e in
  In (Lk e') [13; 15; 17; 19] /\ In (Ls e') [12; 14; 16]
  /\ In (Lh e') [13; 15; 17; 19] /\ In (La e') [10; 11; 14; 18]
  /\ In (Lb e') [13; 15; 17; 19] /\ Lp e' = 16
  /\ 4 <= denKick e' <= 7 /\ 3 <= denSnare e' <= 6 /\ 8 <= denHat e' <= 13
  /\ 5 <= denArp e' <= 10 /\ 4 <= denBass e' <= 8 /\ 2 <= denClaps e' <= 4
  /\ In (scale e') SCALES /\ 6 <= len (scale e') <= 8
  /\ 32 <= baseNote e' <= 39.
Proof.
  cbv zeta. destruct (setSeed_seeded seed e) as (Hs & Hsn & Hh).
  unfold seeded in Hs.
  destruct Hs as (H1 & H2 & H3 & H4 & H5 & H6 & H7 & _ & _ & H10 & H11 & H12 & H13 & H14).
  repeat (split; [assumption|]).
  split; [|exact H14].
  revert H13. generalize (scale (setSeed seed e)). intros sc Hin.
  unfold SCALES in Hin. cbn [In] in Hin.
  repeat (destruct Hin as [<- | Hin]; [unfold len; cbn [length]; lia|]).
  contradiction.
Qed.

(** ** One tick of the scheduler, in general *)

Lemma same_config_refl (e : Engine) : same_config e e.
Proof. unfold same_config. repeat split; reflexivity. Qed.

Lemma same_config_trans (e1 e2 e3 : Engine) :
  same_config e1 e2 -> same_config e2 e3 -> same_config e1 e3.
Proof.
  unfold same_config. intros H1 H2.
  repeat match goal with H : _ /\ _ |- _ => destruct H end.
  repeat split; congruence.
Qed.

Lemma same_config_playable (e e' : Engine) :
  same_config e e' -> playable e -> playable e'.
Proof.
  unfold same_config, playable. intros H Hp.
  repeat match goal with H : _ /\ _ |- _ => destruct H end.
  repeat split; congruence.
Qed.

Lemma Forall2_seq_shift (A : Type) (R : A -> nat -> Prop) (l : list A) :
  forall s m,
    Forall2 (fun a i => R a (S i)) l (seq s m) -> Forall2 R l (seq (S s) m).
Proof.
  induction l as [|a l IH]; intros s m H.
  - inversion H as [Hm|]. destruct m; [constructor|discriminate].
  - destruct m as [|m]; [inversion H|]. cbn [seq] in *.
    inversion H; subst. constructor; [assumption|]. apply IH. assumption.
Qed.

Lemma stamp_comp (sw spb x y : Q) (b : Z) :
  (x == y)%Q -> (stamp sw spb x b == stamp sw spb y b)%Q.
Proof. intro H. unfold stamp. rewrite H. reflexivity. Qed.

Lemma scheduler_loop_more (cur spb : Q) (fuel : nat) : forall e r extra,
  scheduler_loop fuel cur spb e = Some r ->
  scheduler_loop (fuel + extra) cur spb e = Some r.
Proof.
  induction fuel as [|fuel IH]; intros e r extra H.
  - rewrite scheduler_loop_0 in H. destruct extra as [|extra]; cbn [Nat.add].
    + rewrite scheduler_loop_0. exact H.
    + rewrite scheduler_loop_S. destruct (Qltb _ _); [discriminate|exact H].
  - cbn [Nat.add]. rewrite scheduler_loop_S in *. destruct (Qltb _ _); [|exact H].
    destruct (scheduleStep _ _ e) as [[u e1]|]; [|discriminate].
    cbv zeta in *. apply IH. exact H.
Qed.

Lemma scheduler_loop_idle (fuel : nat) (cur spb : Q) (e : Engine) :
  (cur + scheduleAheadTime e <= nextNoteTime e)%Q ->
  scheduler_loop fuel cur spb e = Some (tt, e).
Proof.
  intro H. apply Qltb_ge in H.
  destruct fuel; [rewrite scheduler_loop_0|rewrite scheduler_loop_S];
    rewrite H; reflexivity.
Qed.

Lemma scheduler_loop_spec (cur spb : Q) (fuel : nat) : forall e,
  playable e -> (0 < spb)%Q -> 0 <= beat e < 4096 ->
  (cur + scheduleAheadTime e
   <= nextNoteTime e + inject_Z (Z.of_nat fuel) * (0.25 * spb))%Q ->
  exists e' m new tr,
    scheduler_loop fuel cur spb e = Some (tt, e')
    /\ same_config e e'
    /\ (m <= fuel)%nat
    /\ steps e' = steps e ++ new /\ trace e' = trace e ++ tr
    /\ tick_steps (swing e) spb (nextNoteTime e) (beat e) new m
    /\ beat e' = (beat e + Z.of_nat m) mod 4096
    /\ (nextNoteTime e'
        == nextNoteTime e + inject_Z (Z.of_nat m) * (0.25 * spb))%Q
    /\ (cur + scheduleAheadTime e <= nextNoteTime e')%Q
    /\ ((0 < m)%nat ->
        (nextNoteTime e' - 0.25 * spb < cur + scheduleAheadTime e)%Q)
    /\ ((cur + scheduleAheadTime e <= nextNoteTime e)%Q -> m = 0%nat).
Proof.
  assert (Hidle : forall fuel e,
             0 <= beat e < 4096 ->
             (cur + scheduleAheadTime e <= nextNoteTime e)%Q ->
             exists e' m new tr,
               scheduler_loop fuel cur spb e = Some (tt, e')
               /\ same_config e e'
               /\ (m <= fuel)%nat
               /\ steps e' = steps e ++ new /\ trace e' = trace e ++ tr
               /\ tick_steps (swing e) spb (nextNoteTime e) (beat e) new m
               /\ beat e' = (beat e + Z.of_nat m) mod 4096
               /\ (nextNoteTime e'
                   == nextNoteTime e + inject_Z (Z.of_nat m) * (0.25 * spb))%Q
               /\ (cur + scheduleAheadTime e <= nextNoteTime e')%Q
               /\ ((0 < m)%nat ->
                   (nextNoteTime e' - 0.25 * spb < cur + scheduleAheadTime e)%Q)
               /\ ((cur + scheduleAheadTime e <= nextNoteTime e)%Q -> m = 0%nat)).
  { intros f e Hb H. exists e, 0%nat, [], [].
    split; [apply scheduler_loop_idle; exact H|].
    split; [apply same_config_refl|]. split; [lia|].
    rewrite !app_nil_r. split; [reflexivity|]. split; [reflexivity|].
    split; [constructor|].
    split; [cbn [Z.of_nat]; rewrite Z.add_0_r, Z.mod_small by lia; reflexivity|].
    split; [cbn [Z.of_nat]; change (inject_Z 0) with 0%Q; ring|].
    split; [exact H|]. split; [lia|reflexivity]. }
  induction fuel as [|fuel IH]; intros e Hplay Hspb Hbeat Hfuel.
  - apply Hidle; [exact Hbeat|].
    cbn [Z.of_nat] in Hfuel. change (inject_Z 0) with 0%Q in Hfuel. lra.
  - destruct (Qltb (nextNoteTime e) (cur + scheduleAheadTime e)) eqn:E.
    2:{ apply Hidle; [exact Hbeat|]. apply Qltb_ge. exact E. }
    rewrite scheduler_loop_S, E.
    apply Qltb_lt in E.
    destruct (scheduleStep_returns (beat e)
                (nextNoteTime e +
                 (if Z.rem (beat e) 2 =? 1 then swing e * spb * 0.5 else 0))%Q
                e Hplay) as (g & tr1 & E1).
    rewrite E1. cbv zeta.
    match goal with
    | |- exists e' m new tr, scheduler_loop _ _ _ ?x = _ /\ _ => set (e2 := x)
    end.
    assert (Hcfg : same_config e e2)
      by (unfold same_config; repeat split; reflexivity).
    assert (Hb2 : beat e2 = (beat e + 1) mod 4096)
      by (subst e2; cbn [beat set_beat set_nextNoteTime set_rng set_steps set_trace];
          apply Z.rem_mod_nonneg; lia).
    assert (Hn2 : nextNoteTime e2 = (nextNoteTime e + 0.25 * spb)%Q) by reflexivity.
    assert (Ha2 : scheduleAheadTime e2 = scheduleAheadTime e) by reflexivity.
    assert (Hs2 : swing e2 = swing e) by reflexivity.
    assert (Hst2 : steps e2 = steps e ++
              [(beat e, (nextNoteTime e +
                 (if Z.rem (beat e) 2 =? 1 then swing e * spb * 0.5 else 0))%Q)])
      by reflexivity.
    assert (Htr2 : trace e2 = trace e ++ tr1) by reflexivity.
    pose proof (Z.mod_pos_bound (beat e + 1) 4096 ltac:(lia)) as Hmod.
    rewrite Nat2Z.inj_succ in Hfuel. unfold Z.succ in Hfuel.
    rewrite inject_Z_plus in Hfuel. change (inject_Z 1) with 1%Q in Hfuel.
    destruct (IH e2 (same_config_playable e e2 Hcfg Hplay) Hspb
                ltac:(rewrite Hb2; exact Hmod)
                ltac:(rewrite Ha2, Hn2; lra))
      as (e' & m & new & tr & Hrun & Hc' & Hm & Hst & Htr & Hts & Hb' & Hn' & Hh & Hlast & _).
    clearbody e2.
    exists e', (S m),
      ((beat e, (nextNoteTime e +
                 (if Z.rem (beat e) 2 =? 1 then swing e * spb * 0.5 else 0))%Q)
         :: new), (tr1 ++ tr).
    split; [exact Hrun|].
    split; [apply (same_config_trans e e2 e' Hcfg Hc')|].
    split; [lia|].
    split; [rewrite Hst, Hst2, <- app_assoc; reflexivity|].
    split; [rewrite Htr, Htr2, <- app_assoc; reflexivity|].
    split.
    { unfold tick_steps. cbn [seq]. constructor.
      - cbn [fst snd Z.of_nat]. rewrite Z.add_0_r, Z.mod_small by lia.
        split; [reflexivity|]. unfold stamp.
        change (inject_Z 0) with 0%Q.
        destruct (Z.rem (beat e) 2 =? 1); ring.
      - apply Forall2_seq_shift. unfold tick_steps in Hts.
        revert Hts. apply Forall2_impl. intros st i [Hf Hs].
        rewrite Hb2, Hs2, Hn2 in *.
        assert (Hbi : ((beat e + 1) mod 4096 + Z.of_nat i) mod 4096
                      = (beat e + Z.of_nat (S i)) mod 4096).
        { rewrite Zplus_mod_idemp_l. f_equal. lia. }
        rewrite Hbi in *. split; [exact Hf|].
        rewrite Hs. apply stamp_comp.
        rewrite (Nat2Z.inj_succ i). unfold Z.succ. rewrite inject_Z_plus.
        change (inject_Z 1) with 1%Q. ring. }
    split.
    { rewrite Hb', Hb2, Zplus_mod_idemp_l. f_equal. lia. }
    split.
    { rewrite Hn', Hn2. rewrite (Nat2Z.inj_succ m). unfold Z.succ.
      rewrite inject_Z_plus. change (inject_Z 1) with 1%Q. ring. }
    split; [rewrite <- Ha2; exact Hh|].
    split.
    { intros _. destruct m as [|m].
      - rewrite Hn', Hn2. cbn [Z.of_nat]. change (inject_Z 0) with 0%Q. lra.
      - rewrite <- Ha2. apply Hlast. lia. }
    intro Hge. lra.
Qed.

Lemma fuel_exists (x d : Q) :
  (0 < d)%Q -> exists F : nat, (x <= inject_Z (Z.of_nat F) * d)%Q.
Proof.
  intro Hd. exists (Z.to_nat (Qceiling (x / d))).
  assert (Hx : (x == (x / d) * d)%Q) by (field; lra).
  pose proof (Qle_ceiling (x / d)) as Hc.
  destruct (Z_le_gt_dec 0 (Qceiling (x / d))) as [Hpos|Hneg].
  - rewrite Z2Nat.id by exact Hpos. rewrite Hx at 1.
    apply Qmult_le_compat_r; [exact Hc|lra].
  - assert (E : Z.to_nat (Qceiling (x / d)) = 0%nat) by lia.
    rewrite E. cbn [Z.of_nat]. change (inject_Z 0) with 0%Q.
    assert (Hle : (inject_Z (Qceiling (x / d)) <= 0)%Q)
      by (change 0%Q with (inject_Z 0); rewrite <- Zle_Qle; lia).
    assert (Hq : (x / d <= 0)%Q) by lra.
    rewrite Hx. 
    assert (H0 : ((x / d) * d <= 0 * d)%Q)
      by (apply Qmult_le_compat_r; [exact Hq|lra]).
    lra.
Qed.

Lemma secPerBeat_pos (e : Engine) : (0 < bpm e)%Q -> (0 < 60 / bpm e)%Q.
Proof.
  intro H. unfold Qdiv. apply Qmult_lt_0_compat; [reflexivity|].
  apply Qinv_lt_0_compat. exact H.
Qed.

(** [scheduler()] in full: with enough fuel it returns, whatever the clock
    reading, and what it did is [m] steps of the grid. *)
Lemma scheduler_spec (cur : Q) (e : Engine) :
  playable e -> (0 < bpm e)%Q -> 0 <= beat e < 4096 ->
  exists F e' m new tr,
    (forall fuel, (F <= fuel)%nat -> scheduler fuel cur e = Some (tt, e'))
    /\ same_config e e'
    /\ steps e' = steps e ++ new /\ trace e' = trace e ++ tr
    /\ tick_steps (swing e) (60 / bpm e) (nextNoteTime e) (beat e) new m
    /\ beat e' = (beat e + Z.of_nat m) mod 4096
    /\ (nextNoteTime e'
        == nextNoteTime e + inject_Z (Z.of_nat m) * (0.25 * (60 / bpm e)))%Q
    /\ (cur + scheduleAheadTime e <= nextNoteTime e')%Q
    /\ ((0 < m)%nat ->
        (nextNoteTime e' - 0.25 * (60 / bpm e) < cur + scheduleAheadTime e)%Q)
    /\ ((cur + scheduleAheadTime e <= nextNoteTime e)%Q -> m = 0%nat).
Proof.
  intros Hplay Hbpm Hbeat.
  pose proof (secPerBeat_pos e Hbpm) as Hspb.
  destruct (fuel_exists (cur + scheduleAheadTime e - nextNoteTime e)
              (0.25 * (60 / bpm e)) ltac:(lra)) as [F HF].
  destruct (scheduler_loop_spec cur (60 / bpm e) F e Hplay Hspb Hbeat
              ltac:(lra))
    as (e' & m & new & tr & Hrun & Hrest).
  exists F, e', m, new, tr. split.
  - intros fuel Hle. unfold scheduler.
    replace fuel with (F + (fuel - F))%nat by lia.
    apply scheduler_loop_more. exact Hrun.
  - destruct Hrest as (H1 & _ & H2). split; [exact H1|exact H2].
Qed.

(** What [scheduler()] returns does not depend on the fuel. *)
Lemma scheduler_result (fuel : nat) (cur : Q) (e e' : Engine) (u : unit) :
  scheduler fuel cur e = Some (u, e') ->
  forall F e'', (forall f, (F <= f)%nat -> scheduler f cur e = Some (tt, e'')) ->
  e' = e''.
Proof.
  intros H F e'' HF. unfold scheduler in *.
  apply (scheduler_loop_more _ _ _ _ _ F) in H.
  rewrite (HF (fuel + F)%nat ltac:(lia)) in H. congruence.
Qed.

(** X10. One timer tick, on any playable engine with a positive tempo and
    at any clock reading: [scheduler()] returns; it moves the cursor
    [nextNoteTime] by a whole number [m] of sixteenth notes (a quarter of
    [60 / bpm] each), logging [m] steps, up to the first grid point at or
    after the horizon [currentTime + scheduleAheadTime] and no further;
    nothing of the configuration changes; and when the cursor already is
    at or after the horizon the call changes nothing at all. *)
Theorem scheduler_reaches_horizon (cur : Q) (e : Engine) :
  playable e -> (0 < bpm e)%Q -> 0 <= beat e < 4096 ->
  exists F e' m,
    (forall fuel, (F <= fuel)%nat -> scheduler fuel cur e = Some (tt, e'))
    /\ same_config e e'
    /\ length (steps e') = (length (steps e) + m)%nat
    /\ (nextNoteTime e'
        == nextNoteTime e + inject_Z (Z.of_nat m) * (0.25 * (60 / bpm e)))%Q
    /\ (cur + scheduleAheadTime e <= nextNoteTime e')%Q
    /\ ((0 < m)%nat ->
        (nextNoteTime e' - 0.25 * (60 / bpm e) < cur + scheduleAheadTime e)%Q)
    /\ ((cur + scheduleAheadTime e <= nextNoteTime e)%Q -> e' = e).
Proof.
  intros Hplay Hbpm Hbeat.
  destruct (scheduler_spec cur e Hplay Hbpm Hbeat)
    as (F & e' & m & new & tr & Hrun & Hc & Hst & _ & Hts & _ & Hn & Hh & Hl & _).
  exists F, e', m.
  split; [exact Hrun|]. split; [exact Hc|].
  split.
  { rewrite Hst, length_app. f_equal. unfold tick_steps in Hts.
    apply Forall2_length in Hts. rewrite length_seq in Hts. exact Hts. }
  split; [exact Hn|]. split; [exact Hh|]. split; [exact Hl|].
  intro Hidle. pose proof (Hrun F (Nat.le_refl F)) as E.
  unfold scheduler in E. rewrite scheduler_loop_idle in E by exact Hidle.
  congruence.
Qed.

Lemma scheduler_reaches_horizon_witness :
  playable fieldDefaults /\ (0 < bpm fieldDefaults)%Q
  /\ 0 <= beat fieldDefaults < 4096
  /\ exists F e' m,
    (forall fuel, (F <= fuel)%nat -> scheduler fuel 1 fieldDefaults = Some (tt, e'))
    /\ same_config fieldDefaults e'
    /\ length (steps e') = (length (steps fieldDefaults) + m)%nat
    /\ (nextNoteTime e'
        == nextNoteTime fieldDefaults
           + inject_Z (Z.of_nat m) * (0.25 * (60 / bpm fieldDefaults)))%Q
    /\ (1 + scheduleAheadTime fieldDefaults <= nextNoteTime e')%Q
    /\ ((0 < m)%nat ->
        (nextNoteTime e' - 0.25 * (60 / bpm fieldDefaults)
         < 1 + scheduleAheadTime fieldDefaults)%Q)
    /\ ((1 + scheduleAheadTime fieldDefaults <= nextNoteTime fieldDefaults)%Q
        -> e' = fieldDefaults).
Proof.
  assert (Hp : playable fieldDefaults) by (unfold playable; cbn; lia).
  assert (Hb : (0 < bpm fieldDefaults)%Q) by reflexivity.
  assert (Hc : 0 <= beat fieldDefaults < 4096) by (cbn; lia).
  split; [exact Hp|]. split; [exact Hb|]. split; [exact Hc|].
  apply (scheduler_reaches_horizon 1 fieldDefaults Hp Hb Hc).
Defined.

(** X11. The steps one tick logs: their counters are consecutive modulo
    4096, starting at the engine's counter, which ends that many later;
    step [i] of the tick gets the instant of grid point [i] after the
    cursor, a sixteenth note per step, and on odd counters the swing
    offset [swing * secPerBeat * 0.5] on top. *)
Theorem scheduler_steps_consecutive (cur : Q) (e : Engine) :
  playable e -> (0 < bpm e)%Q -> 0 <= beat e < 4096 ->
  exists F e' new,
    (forall fuel, (F <= fuel)%nat -> scheduler fuel cur e = Some (tt, e'))
    /\ steps e' = steps e ++ new
    /\ beat e' = (beat e + Z.of_nat (length new)) mod 4096
    /\ tick_steps (swing e) (60 / bpm e) (nextNoteTime e) (beat e)
         new (length new).
Proof.
  intros Hplay Hbpm Hbeat.
  destruct (scheduler_spec cur e Hplay Hbpm Hbeat)
    as (F & e' & m & new & tr & Hrun & _ & Hst & _ & Hts & Hb & _).
  assert (Hm : length new = m).
  { unfold tick_steps in Hts. apply Forall2_length in Hts.
    rewrite length_seq in Hts. exact Hts. }
  exists F, e', new. rewrite Hm.
  split; [exact Hrun|]. split; [exact Hst|]. split; [exact Hb|exact Hts].
Qed.

Lemma scheduler_steps_consecutive_witness :
  playable fieldDefaults /\ (0 < bpm fieldDefaults)%Q
  /\ 0 <= beat fieldDefaults < 4096
  /\ exists F e' new,
    (forall fuel, (F <= fuel)%nat -> scheduler fuel 1 fieldDefaults = Some (tt, e'))
    /\ steps e' = steps fieldDefaults ++ new
    /\ beat e' = (beat fieldDefaults + Z.of_nat (length new)) mod 4096
    /\ tick_steps (swing fieldDefaults) (60 / bpm fieldDefaults)
         (nextNoteTime fieldDefaults) (beat fieldDefaults) new (length new).
Proof.
  assert (Hp : playable fieldDefaults) by (unfold playable; cbn; lia).
  assert (Hb : (0 < bpm fieldDefaults)%Q) by reflexivity.
  assert (Hc : 0 <= beat fieldDefaults < 4096) by (cbn; lia).
  split; [exact Hp|]. split; [exact Hb|]. split; [exact Hc|].
  apply (scheduler_steps_consecutive 1 fieldDefaults Hp Hb Hc).
Defined.

(** ** The instants of a tick *)

Lemma stamp_parity (b0 : Z) (i : nat) :
  0 <= b0 ->
  (Z.rem ((b0 + Z.of_nat i) mod 4096) 2 = 0
   /\ Z.rem ((b0 + Z.of_nat (S i)) mod 4096) 2 = 1)
  \/ (Z.rem ((b0 + Z.of_nat i) mod 4096) 2 = 1
      /\ Z.rem ((b0 + Z.of_nat (S i)) mod 4096) 2 = 0).
Proof.
  intro H.
  pose proof (Z.mod_pos_bound (b0 + Z.of_nat i) 4096 ltac:(lia)).
  pose proof (Z.mod_pos_bound (b0 + Z.of_nat (S i)) 4096 ltac:(lia)).
  rewrite !Z.rem_mod_nonneg by lia.
  rewrite Nat2Z.inj_succ. unfold Z.succ.
  Z.to_euclidean_division_equations. lia.
Qed.

Lemma stamp_next (sw spb nn : Q) (b0 : Z) (i : nat) :
  (0 < spb)%Q -> (-(1#2) < sw)%Q -> (sw < 1#2)%Q -> 0 <= b0 ->
  (stamp sw spb (nn + inject_Z (Z.of_nat i) * (0.25 * spb))
     ((b0 + Z.of_nat i) mod 4096)
   < stamp sw spb (nn + inject_Z (Z.of_nat (S i)) * (0.25 * spb))
       ((b0 + Z.of_nat (S i)) mod 4096))%Q.
Proof.
  intros Hspb Hlo Hhi Hb. unfold stamp.
  destruct (stamp_parity b0 i Hb) as [[E0 E1]|[E0 E1]]; rewrite E0, E1;
    cbn [Z.eqb Pos.eqb];
    rewrite (Nat2Z.inj_succ i); unfold Z.succ; rewrite inject_Z_plus;
    change (inject_Z 1) with 1%Q; nra.
Qed.

Lemma stamp_mono (sw spb nn : Q) (b0 : Z) :
  (0 < spb)%Q -> (-(1#2) < sw)%Q -> (sw < 1#2)%Q -> 0 <= b0 ->
  forall i j, (i < j)%nat ->
  (stamp sw spb (nn + inject_Z (Z.of_nat i) * (0.25 * spb))
     ((b0 + Z.of_nat i) mod 4096)
   < stamp sw spb (nn + inject_Z (Z.of_nat j) * (0.25 * spb))
       ((b0 + Z.of_nat j) mod 4096))%Q.
Proof.
  intros Hspb Hlo Hhi Hb i j Hij. induction j as [|j IH]; [lia|].
  destruct (Nat.eq_dec i j) as [->|Hne].
  - apply stamp_next; assumption.
  - eapply Qlt_trans; [apply IH; lia|apply stamp_next; assumption].
Qed.

(** Every instant is less than a sixteenth note away from its grid
    point. *)
Lemma stamp_near (sw spb x : Q) (b : Z) :
  (0 < spb)%Q -> (-(1#2) < sw)%Q -> (sw < 1#2)%Q ->
  (x - 0.25 * spb < stamp sw spb x b /\ stamp sw spb x b < x + 0.25 * spb)%Q.
Proof.
  intros Hspb Hlo Hhi. unfold stamp.
  destruct (Z.rem b 2 =? 1); split; nra.
Qed.

Lemma Forall2_seq_Forall (A : Type) (P : A -> nat -> Prop) (l : list A) :
  forall s m,
    Forall2 P l (seq s m) ->
    Forall (fun a => exists i, (s <= i < s + m)%nat /\ P a i) l.
Proof.
  induction l as [|a l IH]; intros s m H; [constructor|].
  destruct m as [|m]; [inversion H|]. cbn [seq] in H. inversion H; subst.
  constructor.
  - exists s. split; [lia|assumption].
  - match goal with H' : Forall2 _ l _ |- _ => apply IH in H' ; revert H' end.
    apply Forall_impl. intros b (i & Hi & Hb). exists i. split; [lia|exact Hb].
Qed.

Lemma Forall2_seq_sorted (f : nat -> Q) (l : list (Z * Q)) :
  (forall i j, (i < j)%nat -> (f i < f j)%Q) ->
  forall s m,
    Forall2 (fun st i => (snd st == f i)%Q) l (seq s m) ->
    StronglySorted Qlt (instants l).
Proof.
  intro Hf. induction l as [|a l IH]; intros s m H; [constructor|].
  destruct m as [|m]; [inversion H|]. cbn [seq] in H. inversion H; subst.
  cbn [instants map]. constructor.
  - eapply IH. eassumption.
  - apply Forall_map.
    match goal with H' : Forall2 _ l _ |- _ =>
      apply Forall2_seq_Forall in H'; revert H' end.
    apply Forall_impl. intros b (i & Hi & Hb).
    match goal with H' : (snd a == _)%Q |- _ => rewrite H' end.
    rewrite Hb. apply Hf. lia.
Qed.

(** X12. With a swing below a half in size (the class keeps it within
    0.15) the instants of the steps of one tick are strictly increasing,
    even though every other step is moved by the swing; each lies less
    than a sixteenth note from its grid point, so after the cursor's old
    position less a sixteenth and before the cursor's new position. *)
Theorem scheduler_instants_increasing (cur : Q) (e : Engine) :
  playable e -> (0 < bpm e)%Q -> 0 <= beat e < 4096 ->
  (-(1#2) < swing e)%Q -> (swing e < 1#2)%Q ->
  exists F e' new,
    (forall fuel, (F <= fuel)%nat -> scheduler fuel cur e = Some (tt, e'))
    /\ steps e' = steps e ++ new
    /\ StronglySorted Qlt (instants new)
    /\ Forall (fun t => (nextNoteTime e - 0.25 * (60 / bpm e) < t)%Q
                        /\ (t < nextNoteTime e')%Q) (instants new).
Proof.
  intros Hplay Hbpm Hbeat Hlo Hhi.
  pose proof (secPerBeat_pos e Hbpm) as Hspb.
  destruct (scheduler_spec cur e Hplay Hbpm Hbeat)
    as (F & e' & m & new & tr & Hrun & _ & Hst & _ & Hts & _ & Hn & _).
  exists F, e', new.
  split; [exact Hrun|]. split; [exact Hst|]. unfold tick_steps in Hts. split.
  - apply (Forall2_seq_sorted
             (fun i => stamp (swing e) (60 / bpm e)
                         (nextNoteTime e
                          + inject_Z (Z.of_nat i) * (0.25 * (60 / bpm e)))
                         ((beat e + Z.of_nat i) mod 4096)) new
             (stamp_mono _ _ _ _ Hspb Hlo Hhi (proj1 Hbeat)) 0 m).
    revert Hts. apply Forall2_impl. intros st i [_ H]. exact H.
  - apply Forall_map. apply Forall2_seq_Forall in Hts. revert Hts.
    apply Forall_impl. intros st (i & Hi & _ & Hs).
    pose proof (stamp_near (swing e) (60 / bpm e)
                  (nextNoteTime e
                   + inject_Z (Z.of_nat i) * (0.25 * (60 / bpm e)))
                  ((beat e + Z.of_nat i) mod 4096) Hspb Hlo Hhi) as [H1 H2].
    rewrite Hs, Hn.
    assert (H0 : (0 <= inject_Z (Z.of_nat i))%Q)
      by (change 0%Q with (inject_Z 0); rewrite <- Zle_Qle; lia).
    assert (Hm : (inject_Z (Z.of_nat i) + 1 <= inject_Z (Z.of_nat m))%Q).
    { change 1%Q with (inject_Z 1). rewrite <- inject_Z_plus, <- Zle_Qle. lia. }
    split; nra.
Qed.

Lemma scheduler_instants_increasing_witness :
  playable fieldDefaults /\ (0 < bpm fieldDefaults)%Q
  /\ 0 <= beat fieldDefaults < 4096
  /\ (-(1#2) < swing fieldDefaults)%Q /\ (swing fieldDefaults < 1#2)%Q
  /\ exists F e' new,
    (forall fuel, (F <= fuel)%nat -> scheduler fuel 1 fieldDefaults = Some (tt, e'))
    /\ steps e' = steps fieldDefaults ++ new
    /\ StronglySorted Qlt (instants new)
    /\ Forall (fun t => (nextNoteTime fieldDefaults
                         - 0.25 * (60 / bpm fieldDefaults) < t)%Q
                        /\ (t < nextNoteTime e')%Q) (instants new).
Proof.
  assert (Hp : playable fieldDefaults) by (unfold playable; cbn; lia).
  assert (Hb : (0 < bpm fieldDefaults)%Q) by reflexivity.
  assert (Hc : 0 <= beat fieldDefaults < 4096) by (cbn; lia).
  assert (Hl : (-(1#2) < swing fieldDefaults)%Q) by reflexivity.
  assert (Hh : (swing fieldDefaults < 1#2)%Q) by reflexivity.
  split; [exact Hp|]. split; [exact Hb|]. split; [exact Hc|].
  split; [exact Hl|]. split; [exact Hh|].
  apply (scheduler_instants_increasing 1 fieldDefaults Hp Hb Hc Hl Hh).
Defined.

(** ** What every reachable engine satisfies *)



Lemma same_config_seeded (e e' : Engine) :
  same_config e e' -> seeded e -> seeded e'.
Proof.
  unfold same_config, seeded. intros H Hp.
  repeat match goal with H : _ /\ _ |- _ => destruct H end.
  repeat match goal with H : _ = _ |- _ => rewrite H; clear H end.
  repeat split; assumption.
Qed.


Lemma setSeed_steady (seed : jsstring) (e : Engine) :
  tempo_ok e -> 0 <= beat e < 4096 -> steady (setSeed seed e).
Proof.
  intros Ht Hb.
  destruct (setSeed_transport seed e)
    as (_ & _ & Ebeat & Ebpm & Eswing & _).
  cbv zeta in *.
  split; [apply setSeed_seeded|]. unfold tempo_ok.
  rewrite Ebeat, Ebpm, Eswing. split; [exact Ht|exact Hb].
Qed.

Lemma newEngine_steady (seed : jsstring) : steady (newEngine seed).
Proof.
  unfold newEngine. apply setSeed_steady.
  - unfold tempo_ok. cbn [bpm swing fieldDefaults]. split; lra.
  - cbn [beat fieldDefaults]. lia.
Qed.

Lemma steady_tick (e : Engine) :
  steady e -> playable e /\ (0 < bpm e)%Q /\ 0 <= beat e < 4096.
Proof.
  intros (Hs & [Hb _] & Hbeat).
  split; [apply seeded_playable; exact Hs|]. split; [lra|exact Hbeat].
Qed.






(** ** The step log of one session is in time order *)










(** ** More on control modulation *)

Lemma clamp_mono (x y a b : Q) : (x <= y -> clamp x a b <= clamp y a b)%Q.
Proof.
  intro H. unfold clamp.
  apply Q.min_le_compat_l. apply Q.max_le_compat_l. exact H.
Qed.

Lemma clamp_inside (x a b : Q) : (a <= x <= b -> clamp x a b == x)%Q.
Proof.
  intros [Ha Hb]. unfold clamp.
  rewrite (Q.max_r a x) by exact Ha. apply Q.min_r. exact Hb.
Qed.

Lemma clamp_below (x a b : Q) : (a <= b -> x <= a -> clamp x a b == a)%Q.
Proof.
  intros Hab Hx. unfold clamp.
  rewrite (Q.max_l a x) by exact Hx. apply Q.min_r. exact Hab.
Qed.

Lemma clamp_above (x a b : Q) : (a <= b -> b <= x -> clamp x a b == b)%Q.
Proof.
  intros Hab Hx. unfold clamp. apply Q.min_l.
  apply Qle_trans with x; [exact Hx|apply Q.le_max_r].
Qed.

Lemma round_mono (x y : Q) : (x <= y)%Q -> round x <= round y.
Proof. intro H. unfold round. apply Qfloor_resp_le. lra. Qed.

(** X15. The two densities [updateControls] writes depend on the
    activity alone, not on what the engine held before, and grow with it:
    more activity never gives fewer hats or snares. At or below activity
    0 they are 8 and 3; at or above activity 1 they are 16 and 8. *)
Theorem updateControls_densities_monotone
        (c1 c2 : AudioControls) (now1 now2 : Q) (e1 e2 : Engine) :
  (activity c1 <= activity c2)%Q ->
  denHat (updateControls c1 now1 e1) <= denHat (updateControls c2 now2 e2)
  /\ denSnare (updateControls c1 now1 e1) <= denSnare (updateControls c2 now2 e2)
  /\ ((activity c2 <= 0)%Q ->
      denHat (updateControls c2 now2 e2) = 8
      /\ denSnare (updateControls c2 now2 e2) = 3)
  /\ ((1 <= activity c1)%Q ->
      denHat (updateControls c1 now1 e1) = 16
      /\ denSnare (updateControls c1 now1 e1) = 8).
Proof.
  intro H.
  change (denHat (updateControls c1 now1 e1))
    with (round (8 + clamp (activity c1) 0 1 * 8)).
  change (denHat (updateControls c2 now2 e2))
    with (round (8 + clamp (activity c2) 0 1 * 8)).
  change (denSnare (updateControls c1 now1 e1))
    with (round (3 + clamp (activity c1) 0 1 * 5)).
  change (denSnare (updateControls c2 now2 e2))
    with (round (3 + clamp (activity c2) 0 1 * 5)).
  pose proof (clamp_mono _ _ 0 1 H) as Hk.
  split; [apply round_mono; lra|]. split; [apply round_mono; lra|].
  split.
  - intro H0. pose proof (clamp_below (activity c2) 0 1 ltac:(lra) H0) as E.
    split; [assert (8 <= round (8 + clamp (activity c2) 0 1 * 8) <= 8)
            |assert (3 <= round (3 + clamp (activity c2) 0 1 * 5) <= 3)];
      try lia; apply round_range; rewrite E;
      [change (inject_Z 8) with 8%Q|change (inject_Z 3) with 3%Q]; lra.
  - intro H1. pose proof (clamp_above (activity c1) 0 1 ltac:(lra) H1) as E.
    split; [assert (16 <= round (8 + clamp (activity c1) 0 1 * 8) <= 16)
            |assert (8 <= round (3 + clamp (activity c1) 0 1 * 5) <= 8)];
      try lia; apply round_range; rewrite E;
      [change (inject_Z 16) with 16%Q|change (inject_Z 8) with 8%Q]; lra.
Qed.

Lemma updateControls_densities_monotone_witness :
  (activity (mkControls 0 0 0 (1#4) 0) <= activity (mkControls 0 0 0 (3#4) 0))%Q
  /\ denHat (updateControls (mkControls 0 0 0 (1#4) 0) 0 fieldDefaults)
     <= denHat (updateControls (mkControls 0 0 0 (3#4) 0) 1 fieldDefaults).
Proof.
  assert (H : (activity (mkControls 0 0 0 (1#4) 0)
               <= activity (mkControls 0 0 0 (3#4) 0))%Q)
    by (cbn [activity]; lra).
  split; [exact H|].
  apply (updateControls_densities_monotone
           (mkControls 0 0 0 (1#4) 0) (mkControls 0 0 0 (3#4) 0)
           0 1 fieldDefaults fieldDefaults H).
Defined.

(** X16. What [updateControls] sends to the backend when [fx] is finite
    and [fy] and [approach] are numbers: four finite values, the reverb
    send within 0.1..0.3 and both pans within -1..1, a pan being the
    coordinate itself while that is within -1..1. The argument of the delay
    send is [|fx|], not clamped: the value is at least 0.08 and above 0.22
    whenever [|fx| > 1]. With all five controls finite the calls are
    exactly four [setTargetAtTime], in the order reverb send, delay send,
    hat pan, arp pan, all at the current clock reading, with time constants
    0.25, 0.25, 0.1 and 0.1. *)
Theorem updateControls_targets (c : JsControls) (x : Q) :
  jfx c = Finite x -> jfy c <> NotANumber -> japproach c <> NotANumber ->
  exists rev dly panH panA,
    targets c = mkTargets (Finite rev) (Finite dly) (Finite panH) (Finite panA)
    /\ (0.1 <= rev <= 0.3)%Q
    /\ (0.08 <= dly)%Q /\ ((1 < Qabs x)%Q -> (0.22 < dly)%Q)
    /\ (-1 <= panH <= 1)%Q /\ (-1 <= panA <= 1)%Q
    /\ ((-1 <= x <= 1)%Q -> (panH == x)%Q)
    /\ (forall y, jfy c = Finite y -> (-1 <= y <= 1)%Q -> (panA == y)%Q)
    /\ (forall c' now e, numeric c = Some c' ->
          trace (updateControls c' now e)
          = trace e ++ [ SetTargetAtTime RevGain rev now 0.25;
                         SetTargetAtTime DelayGain dly now 0.25;
                         SetTargetAtTime PanHats panH now 0.1;
                         SetTargetAtTime PanArp panA now 0.1 ]).
Proof.
  intros Hx Hy Ha.
  assert (Hsum : js_add (js_mul (japproach c) (Finite 0.5)) (Finite 0.5)
                 <> NotANumber).
  { destruct (japproach c) as [a|sa|]; [discriminate|discriminate|contradiction]. }
  destruct (js_clamp_range _ 0 1 ltac:(lra) Hsum) as (k & Ek & Hk).
  destruct (js_clamp_range (jfy c) (-1) 1 ltac:(lra) Hy) as (pa & Epa & Hpa).
  exists (lerp 0.1 0.3 k), (lerp 0.08 0.22 (Qabs x)), (clamp x (-1) 1), pa.
  assert (Et : targets c
               = mkTargets (Finite (lerp 0.1 0.3 k))
                           (Finite (lerp 0.08 0.22 (Qabs x)))
                           (Finite (clamp x (-1) 1)) (Finite pa)).
  { unfold targets. rewrite Ek, Epa, Hx. reflexivity. }
  split; [exact Et|].
  pose proof (Qabs_nonneg x) as Hnn.
  split; [unfold lerp; split; nra|].
  split; [unfold lerp; lra|]. split; [unfold lerp; intro; lra|].
  split; [apply clamp_range; lra|]. split; [exact Hpa|].
  split; [intro H; apply clamp_inside; exact H|].
  split.
  - intros y Ey Hin. rewrite Ey in Epa.
    change (Finite (clamp y (-1) 1) = Finite pa) in Epa.
    apply Finite_inj in Epa. rewrite <- Epa. apply clamp_inside. exact Hin.
  - intros c' now e Hn. apply numeric_inject in Hn. subst c.
    change (Finite (clamp (approach c' * 0.5 + 0.5) 0 1) = Finite k) in Ek.
    change (Finite (clamp (fy c') (-1) 1) = Finite pa) in Epa.
    change (Finite (fx c') = Finite x) in Hx.
    apply Finite_inj in Ek, Epa, Hx.
    destruct (targets_refines c' now e) as (_ & Htr).
    rewrite Htr, Ek, Epa, Hx. reflexivity.
Qed.

Lemma updateControls_targets_witness :
  jfx (inject (mkControls 2 (1 # 2) 0 1 0)) = Finite 2
  /\ jfy (inject (mkControls 2 (1 # 2) 0 1 0)) <> NotANumber
  /\ japproach (inject (mkControls 2 (1 # 2) 0 1 0)) <> NotANumber
  /\ exists rev dly panH panA,
       targets (inject (mkControls 2 (1 # 2) 0 1 0))
       = mkTargets (Finite rev) (Finite dly) (Finite panH) (Finite panA)
       /\ (0.1 <= rev <= 0.3)%Q /\ (0.22 < dly)%Q /\ (-1 <= panH <= 1)%Q.
Proof.
  assert (Hx : jfx (inject (mkControls 2 (1 # 2) 0 1 0)) = Finite 2)
    by reflexivity.
  assert (Hy : jfy (inject (mkControls 2 (1 # 2) 0 1 0)) <> NotANumber)
    by discriminate.
  assert (Ha : japproach (inject (mkControls 2 (1 # 2) 0 1 0)) <> NotANumber)
    by discriminate.
  split; [exact Hx|]. split; [exact Hy|]. split; [exact Ha|].
  destruct (updateControls_targets (inject (mkControls 2 (1 # 2) 0 1 0)) 2 Hx Hy Ha)
    as (rev & dly & panH & panA & Et & Hr & _ & Hd & Hp & _).
  exists rev, dly, panH, panA.
  split; [exact Et|]. split; [exact Hr|]. split; [|exact Hp].
  apply Hd. reflexivity.
Defined.

Lemma lerp_no_overshoot (a b t : Q) :
  (0 <= t <= 1)%Q ->
  ((a <= b)%Q -> (a <= lerp a b t <= b)%Q)
  /\ ((b <= a)%Q -> (b <= lerp a b t <= a)%Q).
Proof. intro Ht. unfold lerp. split; intro H; split; nra. Qed.

Lemma modulate_no_overshoot (c : JsControls) (tb tsw : Q) :
  js_clamp (js_tgtBpm c) (Finite 70) (Finite 180) = Finite tb ->
  js_clamp (js_mul (jfy c) (Finite 0.12)) (Finite (-0.15)) (Finite 0.15)
  = Finite tsw ->
  forall (n : nat) (m : Modulated) (b s : Q),
    m_bpm m = Finite b -> m_swing m = Finite s ->
    exists b' s',
      m_bpm (modulateAll (repeat c n) m) = Finite b'
      /\ m_swing (modulateAll (repeat c n) m) = Finite s'
      /\ ((b <= tb)%Q -> (b <= b' <= tb)%Q)
      /\ ((tb <= b)%Q -> (tb <= b' <= b)%Q)
      /\ ((s <= tsw)%Q -> (s <= s' <= tsw)%Q)
      /\ ((tsw <= s)%Q -> (tsw <= s' <= s)%Q).
Proof.
  intros Eb Es. induction n as [|n IH]; intros m b s Hb Hs.
  - exists b, s. cbn [repeat modulateAll fold_left].
    split; [exact Hb|]. split; [exact Hs|]. repeat split; lra.
  - pose proof (lerp_no_overshoot b tb 0.08 ltac:(lra)) as [L1 L2].
    pose proof (lerp_no_overshoot s tsw 0.05 ltac:(lra)) as [L3 L4].
    destruct (IH (modulate c m) (lerp b tb 0.08) (lerp s tsw 0.05))
      as (b' & s' & Eb' & Es' & H1 & H2 & H3 & H4).
    + unfold modulate. cbn [m_bpm]. rewrite Eb, Hb. reflexivity.
    + unfold modulate. cbn [m_swing]. rewrite Es, Hs. reflexivity.
    + exists b', s'. cbn [repeat]. unfold modulateAll in *. cbn [fold_left].
      split; [exact Eb'|]. split; [exact Es'|].
      split; [intro H; specialize (L1 H); specialize (H1 ltac:(lra)); lra|].
      split; [intro H; specialize (L2 H); specialize (H2 ltac:(lra)); lra|].
      split; [intro H; specialize (L3 H); specialize (H3 ltac:(lra)); lra|].
      intro H; specialize (L4 H); specialize (H4 ltac:(lra)); lra.
Qed.

(** X17. Calling [updateControls] [n] times with the same controls, whose
    tempo target is a number and whose [fy] is one, moves tempo and swing
    toward their clamped targets and never past them: after the calls each
    lies between where it started and its target. *)
Theorem updateControls_no_overshoot
        (c : JsControls) (n : nat) (m : Modulated) (b s : Q) :
  js_tgtBpm c <> NotANumber -> jfy c <> NotANumber ->
  m_bpm m = Finite b -> m_swing m = Finite s ->
  exists tb tsw b' s',
    js_clamp (js_tgtBpm c) (Finite 70) (Finite 180) = Finite tb
    /\ js_clamp (js_mul (jfy c) (Finite 0.12)) (Finite (-0.15)) (Finite 0.15)
       = Finite tsw
    /\ m_bpm (modulateAll (repeat c n) m) = Finite b'
    /\ m_swing (modulateAll (repeat c n) m) = Finite s'
    /\ ((b <= tb)%Q -> (b <= b' <= tb)%Q)
    /\ ((tb <= b)%Q -> (tb <= b' <= b)%Q)
    /\ ((s <= tsw)%Q -> (s <= s' <= tsw)%Q)
    /\ ((tsw <= s)%Q -> (tsw <= s' <= s)%Q).
Proof.
  intros Ht Hy Hb Hs.
  destruct (js_clamp_range (js_tgtBpm c) 70 180 ltac:(lra) Ht) as (tb & Eb & _).
  assert (Hm : js_mul (jfy c) (Finite 0.12) <> NotANumber).
  { destruct (jfy c) as [y|sy|]; [discriminate|discriminate|contradiction]. }
  destruct (js_clamp_range _ (-0.15) 0.15 ltac:(lra) Hm) as (tsw & Es & _).
  destruct (modulate_no_overshoot c tb tsw Eb Es n m b s Hb Hs)
    as (b' & s' & H).
  exists tb, tsw, b', s'. split; [exact Eb|]. split; [exact Es|]. exact H.
Qed.

(** Three calls at full activity from the tempo and swing as constructed. *)
Lemma updateControls_no_overshoot_witness :
  js_tgtBpm (inject (mkControls 0 1 0 1 0)) <> NotANumber
  /\ jfy (inject (mkControls 0 1 0 1 0)) <> NotANumber
  /\ m_bpm (modulated_of fieldDefaults) = Finite 110
  /\ m_swing (modulated_of fieldDefaults) = Finite (swing fieldDefaults)
  /\ exists tb b',
       js_clamp (js_tgtBpm (inject (mkControls 0 1 0 1 0))) (Finite 70) (Finite 180)
       = Finite tb
       /\ m_bpm (modulateAll (repeat (inject (mkControls 0 1 0 1 0)) 3)
                   (modulated_of fieldDefaults)) = Finite b'
       /\ ((110 <= tb)%Q -> (110 <= b' <= tb)%Q).
Proof.
  assert (Ht : js_tgtBpm (inject (mkControls 0 1 0 1 0)) <> NotANumber)
    by (vm_compute; discriminate).
  assert (Hy : jfy (inject (mkControls 0 1 0 1 0)) <> NotANumber) by discriminate.
  assert (Hb : m_bpm (modulated_of fieldDefaults) = Finite 110) by reflexivity.
  assert (Hs : m_swing (modulated_of fieldDefaults)
               = Finite (swing fieldDefaults)) by reflexivity.
  split; [exact Ht|]. split; [exact Hy|]. split; [exact Hb|]. split; [exact Hs|].
  destruct (updateControls_no_overshoot (inject (mkControls 0 1 0 1 0)) 3
              (modulated_of fieldDefaults) 110 (swing fieldDefaults) Ht Hy Hb Hs)
    as (tb & tsw & b' & s' & Eb & _ & Eb' & _ & H1 & _).
  exists tb, b'. split; [exact Eb|]. split; [exact Eb'|exact H1].
Defined.

(** ** A NaN activity *)

Lemma euclid_js_refines (fuel : nat) (k n rot : Z) :
  euclid_js fuel (Int k) n rot = euclid_fuel fuel k n rot.
Proof. reflexivity. Qed.

Lemma euclid_js_NaN (fuel : nat) (n rot : Z) : euclid_js fuel NaN n rot = None.
Proof.
  unfold euclid_js. cbn [clamp_onsets minus_from].
  rewrite bj_loop_NaN; reflexivity.
Qed.

Lemma modulate_bpm_NaN (c : JsControls) (m : Modulated) :
  m_bpm m = NotANumber -> m_bpm (modulate c m) = NotANumber.
Proof. intro H. unfold modulate. cbn [m_bpm]. rewrite H. reflexivity. Qed.

Lemma modulateAll_bpm_NaN (cs : list JsControls) : forall m,
  m_bpm m = NotANumber -> m_bpm (modulateAll cs m) = NotANumber.
Proof.
  induction cs as [|c cs IH]; intros m H; [exact H|].
  unfold modulateAll in *. cbn [fold_left]. apply IH.
  apply modulate_bpm_NaN. exact H.
Qed.

(** X30. [updateControls] checks nothing: a NaN activity passes through
    [clamp] and [Math.round], so the call leaves NaN in the tempo and in
    the hat and snare densities. With a NaN density [euclid] never returns,
    with any length and rotation (no remainder is ever [<= 1]), so the next
    scheduled step hangs; and the tempo stays NaN whatever controls follow,
    since [lerp] from NaN is NaN. *)
Theorem updateControls_NaN_activity (c : JsControls) (m : Modulated) :
  jactivity c = NotANumber ->
  let m' := modulate c m in
  m_bpm m' = NotANumber /\ m_denHat m' = NaN /\ m_denSnare m' = NaN
  /\ (forall fuel n rot,
        euclid_js fuel (m_denSnare m') n rot = None
        /\ euclid_js fuel (m_denHat m') n rot = None)
  /\ (forall cs, m_bpm (modulateAll cs m') = NotANumber).
Proof.
  intro H. cbv zeta.
  destruct (modulate_NaN_activity c m H) as (_ & Hb & Hh & Hs).
  split; [exact Hb|]. split; [exact Hh|]. split; [exact Hs|].
  split.
  - intros fuel n rot. rewrite Hs, Hh. split; apply euclid_js_NaN.
  - intro cs. apply modulateAll_bpm_NaN. exact Hb.
Qed.

Lemma updateControls_NaN_activity_witness :
  jactivity (mkJsControls (Finite 0) (Finite 0) (Finite 0) NotANumber (Finite 0))
  = NotANumber
  /\ m_denSnare
       (modulate
          (mkJsControls (Finite 0) (Finite 0) (Finite 0) NotANumber (Finite 0))
          (modulated_of fieldDefaults)) = NaN
  /\ euclid_js 1000
       (m_denSnare
          (modulate
             (mkJsControls (Finite 0) (Finite 0) (Finite 0) NotANumber (Finite 0))
             (modulated_of fieldDefaults))) 16 3 = None.
Proof.
  split; [reflexivity|].
  destruct (updateControls_NaN_activity
              (mkJsControls (Finite 0) (Finite 0) (Finite 0) NotANumber (Finite 0))
              (modulated_of fieldDefaults) eq_refl)
    as (_ & _ & Hs & He & _).
  split; [exact Hs|]. apply He.
Defined.

(** ** What a scheduled step sends to the backend *)

Lemma emits_bind (A B : Type) (P : A -> list Call -> Prop)
      (R : B -> list Call -> Prop) (m : M A) (k : A -> M B) :
  emits P m ->
  (forall a tr1, P a tr1 -> emits (fun b tr2 => R b (tr1 ++ tr2)) (k a)) ->
  emits R (bind m k).
Proof.
  intros Hm Hk e. destruct (Hm e) as (a & g & tr & E & HP).
  destruct (Hk a tr HP (set_rng g (set_trace (trace e ++ tr) e)))
    as (b & g' & tr' & E' & HR).
  exists b, g', (tr ++ tr'). split; [|exact HR].
  unfold bind. rewrite E, E'. cbn [trace set_rng set_trace].
  rewrite app_assoc. reflexivity.
Qed.

Lemma emits_weaken (A : Type) (P Q : A -> list Call -> Prop) (m : M A) :
  (forall a tr, P a tr -> Q a tr) -> emits P m -> emits Q m.
Proof.
  intros H Hm e. destruct (Hm e) as (a & g & tr & E & HP).
  exists a, g, tr. split; [exact E|apply H; exact HP].
Qed.

Lemma emits_quiet_bind (A B : Type) (Q : A -> Prop)
      (R : B -> list Call -> Prop) (m : M A) (k : A -> M B) :
  emits (fun a tr => tr = [] /\ Q a) m ->
  (forall a, Q a -> emits R (k a)) ->
  emits R (bind m k).
Proof.
  intros Hm Hk. apply (emits_bind _ _ _ _ _ _ Hm).
  intros a tr1 [-> HQ]. exact (Hk a HQ).
Qed.

Lemma emits_ret (A : Type) (a : A) : emits (fun b tr => tr = [] /\ b = a) (ret a).
Proof.
  intro e. exists a, (rng e), []. unfold ret. rewrite app_nil_r.
  split; [destruct e; reflexivity|split; reflexivity].
Qed.

Lemma emits_rand : emits (fun v tr => tr = [] /\ (0 <= v /\ v < 1)%Q) rand.
Proof.
  intro e. unfold rand. pose proof (draw_range e) as H. unfold draw in *.
  destruct (sfc_next (rng e)) as [v g]. cbn [fst] in H.
  exists v, g, []. rewrite app_nil_r.
  split; [destruct e; reflexivity|split; [reflexivity|exact H]].
Qed.

Lemma emits_randInt (m : Z) :
  0 < m -> emits (fun i tr => tr = [] /\ 0 <= i < m) (randInt m).
Proof.
  intros Hm e. unfold randInt.
  destruct (drawInt_frame m e Hm) as (i & g & E & Hi).
  exists i, g, []. rewrite app_nil_r, E.
  split; [destruct e; reflexivity|split; [reflexivity|exact Hi]].
Qed.

Lemma emits_emit (c : Call) : emits (fun _ tr => tr = [c]) (emit c).
Proof. intro e. exists tt, (rng e), [c]. split; reflexivity. Qed.

Lemma emits_hit (k n rot i : Z) :
  1 <= Z.min k n ->
  emits (fun b tr => tr = [] /\ b = onset k n rot i) (hit k n rot i).
Proof.
  intros H e. destruct (euclid_pattern k n H) as (p0 & _ & _ & _ & He).
  unfold hit, onset. rewrite He. eexists; exists (rng e), [].
  rewrite app_nil_r. split; [destruct e; reflexivity|split; reflexivity].
Qed.

Lemma emits_gate (a : bool) (q : Q) :
  emits (fun b tr => tr = [] /\ (b = true -> a = true)) (gate a q).
Proof.
  destruct a; cbn [gate].
  - apply (emits_quiet_bind _ _ _ _ _ _ emits_rand). intros v _.
    eapply emits_weaken; [|apply emits_ret].
    intros b tr [-> _]. split; reflexivity.
  - eapply emits_weaken; [|apply emits_ret].
    intros b tr [-> ->]. split; [reflexivity|discriminate].
Qed.

Lemma emits_one (ok : Call -> Prop) (r : nat) (c : Call) :
  rank c = r -> ok c -> emits (fun _ tr => one_call ok r tr) (emit c).
Proof.
  intros Hr Hok. eapply emits_weaken; [|apply emits_emit].
  intros ? tr ->. exists c. split; [reflexivity|split; assumption].
Qed.

Lemma emits_when (ok : Call -> Prop) (r : nat) (b : bool) (m : M unit) :
  (b = true -> emits (fun _ tr => one_call ok r tr) m) ->
  emits (fun _ tr => at_most_one ok r tr) (when b m).
Proof.
  intro H. destruct b; cbn [when].
  - eapply emits_weaken; [|apply H; reflexivity].
    intros ? tr Htr. right. exact Htr.
  - eapply emits_weaken; [|apply emits_ret]. intros ? tr [-> _]. left. reflexivity.
Qed.

Lemma in_order_from (ok : Call -> Prop) (lo lo' : nat) (tr : list Call) :
  (lo <= lo')%nat -> in_order ok lo' tr -> in_order ok lo tr.
Proof.
  intros Hle [Hs Hf]. split; [exact Hs|].
  revert Hf. apply Forall_impl. intros c [Hr Hc]. split; [lia|exact Hc].
Qed.

Lemma at_most_one_then (ok : Call -> Prop) (lo r : nat) (tr1 tr2 : list Call) :
  (lo <= r)%nat -> at_most_one ok r tr1 -> in_order ok (S r) tr2 ->
  in_order ok lo (tr1 ++ tr2).
Proof.
  intros Hle [->|(c & -> & Hr & Hc)] H2.
  - apply (in_order_from ok lo (S r)); [lia|exact H2].
  - destruct H2 as [Hs Hf]. cbn [app map]. split.
    + constructor; [exact Hs|]. apply Forall_map. revert Hf.
      apply Forall_impl. intros c' [Hr' _]. lia.
    + constructor; [split; [lia|exact Hc]|].
      revert Hf. apply Forall_impl. intros c' [Hr' Hc']. split; [lia|exact Hc'].
Qed.

Lemma emits_voice_bind (B : Type) (ok : Call -> Prop) (lo r : nat)
      (m : M unit) (k : unit -> M B) :
  emits (fun _ tr => at_most_one ok r tr) m -> (lo <= r)%nat ->
  (forall u, emits (fun _ tr => in_order ok (S r) tr) (k u)) ->
  emits (fun _ tr => in_order ok lo tr) (bind m k).
Proof.
  intros Hm Hle Hk. apply (emits_bind _ _ _ _ _ _ Hm).
  intros u tr1 H1. eapply emits_weaken; [|apply Hk].
  intros ? tr2 H2. apply (at_most_one_then ok lo r); assumption.
Qed.

Lemma emits_voice_last (ok : Call -> Prop) (lo r : nat) (m : M unit) :
  emits (fun _ tr => at_most_one ok r tr) m -> (lo <= r)%nat ->
  emits (fun _ tr => in_order ok lo tr) m.
Proof.
  intros Hm Hle. eapply emits_weaken; [|exact Hm].
  intros ? tr H. rewrite <- (app_nil_r tr).
  apply (at_most_one_then ok lo r); [exact Hle|exact H|].
  split; constructor.
Qed.

Lemma emits_trigPad (ok : Call -> Prop) (t : Q) (note : Z) (amp : Q) :
  ok (TrigPad t note amp) ->
  emits (fun _ tr => one_call ok 7 tr) (trigPad t note amp).
Proof.
  intro Hok. unfold trigPad.
  apply (emits_bind _ _ _ _ _ _ (emits_emit (TrigPad t note amp))).
  intros ? tr1 ->.
  repeat (apply (emits_quiet_bind _ _ _ _ _ _ emits_rand); intros ? _).
  eapply emits_weaken; [|apply emits_ret].
  intros ? tr [-> _]. exists (TrigPad t note amp).
  split; [reflexivity|split; [reflexivity|exact Hok]].
Qed.

Lemma pick_scale (l : list Z) (x : Z) :
  l <> [] -> 0 <= x -> In (pick l (Z.rem x (Z.of_nat (length l))) 0) l.
Proof.
  intros Hl Hx. unfold pick. apply nth_In.
  assert (Hlen : 0 < Z.of_nat (length l))
    by (destruct l; [contradiction|cbn [length]; lia]).
  pose proof (Z.rem_bound_pos x (Z.of_nat (length l)) Hx Hlen). lia.
Qed.

Lemma seeded_scale (e : Engine) : seeded e -> scale e <> [].
Proof.
  intros (_ & _ & _ & _ & _ & _ & _ & _ & _ & _ & _ & _ & Hin & _) E.
  rewrite E in Hin. unfold SCALES in Hin. cbn [In] in Hin.
  repeat (destruct Hin as [Hin|Hin]; [discriminate|]). exact Hin.
Qed.

(** In an engine as [setSeed] and [updateControls] leave it, a step
    returns and sends its voices in order, each at most once. *)
Lemma scheduleStep_calls (b : Z) (t : Q) (e : Engine) :
  seeded e -> 0 <= b ->
  exists g tr,
    scheduleStep b t e =
    Some (tt, set_rng g (set_steps (steps e ++ [(b, t)])
                           (set_trace (trace e ++ tr) e)))
    /\ in_order (step_call e b t) 1 tr.
Proof.
  intros Hs Hb.
  pose proof (seeded_playable e Hs) as (Hk & Hsn & Hh & Hc & Hba & Ha).
  pose proof (seeded_scale e Hs) as Hscale.
  assert (HLp : Lp e = 16) by (destruct Hs as (_ & _ & _ & _ & _ & H & _); exact H).
  assert (HLb : 0 <= Z.rem b (Lb e)) by (apply Z.rem_nonneg; lia).
  assert (HLa : 0 <= Z.rem b (La e)) by (apply Z.rem_nonneg; lia).
  assert (HLp' : 0 <= Z.rem b (Lp e)) by (apply Z.rem_nonneg; lia).
  unfold scheduleStep.
  match goal with
  | |- exists g tr, bind ?m ?k e = _ /\ _ =>
      assert (Hv : emits (fun _ tr => in_order (step_call e b t) 1 tr) (k tt))
  end.
  { cbv beta.
    (* kick *)
    eapply emits_quiet_bind; [apply emits_hit; exact Hk|]. intros k Ek.
    apply (emits_voice_bind _ _ 1 1); [|lia|intros _].
    { apply emits_when. intros ->.
      eapply emits_quiet_bind; [apply emits_rand|]. intros v [Hv0 Hv1].
      apply emits_one; [reflexivity|]. cbn [step_call].
      split; [reflexivity|]. split; [lra|]. split; [lra|]. symmetry. exact Ek. }
    (* snare *)
    eapply emits_quiet_bind; [apply emits_hit; exact Hsn|]. intros s Es.
    eapply emits_quiet_bind; [apply emits_gate|]. intros s' Es'.
    apply (emits_voice_bind _ _ 2 2); [|lia|intros _].
    { apply emits_when. intros ->.
      eapply emits_quiet_bind; [apply emits_rand|]. intros v [Hv0 Hv1].
      apply emits_one; [reflexivity|]. cbn [step_call].
      split; [reflexivity|]. split; [lra|]. split; [lra|].
      rewrite <- Es. apply Es'. reflexivity. }
    (* hat *)
    eapply emits_quiet_bind; [apply emits_hit; exact Hh|]. intros h Eh.
    apply (emits_voice_bind _ _ 3 3); [|lia|intros _].
    { apply emits_when. intros ->.
      eapply emits_quiet_bind; [apply emits_rand|]. intros v [Hv0 Hv1].
      apply emits_one; [reflexivity|]. cbn [step_call].
      split; [reflexivity|]. split; [lra|]. split; [lra|]. symmetry. exact Eh. }
    (* clap *)
    eapply emits_quiet_bind; [apply emits_hit; exact Hc|]. intros c Ec.
    eapply emits_quiet_bind; [apply emits_gate|]. intros c' Ec'.
    apply (emits_voice_bind _ _ 4 4); [|lia|intros _].
    { apply emits_when. intros ->.
      apply emits_one; [reflexivity|]. cbn [step_call].
      split; [reflexivity|]. split; [reflexivity|].
      rewrite <- Ec. apply Ec'. reflexivity. }
    (* bass *)
    eapply emits_quiet_bind; [apply emits_hit; exact Hba|]. intros ba Eba.
    eapply emits_quiet_bind; [apply emits_gate|]. intros ba' Eba'.
    apply (emits_voice_bind _ _ 5 5); [|lia|intros _].
    { apply emits_when. intros ->.
      eapply emits_quiet_bind; [apply emits_randInt; lia|]. intros i Hi. cbv beta in Hi.
      cbv zeta.
      eapply emits_quiet_bind; [apply emits_rand|]. intros v _.
      apply emits_one; [reflexivity|]. cbn [step_call].
      split; [reflexivity|]. split; [reflexivity|].
      split; [rewrite <- Eba; apply Eba'; reflexivity|].
      eexists. split; [apply (pick_scale (scale e) (Z.rem b (Lb e) + i) Hscale); lia|].
      destruct (Qltb v 0.2); [right|left]; lia. }
    (* arp *)
    eapply emits_quiet_bind; [apply emits_hit; exact Ha|]. intros a Ea.
    eapply emits_quiet_bind; [apply emits_gate|]. intros a' Ea'.
    apply (emits_voice_bind _ _ 6 6); [|lia|intros _].
    { apply emits_when. intros ->.
      eapply emits_quiet_bind; [apply emits_randInt; lia|]. intros i Hi. cbv beta in Hi.
      cbv zeta.
      eapply emits_quiet_bind; [apply emits_rand|]. intros v _.
      apply emits_one; [reflexivity|]. cbn [step_call].
      split; [reflexivity|]. split; [reflexivity|].
      split; [rewrite <- Ea; apply Ea'; reflexivity|].
      eexists. split; [apply (pick_scale (scale e) (Z.rem b (La e) * 2 + i) Hscale); lia|].
      destruct (Qltb v 0.3); [right|left]; lia. }
    (* pad *)
    eapply emits_quiet_bind; [apply emits_gate|]. intros p Ep.
    apply (emits_voice_last _ 7 7); [|lia].
    apply emits_when. intros ->.
    cbv zeta.
    eapply emits_quiet_bind; [apply emits_rand|]. intros v [Hv0 Hv1].
    apply emits_trigPad. cbn [step_call].
    split; [reflexivity|]. split; [lra|]. split; [lra|].
    split; [apply Z.eqb_eq; apply Ep; reflexivity|].
    eexists. split; [|reflexivity].
    apply (pick_scale (scale e) (Z.rem b (Lp e) / 2 + 1) Hscale).
    pose proof (Z.div_pos (Z.rem b (Lp e)) 2 HLp' ltac:(lia)). lia. }
  unfold bind at 1. unfold modify at 1.
  destruct (Hv (set_steps (steps e ++ [(b, t)]) e)) as (u & g & tr & E & Htr).
  cbv beta in Htr. destruct u.
  rewrite E. exists g, tr. split; [reflexivity|exact Htr].
Qed.

Lemma ranks_bounded (l : list nat) : forall lo,
  StronglySorted lt l -> Forall (fun r => (lo <= r <= 7)%nat) l ->
  (length l <= 8 - lo)%nat.
Proof.
  induction l as [|a l IH]; intros lo Hs Hf; [cbn [length]; lia|].
  apply StronglySorted_inv in Hs. destruct Hs as [Hs Ha].
  inversion Hf as [|? ? Hlo Hrest]; subst.
  assert (H : (length l <= 8 - S a)%nat).
  { apply IH; [exact Hs|]. rewrite Forall_forall in *.
    intros r Hr. specialize (Ha r Hr). specialize (Hrest r Hr). lia. }
  cbn [length]. lia.
Qed.

Lemma rank_le_7 (c : Call) : (rank c <= 7)%nat.
Proof. destruct c; cbn [rank]; lia. Qed.

(** X18. One step, on any engine the class reaches and for any step
    counter: [scheduleStep] returns and hands the backend at most one call
    per voice, in the order kick, snare, hat, clap, bass, arp, pad (so at
    most seven, and no parameter automation). Every call carries the
    step's instant (the clap 2 ms later) and sounds only where its
    Euclidean pattern has an onset (the pad on every eighth step of its
    cycle); kick, hat and pad levels and the snare's filter frequency stay
    in the bands [0.9, 1.1), [0.25, 0.35), [0.5, 0.7) and [1800, 2600); bass
    and arp take a degree of the engine's scale, optionally an octave
    up. *)
Theorem scheduleStep_voices (b : Z) (t : Q) (e : Engine) :
  seeded e -> 0 <= b ->
  exists g tr,
    scheduleStep b t e =
    Some (tt, set_rng g (set_steps (steps e ++ [(b, t)])
                           (set_trace (trace e ++ tr) e)))
    /\ StronglySorted lt (map rank tr)
    /\ Forall (step_call e b t) tr
    /\ Forall (fun c => is_trigger c = true) tr
    /\ (length tr <= 7)%nat.
Proof.
  intros Hs Hb.
  destruct (scheduleStep_calls b t e Hs Hb) as (g & tr & E & Hsorted & Hall).
  exists g, tr. split; [exact E|]. split; [exact Hsorted|].
  split; [revert Hall; apply Forall_impl; intros c [_ Hc]; exact Hc|].
  split.
  - revert Hall. apply Forall_impl. intros c [Hr _].
    destruct c; [cbn [rank] in Hr; lia|reflexivity..].
  - pose proof (ranks_bounded (map rank tr) 1 Hsorted) as H.
    rewrite length_map in H.
    assert (Hf : Forall (fun r => (1 <= r <= 7)%nat) (map rank tr)).
    { apply Forall_map. revert Hall. apply Forall_impl. intros c [Hr _].
      split; [exact Hr|apply rank_le_7]. }
    specialize (H Hf). lia.
Qed.

Lemma scheduleStep_voices_witness :
  seeded fieldDefaults /\ 0 <= 5
  /\ exists g tr,
    scheduleStep 5 1 fieldDefaults =
    Some (tt, set_rng g (set_steps (steps fieldDefaults ++ [(5, 1%Q)])
                           (set_trace (trace fieldDefaults ++ tr) fieldDefaults)))
    /\ StronglySorted lt (map rank tr)
    /\ Forall (step_call fieldDefaults 5 1) tr
    /\ Forall (fun c => is_trigger c = true) tr
    /\ (length tr <= 7)%nat.
Proof.
  assert (Hs : seeded fieldDefaults).
  { unfold seeded, SCALES. cbn. intuition lia. }
  assert (Hb : 0 <= 5) by lia.
  split; [exact Hs|]. split; [exact Hb|].
  apply (scheduleStep_voices 5 1 fieldDefaults Hs Hb).
Defined.

Lemma scale_degrees (e : Engine) (deg : Z) :
  seeded e -> In deg (scale e) -> 0 <= deg <= 11.
Proof.
  intros (_ & _ & _ & _ & _ & _ & _ & _ & _ & _ & _ & _ & Hin & _) Hd.
  assert (H : Forall (Forall (fun y => 0 <= y <= 11)) SCALES)
    by (unfold SCALES; repeat constructor; lia).
  rewrite Forall_forall in H. specialize (H (scale e) Hin).
  rewrite Forall_forall in H. apply H. exact Hd.
Qed.

(** X19. On any engine the class reaches, every note number a step
    hands to [mtof] is within the instrument's register: the bass within
    32..62, the arp within 44..74 and the pad within 56..74, whatever the
    seed, the scale drawn and the generator's state. *)
Theorem scheduleStep_notes (b : Z) (t : Q) (e : Engine) :
  seeded e -> 0 <= b ->
  exists g tr,
    scheduleStep b t e =
    Some (tt, set_rng g (set_steps (steps e ++ [(b, t)])
                           (set_trace (trace e ++ tr) e)))
    /\ Forall note_range tr.
Proof.
  intros Hs Hb.
  destruct (scheduleStep_calls b t e Hs Hb) as (g & tr & E & _ & Hall).
  exists g, tr. split; [exact E|].
  assert (Hbase : 32 <= baseNote e <= 39)
    by (destruct Hs as (_ & _ & _ & _ & _ & _ & _ & _ & _ & _ & _ & _ & _ & H);
        exact H).
  revert Hall. apply Forall_impl. intros c [_ Hc].
  destruct c; cbn [step_call note_range] in *; try exact I.
  - destruct Hc as (_ & _ & _ & deg & Hin & Hn).
    pose proof (scale_degrees e deg Hs Hin). lia.
  - destruct Hc as (_ & _ & _ & deg & Hin & Hn).
    pose proof (scale_degrees e deg Hs Hin). lia.
  - destruct Hc as (_ & _ & _ & _ & deg & Hin & Hn).
    pose proof (scale_degrees e deg Hs Hin). lia.
Qed.

Lemma scheduleStep_notes_witness :
  seeded fieldDefaults /\ 0 <= 8
  /\ exists g tr,
    scheduleStep 8 1 fieldDefaults =
    Some (tt, set_rng g (set_steps (steps fieldDefaults ++ [(8, 1%Q)])
                           (set_trace (trace fieldDefaults ++ tr) fieldDefaults)))
    /\ Forall note_range tr.
Proof.
  assert (Hs : seeded fieldDefaults).
  { unfold seeded, SCALES. cbn. intuition lia. }
  assert (Hb : 0 <= 8) by lia.
  split; [exact Hs|]. split; [exact Hb|].
  apply (scheduleStep_notes 8 1 fieldDefaults Hs Hb).
Defined.

(** ** Stop, on a page used serially *)

Lemma no_dispatch_after_stop_serial_witness :
  exists w w',
    serial [CallStart; ResumeFulfilled 0]
    /\ run 10 [CallStart; ResumeFulfilled 0] (newWorld []) = Some w
    /\ Forall not_start [TimerFires 1 0; CallStop]
    /\ run 10 (CallStop :: [TimerFires 1 0; CallStop]) w = Some w'
    /\ triggers (eng w') = triggers (eng w)
    /\ steps (eng w') = steps (eng w)
    /\ timers w' = [] /\ running (eng w') = false.
Proof.
  eexists.
  assert (E : run 10 [CallStart; ResumeFulfilled 0] (newWorld [])
              = Some (mkWorld
                        (set_int (Some 1%nat)
                           (set_beat 0
                              (set_nextNoteTime (0 + 0.05)%Q
                                 (set_running true (newEngine [])))))
                        [1%nat] 2 0 [Started])) by (vm_compute; reflexivity).
  assert (Hser : serial [CallStart; ResumeFulfilled 0]) by exact I.
  assert (Hn : Forall not_start [TimerFires 1 0; CallStop])
    by (repeat constructor).
  destruct (no_dispatch_after_stop_serial 10 [] [CallStart; ResumeFulfilled 0]
              [TimerFires 1 0; CallStop] _ Hser E Hn)
    as (w' & E' & H1 & H2 & H3 & H4).
  exists w'. split; [exact Hser|]. split; [exact E|]. split; [exact Hn|].
  repeat split; assumption.
Defined.

(** * The page component *)

(** ** Seeded traits *)

Lemma call_int_range (g : Sfc) (i : nat) (m : Z) :
  0 < m -> 0 <= call_int g i m < m.
Proof.
  intro Hm. unfold call_int. pose proof (sfc_call_range g i) as [H0 H1].
  assert (Hm' : (0 < inject_Z m)%Q) by (unfold Qlt; cbn; lia).
  split.
  - change 0 with (Qfloor 0). apply Qfloor_resp_le. nra.
  - rewrite Zlt_Qlt.
    apply Qle_lt_trans with (sfc_call g i * inject_Z m)%Q;
      [apply Qfloor_le | nra].
Qed.

(** The memo reads six calls of the generator, in the order of the
    source. *)
Lemma traits_calls (g : Sfc) :
  traits g =
  (mkTraits (algo_name (call_int g 0 133))
     (nth (Z.to_nat (call_int g 1 6)) PALETTES [])
     (0.25 + sfc_call g 2 * 0.85)%Q (0.02 + sfc_call g 3 * 0.08)%Q
     (1.0 + sfc_call g 4 * 3.5)%Q (0.3 + sfc_call g 5 * 1.2)%Q,
   sfc_after 6 g).
Proof.
  unfold traits, call_int, sfc_call. cbn [sfc_after].
  change (Z.of_nat (length ALGORITHMS)) with 133.
  change (Z.of_nat (length PALETTES)) with 6.
  destruct (sfc_next g) as [v0 g0]; cbn [fst snd].
  destruct (sfc_next g0) as [v1 g1]; cbn [fst snd].
  destruct (sfc_next g1) as [v2 g2]; cbn [fst snd].
  destruct (sfc_next g2) as [v3 g3]; cbn [fst snd].
  destruct (sfc_next g3) as [v4 g4]; cbn [fst snd].
  destruct (sfc_next g4) as [v5 g5]; cbn [fst snd].
  reflexivity.
Qed.

(** X21. Whatever the state of the generator, the traits are well
    formed: the algorithm is one of the 133 listed, the palette one of the
    six, with its five colours, and the four shader parameters lie in
    [0.25, 1.1), [0.02, 0.1), [1, 4.5) and [0.3, 1.5). *)
Theorem traits_ranges (g : Sfc) :
  let t := fst (traits g) in
  In (algorithm t) (map snd ALGORITHMS)
  /\ In (palette t) PALETTES /\ length (palette t) = 5%nat
  /\ (0.25 <= warp t /\ warp t < 1.1)%Q
  /\ (0.02 <= grain t /\ grain t < 0.1)%Q
  /\ (1 <= tscale t /\ tscale t < 4.5)%Q
  /\ (0.3 <= speed t /\ speed t < 1.5)%Q.
Proof.
  cbv zeta. rewrite traits_calls.
  cbn [fst algorithm palette warp grain tscale speed].
  pose proof (call_int_range g 0 133 ltac:(lia)) as Ha.
  pose proof (call_int_range g 1 6 ltac:(lia)) as Hp.
  pose proof (sfc_call_range g 2) as [? ?].
  pose proof (sfc_call_range g 3) as [? ?].
  pose proof (sfc_call_range g 4) as [? ?].
  pose proof (sfc_call_range g 5) as [? ?].
  assert (Hpal : In (nth (Z.to_nat (call_int g 1 6)) PALETTES []) PALETTES).
  { apply nth_In. change (length PALETTES) with 6%nat. lia. }
  split.
  { unfold algo_name. apply in_map. apply nth_In.
    change (length ALGORITHMS) with 133%nat. lia. }
  split; [exact Hpal|]. split.
  { assert (Hfive : Forall (fun p => length p = 5%nat) PALETTES)
      by (unfold PALETTES; repeat constructor).
    rewrite Forall_forall in Hfive. apply Hfive. exact Hpal. }
  repeat split; lra.
Qed.

Lemma mode_round_trip_all (i : nat) :
  (i < 133)%nat -> mode_round_trip i = true.
Proof.
  intro Hi.
  assert (Hall : forallb mode_round_trip (seq 0 133) = true)
    by (vm_compute; reflexivity).
  rewrite forallb_forall in Hall. apply Hall. apply in_seq. lia.
Qed.

(** X22. The shader mode is found again from the algorithm's name: the
    names of the list are pairwise different, so
    [ALGORITHMS.findIndex(a => a.name === traits.algorithm)] is the index
    that was drawn, which is also the entry's [key]; it is never -1. *)
Theorem traits_mode_round_trip (g : Sfc) :
  let t := fst (traits g) in
  let i := call_int g 0 133 in
  0 <= i < 133
  /\ algorithm t = algo_name i
  /\ uMode t = i
  /\ fst (nth (Z.to_nat i) ALGORITHMS (0, EmptyString)) = i.
Proof.
  cbv zeta. rewrite traits_calls. unfold uMode. cbn [fst algorithm].
  pose proof (call_int_range g 0 133 ltac:(lia)) as Ha.
  split; [exact Ha|]. split; [reflexivity|].
  generalize dependent (call_int g 0 133). intros i Hi.
  pose proof (mode_round_trip_all (Z.to_nat i) ltac:(lia)) as Hall.
  unfold mode_round_trip in Hall. rewrite Z2Nat.id in Hall by lia.
  apply andb_true_iff in Hall. destruct Hall as [H1 H2].
  apply Z.eqb_eq in H1. apply Z.eqb_eq in H2.
  split; [exact H1|exact H2].
Qed.

Lemma traits_after_calls (j : nat) (g : Sfc) :
  traits_after j g = traits (sfc_after (6 * j) g).
Proof.
  induction j as [|j IH]; [reflexivity|].
  cbn [traits_after]. rewrite IH, (traits_calls (sfc_after (6 * j) g)).
  cbn [snd]. rewrite sfc_after_after. f_equal. f_equal. lia.
Qed.

(** X23. The generator is memoised on the seed alone, the traits on seed
    and edition: when the edition goes up (every mint does that) the traits
    are drawn again from the same generator, which has moved on. The
    traits after [j] such recomputations are made of the calls [6j] to
    [6j + 5], not of the calls 0 to 5: for one seed, the algorithm, palette
    and parameters shown change with every mint. *)
Theorem traits_redrawn_per_edition (j : nat) (g : Sfc) :
  let t := fst (traits_after j g) in
  algorithm t = algo_name (call_int g (6 * j) 133)
  /\ palette t = nth (Z.to_nat (call_int g (6 * j + 1) 6)) PALETTES []
  /\ warp t = (0.25 + sfc_call g (6 * j + 2) * 0.85)%Q
  /\ grain t = (0.02 + sfc_call g (6 * j + 3) * 0.08)%Q
  /\ tscale t = (1.0 + sfc_call g (6 * j + 4) * 3.5)%Q
  /\ speed t = (0.3 + sfc_call g (6 * j + 5) * 1.2)%Q
  /\ snd (traits_after j g) = sfc_after (6 * S j) g.
Proof.
  cbv zeta. rewrite traits_after_calls, traits_calls.
  cbn [fst snd algorithm palette warp grain tscale speed].
  rewrite !call_int_after, sfc_after_after.
  assert (Hc : forall i, sfc_call (sfc_after (6 * j) g) i = sfc_call g (i + 6 * j)).
  { intro i. unfold sfc_call. rewrite sfc_after_after.
    rewrite (Nat.add_comm (6 * j) i). reflexivity. }
  rewrite !Hc.
  replace (0 + 6 * j)%nat with (6 * j)%nat by lia.
  replace (1 + 6 * j)%nat with (6 * j + 1)%nat by lia.
  replace (2 + 6 * j)%nat with (6 * j + 2)%nat by lia.
  replace (3 + 6 * j)%nat with (6 * j + 3)%nat by lia.
  replace (4 + 6 * j)%nat with (6 * j + 4)%nat by lia.
  replace (5 + 6 * j)%nat with (6 * j + 5)%nat by lia.
  replace (6 * j + 6)%nat with (6 * S j)%nat by lia.
  repeat split; reflexivity.
Qed.

(** ** The temporal gate *)

Lemma accumulate_bounds (above : bool) (acc dt : Q) :
  (0 <= dt -> 0 <= acc <= 4 ->
   0 <= accumulate above acc dt <= 4
   /\ acc - dt <= accumulate above acc dt <= acc + dt)%Q.
Proof.
  intros Hdt [H0 H4]. unfold accumulate, commitSec. destruct above.
  - pose proof (Q.le_min_l (acc + dt) (3 + 1)).
    pose proof (Q.le_min_r (acc + dt) (3 + 1)).
    assert (0 <= Qmin (acc + dt) (3 + 1))%Q by (apply Q.min_glb; lra).
    assert (acc - dt <= Qmin (acc + dt) (3 + 1))%Q by (apply Q.min_glb; lra).
    repeat split; lra.
  - pose proof (Q.le_max_l (acc - dt) 0).
    pose proof (Q.le_max_r (acc - dt) 0).
    assert (Qmax (acc - dt) 0 <= 4)%Q by (apply Q.max_lub; lra).
    assert (Qmax (acc - dt) 0 <= acc + dt)%Q by (apply Q.max_lub; lra).
    repeat split; lra.
Qed.

Ltac by_comparisons :=
  repeat match goal with
         | H : Qltb _ _ = true |- _ => apply Qltb_lt in H
         | H : Qltb _ _ = false |- _ => apply Qltb_ge in H
         end.

(** The head of the sorted list is the first of the largest. *)
Lemma sort_desc_leader (a b c d : Q) :
  exists k v rest,
    sort_desc [(ModeFx, a); (ModeFy, b); (ModeApproach, c); (ModeActivity, d)]
    = (k, v) :: rest
    /\ (a <= v /\ b <= v /\ c <= v /\ d <= v)%Q
    /\ ((k = ModeFx /\ v = a)
        \/ (k = ModeFy /\ v = b /\ (a < b)%Q)
        \/ (k = ModeApproach /\ v = c /\ (a < c)%Q /\ (b < c)%Q)
        \/ (k = ModeActivity /\ v = d /\ (a < d)%Q /\ (b < d)%Q /\ (c < d)%Q)).
Proof.
  unfold sort_desc. cbn [fold_left insert_desc snd].
  repeat match goal with
         | |- context [Qltb ?x ?y] => destruct (Qltb x y) eqn:?;
                                      cbn [insert_desc snd]
         end;
    by_comparisons; do 3 eexists; (split; [reflexivity|]);
    (split; [repeat split; lra|]);
    first [ left; split; [reflexivity|reflexivity]
          | right; left; split; [reflexivity|split; [reflexivity|lra]]
          | right; right; left;
            split; [reflexivity|split; [reflexivity|split; lra]]
          | right; right; right;
            split; [reflexivity|split; [reflexivity|repeat split; lra]] ].
Qed.

Lemma is_none_true (m : GateMode) : is_none m = true <-> m = ModeNone.
Proof. destruct m; cbn [is_none]; split; congruence. Qed.

Lemma hold_down (h dt : Q) :
  (0 <= dt -> 0 <= h <= 1.2 ->
   0 <= Qmax 0 (h - dt) <= 1.2
   /\ (Qmax 0 (h - dt) == 0 \/ Qmax 0 (h - dt) == h - dt)
   /\ h - dt <= Qmax 0 (h - dt))%Q.
Proof.
  intros Hdt [H0 H1].
  pose proof (Q.le_max_l 0 (h - dt)). pose proof (Q.le_max_r 0 (h - dt)).
  assert (Qmax 0 (h - dt) <= 1.2)%Q by (apply Q.max_lub; lra).
  split; [split; lra|]. split; [|lra].
  destruct (Q.max_spec 0 (h - dt)) as [[_ E]|[_ E]]; [right|left]; exact E.
Qed.

Lemma gate_tick_ok (dt T : Q) (s : CamSig) (g : Gate) :
  (0 <= dt)%Q -> gate_ok T g -> gate_ok (T + dt) (gate_tick dt s g).
Proof.
  intros Hdt ([Hx HxT] & [Hy HyT] & [Ha HaT] & [Hc HcT] & Hh & Hm).
  pose proof (accumulate_bounds (Qltb th_fx (Qabs (camFx s))) (accX g) dt Hdt Hx)
    as [Bx Dx].
  pose proof (accumulate_bounds (Qltb th_fy (Qabs (camFy s))) (accY g) dt Hdt Hy)
    as [By Dy].
  pose proof (accumulate_bounds (Qltb th_appr (Qabs (camApproach s)))
                (accAppr g) dt Hdt Ha) as [Ba Da].
  pose proof (accumulate_bounds (Qltb th_act (Qabs (camActivity s)))
                (accAct g) dt Hdt Hc) as [Bc Dc].
  unfold gate_tick.
  set (aX := accumulate (Qltb th_fx (Qabs (camFx s))) (accX g) dt) in *.
  set (aY := accumulate (Qltb th_fy (Qabs (camFy s))) (accY g) dt) in *.
  set (aA := accumulate (Qltb th_appr (Qabs (camApproach s))) (accAppr g) dt) in *.
  set (aC := accumulate (Qltb th_act (Qabs (camActivity s))) (accAct g) dt) in *.
  assert (Haccs : acc_ok (T + dt) aX /\ acc_ok (T + dt) aY
                  /\ acc_ok (T + dt) aA /\ acc_ok (T + dt) aC)
    by (unfold acc_ok; repeat split; lra).
  destruct Haccs as (Ax & Ay & Aa & Ac).
  cbv zeta. destruct (is_none (gmode g)) eqn:Em.
  - apply is_none_true in Em.
    destruct (sort_desc_leader aX aY aA aC) as (k & v & rest & E & _ & Hk).
    rewrite E. destruct (Qle_bool commitSec v) eqn:Ec.
    + apply Qle_bool_iff in Ec. unfold commitSec in Ec.
      unfold gate_ok. cbn [accX accY accAppr accAct hold gmode].
      split; [exact Ax|]. split; [exact Ay|]. split; [exact Aa|].
      split; [exact Ac|]. split; [unfold releaseHold; lra|].
      intros _. unfold releaseHold, acc_ok in *.
      destruct Hk as [[-> ->]|[(-> & -> & _)|[(-> & -> & _)|(-> & -> & _)]]];
        cbn [acc_of accX accY accAppr accAct]; split; try lra; right; lra.
    + unfold gate_ok. cbn [accX accY accAppr accAct hold gmode].
      split; [exact Ax|]. split; [exact Ay|]. split; [exact Aa|].
      split; [exact Ac|]. split; [exact Hh|].
      intro Hne. contradiction.
  - assert (Hne : gmode g <> ModeNone)
      by (intro E; apply is_none_true in E; congruence).
    destruct (Hm Hne) as [HT Hhold].
    destruct (hold_down (hold g) dt Hdt Hh) as (Hh' & Hcase & Hge).
    match goal with
    | |- gate_ok _ (if ?b then _ else _) => destruct b
    end; unfold gate_ok; cbn [accX accY accAppr accAct hold gmode];
      (split; [exact Ax|]); (split; [exact Ay|]); (split; [exact Aa|]);
      (split; [exact Ac|]); (split; [exact Hh'|]).
    + intro H. contradiction.
    + intros _. split; [lra|].
      destruct Hcase as [E0|E1]; [left; exact E0|].
      destruct Hhold as [E0|Hgap].
      * left. lra.
      * right.
        destruct (gmode g); try contradiction;
          cbn [acc_of accX accY accAppr accAct] in *; lra.
Qed.

Lemma lerp_k_between (lo hi a b k : Q) :
  (lo <= a <= hi -> lo <= b <= hi -> lo <= lerp_k a b k <= hi)%Q.
Proof.
  intros Ha Hb. unfold lerp_k.
  assert (H0 : (0 <= Qmin (Qmax k 0) 1)%Q)
    by (apply Q.min_glb; [apply Q.le_max_r|lra]).
  pose proof (Q.le_min_r (Qmax k 0) 1) as H1.
  split; nra.
Qed.

Lemma weight_cases (m on : GateMode) : weight m on = 1.0%Q \/ weight m on = 0.2%Q.
Proof. destruct m, on; cbn [weight]; auto. Qed.

Lemma mix_ok (s : CamSig) (m : GateMode) (eff : Vec4) :
  sig_ok s -> eff_ok eff -> eff_ok (mix s m eff).
Proof.
  intros (Hx & Hy & Ha & Hc) (Ex & Ey & Ea & Ec).
  unfold mix, eff_ok. cbn [vx vy vz vw].
  split; [|split; [|split]]; apply lerp_k_between; try assumption.
  - destruct (weight_cases m ModeFx) as [-> | ->]; lra.
  - destruct (weight_cases m ModeFy) as [-> | ->]; lra.
  - destruct (weight_cases m ModeApproach) as [-> | ->]; lra.
  - destruct (weight_cases m ModeActivity) as [-> | ->]; lra.
Qed.

Lemma clamp_unit (lo x : Q) :
  (lo <= 1 -> lo <= Qmax lo (Qmin 1 x) <= 1)%Q.
Proof.
  intro H. split; [apply Q.le_max_l|].
  apply Q.max_lub; [exact H|apply Q.le_min_l].
Qed.

Lemma approach_ratio (c e : Q) :
  (0 <= c -> 0 <= e ->
   -1 <= (c - e) / (c + e + (1 # 100000)) <= 1)%Q.
Proof.
  intros Hc He.
  assert (Hd : (0 < c + e + (1 # 100000))%Q) by lra.
  split.
  - apply Qle_shift_div_l; [exact Hd|lra].
  - apply Qle_shift_div_r; [exact Hd|lra].
Qed.

Lemma cam_update_ok (m : Motion) (s : CamSig) (c : Q * Q) :
  (0 <= cSum m)%Q -> (0 <= eSum m)%Q -> sig_ok s ->
  sig_ok (fst (cam_update m (s, c))).
Proof.
  intros Hc He (Hx & Hy & Ha & Hact). unfold cam_update. destruct c as [px py].
  destruct (Qltb (1 # 1000000) (mSum m)); [|cbn [fst]; repeat split; tauto].
  cbv zeta. cbn [fst]. unfold sig_ok, smooth, FLOW_GAIN, APPROACH_GAIN.
  cbn [camFx camFy camApproach camActivity].
  pose proof (clamp_unit (-1) ((sumX m / mSum m - px) * 6.0 * 2.5) ltac:(lra)).
  pose proof (clamp_unit (-1) ((sumY m / mSum m - py) * 6.0 * 2.5) ltac:(lra)).
  pose proof (clamp_unit 0 (mSum m / (96 * 72 * 0.06)) ltac:(lra)).
  pose proof (approach_ratio (cSum m) (eSum m) Hc He).
  repeat split; lra.
Qed.

Lemma page_ok_le (T T' : Q) (p : Page) :
  (T <= T')%Q -> page_ok T p -> page_ok T' p.
Proof.
  intros Hle (Hs & He & [Hx HxT] & [Hy HyT] & [Ha HaT] & [Hc HcT] & Hh & Hm).
  split; [exact Hs|]. split; [exact He|].
  unfold gate_ok, acc_ok.
  split; [split; [exact Hx|lra]|]. split; [split; [exact Hy|lra]|].
  split; [split; [exact Ha|lra]|]. split; [split; [exact Hc|lra]|].
  split; [exact Hh|].
  intro Hne. destruct (Hm Hne) as [HT Hcase]. split; [lra|exact Hcase].
Qed.

Lemma page_step_ok (ev : PageEvent) (T : Q) (p : Page) :
  well_timed ev -> page_ok T p ->
  page_ok (T + elapsed [ev]) (page_step ev p).
Proof.
  intros Hev (Hs & He & Hg). destruct ev as [dt|m]; cbn [well_timed] in Hev.
  - unfold elapsed. cbn [page_step fold_right].
    apply page_ok_le with (T + dt)%Q; [lra|].
    split; [exact Hs|]. split; [|apply gate_tick_ok; assumption].
    cbn [effSig camSig]. apply mix_ok; assumption.
  - destruct Hev as [Hc' He']. unfold elapsed. cbn [page_step fold_right].
    pose proof (cam_update_ok m (camSig p) (centroid p) Hc' He' Hs) as Hs'.
    destruct (cam_update m (camSig p, centroid p)) as [s' c'].
    cbn [fst] in Hs'.
    apply page_ok_le with T; [lra|].
    split; [exact Hs'|]. split; [exact He|exact Hg].
Qed.

Lemma elapsed_cons (ev : PageEvent) (evs : list PageEvent) :
  (elapsed (ev :: evs) == elapsed [ev] + elapsed evs)%Q.
Proof. destruct ev; unfold elapsed; cbn [fold_right]; ring. Qed.

Lemma page_run_ok (evs : list PageEvent) : forall T p,
  Forall well_timed evs -> page_ok T p ->
  page_ok (T + elapsed evs) (page_run evs p).
Proof.
  induction evs as [|ev evs IH]; intros T p Hall Hp.
  - unfold elapsed, page_run. cbn [fold_left fold_right].
    apply page_ok_le with T; [lra|exact Hp].
  - inversion Hall as [|? ? Hev Hrest]; subst.
    change (page_run (ev :: evs) p) with (page_run evs (page_step ev p)).
    apply page_ok_le with (T + elapsed [ev] + elapsed evs)%Q;
      [rewrite (elapsed_cons ev evs); lra|].
    apply IH; [exact Hrest|]. apply page_step_ok; assumption.
Qed.

Lemma page0_ok : page_ok 0 page0.
Proof.
  unfold page_ok, page0, sig_ok, eff_ok, gate_ok, acc_ok.
  cbn [camSig effSig gateState camFx camFy camApproach camActivity
       vx vy vz vw accX accY accAppr accAct hold gmode].
  repeat split; try lra; try (exfalso; apply H; reflexivity).
Qed.

Lemma page_reach_ok (evs : list PageEvent) :
  Forall well_timed evs -> page_ok (elapsed evs) (page_run evs page0).
Proof.
  intro Hall. apply page_ok_le with (0 + elapsed evs)%Q; [lra|].
  apply page_run_ok; [exact Hall|apply page0_ok].
Qed.

(** X24. However camera frames and render frames interleave, from the
    page's initial state: the camera signals stay in their ranges (flow
    within -1..1, approach within -1.6..1.6, activity within 0..1), so does
    the smoothed signal handed to the shaders, every accumulator of the
    gate stays within 0..4 seconds and the hold timer within 0..1.2. *)
Theorem page_signals_bounded (evs : list PageEvent) :
  Forall well_timed evs ->
  let p := page_run evs page0 in
  sig_ok (camSig p) /\ eff_ok (effSig p)
  /\ (0 <= accX (gateState p) <= 4)%Q /\ (0 <= accY (gateState p) <= 4)%Q
  /\ (0 <= accAppr (gateState p) <= 4)%Q /\ (0 <= accAct (gateState p) <= 4)%Q
  /\ (0 <= hold (gateState p) <= 1.2)%Q.
Proof.
  intro Hall. cbv zeta.
  destruct (page_reach_ok evs Hall)
    as (Hs & He & [Hx _] & [Hy _] & [Ha _] & [Hc _] & Hh & _).
  split; [exact Hs|]. split; [exact He|]. split; [exact Hx|].
  split; [exact Hy|]. split; [exact Ha|]. split; [exact Hc|exact Hh].
Qed.

Lemma page_signals_bounded_witness :
  Forall well_timed [CameraFrame (mkMotion 1000 500 500 600 400); Frame (1 # 60)]
  /\ eff_ok (effSig (page_run [CameraFrame (mkMotion 1000 500 500 600 400);
                               Frame (1 # 60)] page0)).
Proof.
  assert (H : Forall well_timed
                [CameraFrame (mkMotion 1000 500 500 600 400); Frame (1 # 60)]).
  { repeat constructor; cbn; lra. }
  split; [exact H|]. apply (page_signals_bounded _ H).
Defined.

(** X25. No accumulator of the gate exceeds the time the render loop has
    seen, so the gate cannot commit to a signal before three seconds of
    frames have passed, however strong the signal. *)
Theorem gate_commit_takes_3s (evs : list PageEvent) :
  Forall well_timed evs ->
  let g := gateState (page_run evs page0) in
  (accX g <= elapsed evs)%Q /\ (accY g <= elapsed evs)%Q
  /\ (accAppr g <= elapsed evs)%Q /\ (accAct g <= elapsed evs)%Q
  /\ (gmode g <> ModeNone -> (3 <= elapsed evs)%Q).
Proof.
  intro Hall. cbv zeta.
  destruct (page_reach_ok evs Hall)
    as (_ & _ & [_ Hx] & [_ Hy] & [_ Ha] & [_ Hc] & _ & Hm).
  split; [exact Hx|]. split; [exact Hy|]. split; [exact Ha|].
  split; [exact Hc|]. intro Hne. destruct (Hm Hne) as [HT _]. exact HT.
Qed.

(** Motion to the right held over three frames of one second: the
    accumulator of fx reaches 3 and the gate commits. *)
Lemma gate_commit_takes_3s_witness :
  Forall well_timed
    [CameraFrame (mkMotion 1000 500 500 600 400);
     CameraFrame (mkMotion 1000 500 500 600 400); Frame 1; Frame 1; Frame 1]
  /\ gmode (gateState
              (page_run [CameraFrame (mkMotion 1000 500 500 600 400);
                         CameraFrame (mkMotion 1000 500 500 600 400);
                         Frame 1; Frame 1; Frame 1] page0)) <> ModeNone
  /\ (3 <= elapsed [CameraFrame (mkMotion 1000 500 500 600 400);
                    CameraFrame (mkMotion 1000 500 500 600 400);
                    Frame 1; Frame 1; Frame 1])%Q.
Proof.
  assert (H : Forall well_timed
                [CameraFrame (mkMotion 1000 500 500 600 400);
                 CameraFrame (mkMotion 1000 500 500 600 400);
                 Frame 1; Frame 1; Frame 1]).
  { repeat constructor; cbn; lra. }
  assert (Hm : gmode (gateState
                        (page_run [CameraFrame (mkMotion 1000 500 500 600 400);
                                   CameraFrame (mkMotion 1000 500 500 600 400);
                                   Frame 1; Frame 1; Frame 1] page0))
               <> ModeNone).
  { vm_compute. discriminate. }
  split; [exact H|]. split; [exact Hm|].
  destruct (gate_commit_takes_3s _ H) as (_ & _ & _ & _ & H3).
  exact (H3 Hm).
Defined.

Lemma gate_tick_accs (dt : Q) (s : CamSig) (g : Gate) :
  accX (gate_tick dt s g) = accumulate (Qltb th_fx (Qabs (camFx s))) (accX g) dt
  /\ accY (gate_tick dt s g)
     = accumulate (Qltb th_fy (Qabs (camFy s))) (accY g) dt
  /\ accAppr (gate_tick dt s g)
     = accumulate (Qltb th_appr (Qabs (camApproach s))) (accAppr g) dt
  /\ accAct (gate_tick dt s g)
     = accumulate (Qltb th_act (Qabs (camActivity s))) (accAct g) dt.
Proof.
  unfold gate_tick. cbv zeta.
  destruct (is_none (gmode g));
    [destruct (sort_desc _) as [|[k v] r]; [|destruct (Qle_bool commitSec v)]
    |match goal with |- context [if ?b then _ else _] => destruct b end];
    repeat split; reflexivity.
Qed.

(** X26. The hold timer never decides anything. On every page state the
    two loops can reach, a frame in a committed mode releases the gate
    exactly when all four accumulators are under their thresholds, and
    keeps the mode otherwise: by the time the accumulator that won the
    commit (at 3 or more) has fallen under its threshold, the 1.2 seconds
    of hold have long run out. *)
Theorem gate_release_by_accumulators
        (evs : list PageEvent) (dt : Q) (s : CamSig) :
  Forall well_timed evs -> (0 <= dt)%Q ->
  gmode (gateState (page_run evs page0)) <> ModeNone ->
  let g := gateState (page_run evs page0) in
  let g' := gate_tick dt s g in
  (under g' -> gmode g' = ModeNone)
  /\ (~ under g' -> gmode g' = gmode g).
Proof.
  intros Hall Hdt Hne. cbv zeta.
  destruct (page_reach_ok evs Hall)
    as (_ & _ & [Hx _] & [Hy _] & [Ha _] & [Hc _] & Hh & Hm).
  destruct (Hm Hne) as [_ Hcase].
  set (g := gateState (page_run evs page0)) in *.
  destruct (gate_tick_accs dt s g) as (Ex & Ey & Ea & Ec).
  unfold under. rewrite Ex, Ey, Ea, Ec.
  pose proof (accumulate_bounds (Qltb th_fx (Qabs (camFx s))) (accX g) dt Hdt Hx)
    as [_ Dx].
  pose proof (accumulate_bounds (Qltb th_fy (Qabs (camFy s))) (accY g) dt Hdt Hy)
    as [_ Dy].
  pose proof (accumulate_bounds (Qltb th_appr (Qabs (camApproach s)))
                (accAppr g) dt Hdt Ha) as [_ Da].
  pose proof (accumulate_bounds (Qltb th_act (Qabs (camActivity s)))
                (accAct g) dt Hdt Hc) as [_ Dc].
  destruct (hold_down (hold g) dt Hdt Hh) as (Hh' & Hcase' & Hge).
  unfold gate_tick. cbv zeta.
  set (aX := accumulate (Qltb th_fx (Qabs (camFx s))) (accX g) dt) in *.
  set (aY := accumulate (Qltb th_fy (Qabs (camFy s))) (accY g) dt) in *.
  set (aA := accumulate (Qltb th_appr (Qabs (camApproach s))) (accAppr g) dt) in *.
  set (aC := accumulate (Qltb th_act (Qabs (camActivity s))) (accAct g) dt) in *.
  destruct (is_none (gmode g)) eqn:Em;
    [apply is_none_true in Em; contradiction|].
  unfold th_fx, th_fy, th_appr, th_act in *.
  split.
  - intros (Ux & Uy & Ua & Uc).
    assert (Hzero : (Qmax 0 (hold g - dt) == 0)%Q).
    { destruct Hcase' as [E0|E1]; [exact E0|].
      destruct Hcase as [E0|Hgap]; [lra|].
      destruct (gmode g); try contradiction;
        cbn [acc_of] in Hgap; lra. }
    apply Qltb_lt in Ux, Uy, Ua, Uc. rewrite Ux, Uy, Ua, Uc.
    apply Qeq_bool_iff in Hzero. rewrite Hzero. reflexivity.
  - intro Hnot.
    destruct (Qltb aX 0.25) eqn:Bx; [|reflexivity].
    destruct (Qltb aY 0.25) eqn:By; [|reflexivity].
    destruct (Qltb aA 0.2) eqn:Ba; [|reflexivity].
    destruct (Qltb aC 0.35) eqn:Bc; [|reflexivity].
    exfalso. apply Hnot. by_comparisons. repeat split; assumption.
Qed.

Lemma gate_release_by_accumulators_witness :
  Forall well_timed
    [CameraFrame (mkMotion 1000 500 500 600 400);
     CameraFrame (mkMotion 1000 500 500 600 400); Frame 4]
  /\ (0 <= 1)%Q
  /\ gmode (gateState
              (page_run [CameraFrame (mkMotion 1000 500 500 600 400);
                         CameraFrame (mkMotion 1000 500 500 600 400); Frame 4]
                 page0)) <> ModeNone
  /\ (~ under (gate_tick 1 (mkCamSig 0 0 0 0)
                 (gateState
                    (page_run [CameraFrame (mkMotion 1000 500 500 600 400);
                               CameraFrame (mkMotion 1000 500 500 600 400);
                               Frame 4] page0))) ->
      gmode (gate_tick 1 (mkCamSig 0 0 0 0)
               (gateState
                  (page_run [CameraFrame (mkMotion 1000 500 500 600 400);
                             CameraFrame (mkMotion 1000 500 500 600 400);
                             Frame 4] page0)))
      = gmode (gateState
                 (page_run [CameraFrame (mkMotion 1000 500 500 600 400);
                            CameraFrame (mkMotion 1000 500 500 600 400);
                            Frame 4] page0))).
Proof.
  assert (H : Forall well_timed
                [CameraFrame (mkMotion 1000 500 500 600 400);
                 CameraFrame (mkMotion 1000 500 500 600 400); Frame 4]).
  { repeat constructor; cbn; lra. }
  assert (Hdt : (0 <= 1)%Q) by lra.
  assert (Hm : gmode (gateState
                        (page_run [CameraFrame (mkMotion 1000 500 500 600 400);
                                   CameraFrame (mkMotion 1000 500 500 600 400);
                                   Frame 4] page0)) <> ModeNone).
  { vm_compute. discriminate. }
  split; [exact H|]. split; [exact Hdt|]. split; [exact Hm|].
  apply (gate_release_by_accumulators _ 1 (mkCamSig 0 0 0 0) H Hdt Hm).
Defined.

(** X27. How the gate commits. From mode [none] a frame commits exactly
    when some accumulator has reached three seconds; it then takes the
    signal whose accumulator is the largest, the earliest of fx, fy,
    approach, activity among equals, and arms the hold timer with 1.2
    seconds. Otherwise mode and hold timer are left as they were. *)
Theorem gate_commit_leader (dt : Q) (s : CamSig) (g : Gate) :
  gmode g = ModeNone ->
  let g' := gate_tick dt s g in
  (gmode g' <> ModeNone <->
   (3 <= accX g' \/ 3 <= accY g' \/ 3 <= accAppr g' \/ 3 <= accAct g')%Q)
  /\ (gmode g' <> ModeNone ->
      hold g' = releaseHold
      /\ (3 <= acc_of (gmode g') g')%Q
      /\ (accX g' <= acc_of (gmode g') g')%Q
      /\ (accY g' <= acc_of (gmode g') g')%Q
      /\ (accAppr g' <= acc_of (gmode g') g')%Q
      /\ (accAct g' <= acc_of (gmode g') g')%Q
      /\ match gmode g' with
         | ModeFy => (accX g' < accY g')%Q
         | ModeApproach => (accX g' < accAppr g' /\ accY g' < accAppr g')%Q
         | ModeActivity =>
             (accX g' < accAct g' /\ accY g' < accAct g'
              /\ accAppr g' < accAct g')%Q
         | _ => True
         end)
  /\ (gmode g' = ModeNone -> hold g' = hold g).
Proof.
  intro Hnone. cbv zeta. unfold gate_tick. rewrite Hnone. cbn [is_none]. cbv zeta.
  set (aX := accumulate (Qltb th_fx (Qabs (camFx s))) (accX g) dt).
  set (aY := accumulate (Qltb th_fy (Qabs (camFy s))) (accY g) dt).
  set (aA := accumulate (Qltb th_appr (Qabs (camApproach s))) (accAppr g) dt).
  set (aC := accumulate (Qltb th_act (Qabs (camActivity s))) (accAct g) dt).
  destruct (sort_desc_leader aX aY aA aC) as (k & v & rest & E & Hmax & Hk).
  rewrite E. unfold commitSec.
  destruct (Qle_bool 3 v) eqn:Ec; cbn [gmode hold accX accY accAppr accAct].
  - apply Qle_bool_iff in Ec.
    destruct Hk as [[-> ->]|[(-> & -> & ?)|[(-> & -> & ? & ?)|(-> & -> & ? & ? & ?)]]];
      cbn [acc_of accX accY accAppr accAct];
      (split; [split; [intros _; auto|intros _; discriminate]|]);
      (split; [intros _; repeat split; try reflexivity; try lra; try exact I
              |intro; discriminate]).
  - assert (Hlt : (v < 3)%Q).
    { apply Qnot_le_lt. intro Hle. apply Qle_bool_iff in Hle. congruence. }
    split; [split; [intro H; contradiction|intro H; exfalso; lra]|].
    split; [intro H; contradiction|intros _; reflexivity].
Qed.

(** Two accumulators at 2.5 seconds, both signals above their
    thresholds for one more second: both reach 3.5, the gate commits, and
    fx, the earlier of the two, takes it. *)
Lemma gate_commit_leader_witness :
  gmode (mkGate 2.5 2.5 0 0 ModeNone 0) = ModeNone
  /\ gmode (gate_tick 1 (mkCamSig 1 1 0 0) (mkGate 2.5 2.5 0 0 ModeNone 0))
     = ModeFx
  /\ hold (gate_tick 1 (mkCamSig 1 1 0 0) (mkGate 2.5 2.5 0 0 ModeNone 0))
     = releaseHold
  /\ (3 <= acc_of
             (gmode (gate_tick 1 (mkCamSig 1 1 0 0)
                       (mkGate 2.5 2.5 0 0 ModeNone 0)))
             (gate_tick 1 (mkCamSig 1 1 0 0) (mkGate 2.5 2.5 0 0 ModeNone 0)))%Q
  /\ (accY (gate_tick 1 (mkCamSig 1 1 0 0) (mkGate 2.5 2.5 0 0 ModeNone 0))
      <= acc_of
           (gmode (gate_tick 1 (mkCamSig 1 1 0 0)
                     (mkGate 2.5 2.5 0 0 ModeNone 0)))
           (gate_tick 1 (mkCamSig 1 1 0 0) (mkGate 2.5 2.5 0 0 ModeNone 0)))%Q.
Proof.
  assert (Hn : gmode (mkGate 2.5 2.5 0 0 ModeNone 0) = ModeNone) by reflexivity.
  assert (Hm : gmode (gate_tick 1 (mkCamSig 1 1 0 0)
                        (mkGate 2.5 2.5 0 0 ModeNone 0)) = ModeFx)
    by (vm_compute; reflexivity).
  split; [exact Hn|]. split; [exact Hm|].
  destruct (gate_commit_leader 1 (mkCamSig 1 1 0 0)
              (mkGate 2.5 2.5 0 0 ModeNone 0) Hn) as (_ & Hc & _).
  destruct Hc as (Hh & H3 & _ & Hy & _).
  { rewrite Hm. discriminate. }
  split; [exact Hh|]. split; [exact H3|exact Hy].
Defined.

(** * The hue bias *)

Lemma fmod_small (x y : Q) :
  (0 < y -> - y < x -> x < y -> fmod x y == x)%Q.
Proof.
  intros Hy Hlo Hhi. unfold fmod.
  assert (Hq : (-1 < x / y /\ x / y < 1)%Q).
  { split; [apply Qlt_shift_div_l|apply Qlt_shift_div_r]; lra. }
  destruct Hq as [H1 H2].
  assert (E : Z.quot (Qnum (x / y)) (Zpos (Qden (x / y))) = 0%Z).
  { apply Z.quot_small_iff; [lia|].
    unfold Qlt in H1, H2. cbn [Qnum Qden] in H1, H2. lia. }
  rewrite E. change (inject_Z 0) with 0%Q. ring.
Qed.

Lemma ratio_unit (x d : Q) :
  (0 < d -> - d <= x -> x <= d -> -1 <= x / d /\ x / d <= 1)%Q.
Proof.
  intros Hd Hlo Hhi.
  split; [apply Qle_shift_div_l|apply Qle_shift_div_r]; lra.
Qed.

Lemma hueOf_range (r g b : Q) : (0 <= hueOf r g b /\ hueOf r g b < 1)%Q.
Proof.
  unfold hueOf. cbv zeta.
  set (maxv := Qmax (Qmax r g) b). set (minv := Qmin (Qmin r g) b).
  assert (Hmax : (r <= maxv /\ g <= maxv /\ b <= maxv)%Q).
  { subst maxv. pose proof (Q.le_max_l (Qmax r g) b).
    pose proof (Q.le_max_r (Qmax r g) b).
    pose proof (Q.le_max_l r g). pose proof (Q.le_max_r r g).
    repeat split; lra. }
  assert (Hmin : (minv <= r /\ minv <= g /\ minv <= b)%Q).
  { subst minv. pose proof (Q.le_min_l (Qmin r g) b).
    pose proof (Q.le_min_r (Qmin r g) b).
    pose proof (Q.le_min_l r g). pose proof (Q.le_min_r r g).
    repeat split; lra. }
  destruct Hmax as (Mr & Mg & Mb). destruct Hmin as (mr & mg & mb).
  destruct (Qeq_bool (maxv - minv) 0) eqn:Ed.
  { assert (E : (0 / 6 == 0)%Q) by reflexivity.
    destruct (Qltb (0 / 6) 0) eqn:El; [apply Qltb_lt in El; lra|].
    rewrite E. split; lra. }
  apply Qeq_bool_neq in Ed.
  assert (Hd : (0 < maxv - minv)%Q).
  { destruct (Qlt_le_dec 0 (maxv - minv)) as [H|H]; [exact H|].
    exfalso. apply Ed. lra. }
  destruct (Qeq_bool maxv r) eqn:Er.
  { apply Qeq_bool_iff in Er.
    destruct (ratio_unit (g - b) (maxv - minv) Hd ltac:(lra) ltac:(lra))
      as [H1 H2].
    assert (Ef : (fmod ((g - b) / (maxv - minv)) 6 == (g - b) / (maxv - minv))%Q)
      by (apply fmod_small; lra).
    match goal with
    | |- context [Qltb ?h 0] => destruct (Qltb h 0) eqn:El
    end; [apply Qltb_lt in El|apply Qltb_ge in El]; rewrite Ef in *;
      set (q := ((g - b) / (maxv - minv))%Q) in *;
      assert (Eq : (q / 6 == q * (1 # 6))%Q) by (field);
      rewrite Eq in *; split; lra. }
  destruct (Qeq_bool maxv g) eqn:Eg.
  { destruct (ratio_unit (b - r) (maxv - minv) Hd ltac:(lra) ltac:(lra))
      as [H1 H2].
    set (q := ((b - r) / (maxv - minv))%Q) in *.
    assert (Eq : ((q + 2) / 6 == (q + 2) * (1 # 6))%Q) by (field).
    match goal with
    | |- context [Qltb ?h 0] => destruct (Qltb h 0) eqn:El
    end; [apply Qltb_lt in El|apply Qltb_ge in El];
      rewrite Eq in *; split; lra. }
  destruct (ratio_unit (r - g) (maxv - minv) Hd ltac:(lra) ltac:(lra))
    as [H1 H2].
  set (q := ((r - g) / (maxv - minv))%Q) in *.
  assert (Eq : ((q + 4) / 6 == (q + 4) * (1 # 6))%Q) by (field).
  match goal with
  | |- context [Qltb ?h 0] => destruct (Qltb h 0) eqn:El
  end; [apply Qltb_lt in El|apply Qltb_ge in El];
    rewrite Eq in *; split; lra.
Qed.

(** X28. The hue [hexToHue] computes from three channels is always within
    [0, 1), and 0 for a grey; so [setTraits] sets the reverb send's gain
    within [0.12, 0.28) and the delay time within (0.18, 0.38], below the
    one second the delay line holds, the two tied by
    [delay = 0.38 - 1.25 * (gain - 0.12)]; with an empty palette they are
    0.2 and 0.28. *)
Theorem setTraits_ranges (first : option (Q * Q * Q)) :
  let rev := fst (setTraits first) in
  let dly := snd (setTraits first) in
  (0.12 <= rev /\ rev < 0.28)%Q
  /\ (0.18 < dly /\ dly <= 0.38)%Q
  /\ (dly == 0.38 - 1.25 * (rev - 0.12))%Q
  /\ (first = None -> (rev == 0.2)%Q /\ (dly == 0.28)%Q)
  /\ (forall r g b, (r == g)%Q -> (g == b)%Q -> first = Some (r, g, b) ->
      (rev == 0.12)%Q /\ (dly == 0.38)%Q).
Proof.
  cbv zeta. unfold setTraits. cbn [fst snd]. unfold lerp.
  assert (Hh : (0 <= match first with
                     | Some (r, g, b) => hueOf r g b
                     | None => 0.5
                     end < 1)%Q).
  { destruct first as [[[r g] b]|]; [apply hueOf_range|split; lra]. }
  destruct Hh as [H0 H1].
  split; [split; lra|]. split; [split; lra|]. split; [ring|].
  split.
  - intros ->. split; ring.
  - intros r g b Erg Egb ->.
    assert (E : (hueOf r g b == 0)%Q).
    { unfold hueOf. cbv zeta.
      assert (Ed : (Qmax (Qmax r g) b - Qmin (Qmin r g) b == 0)%Q).
      { rewrite (Q.max_l r g) by lra. rewrite (Q.max_l r b) by lra.
        rewrite (Q.min_l r g) by lra. rewrite (Q.min_l r b) by lra. ring. }
      apply Qeq_bool_iff in Ed. rewrite Ed.
      assert (El : Qltb (0 / 6) 0 = false) by reflexivity.
      rewrite El. reflexivity. }
    rewrite E. split; ring.
Qed.

(** * Restarting inside the look-ahead *)

Lemma first_tick (t0 : Q) (e : Engine) :
  steady e -> scheduleAheadTime e = 0.15%Q ->
  beat e = 0 -> nextNoteTime e = (t0 + 0.05)%Q ->
  exists F e' st rest,
    (forall fuel, (F <= fuel)%nat -> scheduler fuel t0 e = Some (tt, e'))
    /\ steady e' /\ same_config e e'
    /\ steps e' = steps e ++ st :: rest
    /\ fst st = 0 /\ (snd st == t0 + 0.05)%Q.
Proof.
  intros H Ha Hb Hn. destruct (steady_tick e H) as (Hp & Hbpm & Hbeat).
  pose proof (secPerBeat_pos e Hbpm) as Hspb.
  destruct (scheduler_spec t0 e Hp Hbpm Hbeat)
    as (F & e' & m & new & tr & Hrun & Hc & Hst & _ & Hts & Hb' & Hn' & Hh & _).
  rewrite Ha, Hn in *.
  destruct m as [|m].
  { exfalso. cbn [Z.of_nat] in Hn'. change (inject_Z 0) with 0%Q in Hn'.
    rewrite Hn' in Hh. lra. }
  unfold tick_steps in Hts. cbn [seq] in Hts.
  inversion Hts as [|st ? rest ? [Hf Hs] Hrest]; subst.
  exists F, e', st, rest. split; [exact Hrun|].
  split.
  { destruct H as (Hs0 & Ht0 & _).
    split; [apply (same_config_seeded e e' Hc Hs0)|]. split.
    - unfold tempo_ok, same_config in *.
      destruct Hc as (_ & _ & _ & Ebpm & Eswing & _).
      rewrite Ebpm, Eswing. exact Ht0.
    - rewrite Hb'. apply Z.mod_pos_bound. lia. }
  split; [exact Hc|]. split; [exact Hst|].
  rewrite Hb in *. cbn [Z.of_nat] in *. split; [exact Hf|].
  rewrite Hs. unfold stamp. change (inject_Z 0) with 0%Q.
  change (Z.rem ((0 + 0) mod 4096) 2 =? 1) with false. cbv iota. ring.
Qed.

Lemma restart_log (t0 : Q) (w : World) :
  steady (eng w) -> scheduleAheadTime (eng w) = 0.15%Q ->
  running (eng w) = false -> awaiting w = 0%nat -> timers w = [] ->
  exists F w' st1 st2 l1 l2 l3,
    (forall fuel, (F <= fuel)%nat ->
       run fuel [CallStart; ResumeFulfilled t0; TimerFires (nextTimer w) t0;
                 CallStop;
                 CallStart; ResumeFulfilled t0; TimerFires (S (nextTimer w)) t0] w
       = Some w')
    /\ steps (eng w') = l1 ++ st1 :: l2 ++ st2 :: l3
    /\ fst st1 = 0 /\ (snd st1 == t0 + 0.05)%Q
    /\ fst st2 = 0 /\ (snd st2 == t0 + 0.05)%Q.
Proof.
  intros H Ha Hr Haw Ht.
  (* the first start and its first tick *)
  set (e2 := set_int (Some (nextTimer w))
               (set_beat 0 (set_nextNoteTime (t0 + 0.05)%Q
                              (set_running true (eng w))))).
  assert (H2 : steady e2).
  { destruct H as (Hs & Htm & _). split; [exact Hs|]. split; [exact Htm|].
    cbn. lia. }
  destruct (first_tick t0 e2 H2 Ha eq_refl eq_refl)
    as (F1 & e3 & st1 & rest1 & Hrun1 & H3 & Hc3 & Hst3 & Hf1 & Hs1).
  assert (Hrun3 : running e3 = true)
    by (destruct Hc3 as (E & _); rewrite E; reflexivity).
  assert (Hint3 : _int e3 = Some (nextTimer w)).
  { unfold same_config in Hc3.
    destruct Hc3 as (_ & _ & _ & _ & _ & _ & _ & _ & _ & _ & _ & _ & _ & _ & _
                     & _ & _ & _ & _ & _ & E).
    rewrite E. reflexivity. }
  assert (Ha3 : scheduleAheadTime e3 = 0.15%Q).
  { destruct Hc3 as (_ & _ & E & _). rewrite E. exact Ha. }
  (* the second start and its first tick *)
  set (e6 := set_int (Some (S (nextTimer w)))
               (set_beat 0 (set_nextNoteTime (t0 + 0.05)%Q
                              (set_running true (set_running false e3))))).
  assert (H6 : steady e6).
  { destruct H3 as (Hs & Htm & _). split; [exact Hs|]. split; [exact Htm|].
    cbn. lia. }
  destruct (first_tick t0 e6 H6 Ha3 eq_refl eq_refl)
    as (F2 & e7 & st2 & rest2 & Hrun2 & _ & _ & Hst7 & Hf2 & Hs2).
  exists (Nat.max F1 F2),
    (mkWorld e7 [S (nextTimer w)] (S (S (nextTimer w))) 0
       (results w ++ [Started] ++ [Started])),
    st1, st2, (steps (eng w)), rest1, rest2.
  split.
  - intros fuel Hle. cbn [run step].
    unfold start at 1. rewrite Hr.
    unfold start_resumed at 1. cbn [awaiting eng timers nextTimer results].
    rewrite Haw, Ht. cbn [app].
    fold e2.
    unfold tick at 1. cbn [timers eng nextTimer awaiting results existsb].
    rewrite Nat.eqb_refl. cbn [orb].
    rewrite (Hrun1 fuel ltac:(lia)).
    unfold stop at 1. cbn [eng timers nextTimer awaiting results].
    rewrite Hrun3.
    change (_int (set_running false e3)) with (_int e3). rewrite Hint3.
    unfold clearInterval. cbn [filter]. rewrite Nat.eqb_refl. cbn [negb].
    unfold start at 1. cbn [eng timers nextTimer awaiting results running set_running].
    unfold start_resumed at 1. cbn [awaiting eng timers nextTimer results app].
    fold e6.
    unfold tick at 1. cbn [timers eng nextTimer awaiting results existsb].
    rewrite Nat.eqb_refl. cbn [orb].
    rewrite (Hrun2 fuel ltac:(lia)).
    rewrite <- app_assoc. reflexivity.
  - cbn [eng]. split.
    + rewrite Hst7.
      change (steps e6) with (steps e3). rewrite Hst3.
      change (steps e2) with (steps (eng w)).
      rewrite <- app_assoc. reflexivity.
    + repeat split; assumption.
Qed.

(** X29. Why one session: [stop()] followed by [start()] at the same
    clock reading (the clock of a suspended audio context stands still)
    puts the cursor back 0.05 s after that reading, where the first
    [start()] had put it, while the steps its first tick logged reach
    beyond. The next tick logs step 0 again at the very instant of the
    first step 0: the log then holds two steps at one instant and is no
    longer in increasing order. *)
Theorem restart_reschedules (seed : jsstring) (t0 : Q) :
  exists F w' st1 st2 l1 l2 l3,
    (forall fuel, (F <= fuel)%nat ->
       run fuel [CallStart; ResumeFulfilled t0; TimerFires 1 t0; CallStop;
                 CallStart; ResumeFulfilled t0; TimerFires 2 t0]
           (newWorld seed) = Some w')
    /\ steps (eng w') = l1 ++ st1 :: l2 ++ st2 :: l3
    /\ fst st1 = 0 /\ (snd st1 == t0 + 0.05)%Q
    /\ fst st2 = 0 /\ (snd st2 == t0 + 0.05)%Q
    /\ ~ StronglySorted Qlt (instants (steps (eng w'))).
Proof.
  destruct (setSeed_transport seed fieldDefaults)
    as (Er & _ & _ & _ & _ & _ & _ & Ea & _).
  cbv zeta in Er, Ea.
  destruct (restart_log t0 (newWorld seed) (newEngine_steady seed) Ea Er
              eq_refl eq_refl)
    as (F & w' & st1 & st2 & l1 & l2 & l3 & Hrun & Hst & Hf1 & Hs1 & Hf2 & Hs2).
  exists F, w', st1, st2, l1, l2, l3.
  split; [exact Hrun|]. split; [exact Hst|].
  split; [exact Hf1|]. split; [exact Hs1|]. split; [exact Hf2|].
  split; [exact Hs2|].
  rewrite Hst. unfold instants. rewrite map_app. cbn [map]. rewrite map_app.
  cbn [map]. intro Hsorted.
  assert (Hsub : StronglySorted Qlt (snd st1 :: map snd l2 ++ snd st2 :: map snd l3)).
  { clear - Hsorted. induction (map snd l1) as [|a l IH]; [exact Hsorted|].
    apply IH. cbn [app] in Hsorted. apply StronglySorted_inv in Hsorted.
    destruct Hsorted as [H _]. exact H. }
  apply StronglySorted_inv in Hsub. destruct Hsub as [_ Hall].
  rewrite Forall_forall in Hall.
  assert (Hlt : (snd st1 < snd st2)%Q).
  { apply Hall. apply in_or_app. right. left. reflexivity. }
  rewrite Hs1, Hs2 in Hlt. lra.
Qed.
